(** * cantools: the [list] subcommand and the signal codec

    A shallow embedding of [cantools/subparsers/list.py] (the functions
    [_format_val], [_print_message] and [_do_list_messages]) together with
    the properties of the printed listing, followed by a model of the
    signal codec as the specification describes it and its round trip.

    Python objects are modelled by records, optional attributes by
    [option], dictionaries by association lists in insertion order, and the
    standard output by the list of the arguments of the successive [print]
    calls.  Exceptions are explicit: a computation either returns a value
    or raises, and what was printed before the exception stays printed. *)

From Stdlib Require Import ZArith String Ascii List Bool Lia Floats.
From Stdlib Require Import QArith Qcanon Qround.
From Stdlib Require Import DecimalString HexadecimalString.
From stdpp Require Import base option list sorting strings gmap.

Open Scope string_scope.
Open Scope Z_scope.
Open Scope list_scope.

(** ** Python values and exceptions *)

Inductive exn : Type :=
| KeyError (key : string)
| ValueError
| TypeError.

Inductive result (A : Type) : Type :=
| Ok (a : A)
| Raise (e : exn).
Arguments Ok {A} a.
Arguments Raise {A} e.

#[global] Instance result_ret : MRet result := fun A a => Ok a.
#[global] Instance result_bind : MBind result := fun A B f r =>
  match r with
  | Ok a => f a
  | Raise e => Raise e
  end.

(** [NamedSignalValue]: a choice with its raw value, its name and its
    comments per language. *)
Record NamedSignalValue : Type := mkNamedSignalValue {
  nsv_value : Z;
  nsv_name : string;
  nsv_comments : list (option string * string)
}.

(** The values [_format_val] accepts besides [None]:
    [Union[float, int, str, NamedSignalValue]]. *)
Inductive pyval : Type :=
| VFloat (f : float)
| VInt (z : Z)
| VStr (s : string)
| VNamed (n : NamedSignalValue).

(** A number attribute of a signal: a Python [int] or [float]. *)
Inductive num : Type :=
| NInt (z : Z)
| NFloat (f : float).

Definition num_val (n : num) : pyval :=
  match n with
  | NInt z => VInt z
  | NFloat f => VFloat f
  end.

(** A dictionary in insertion order. *)
Definition dict (K V : Type) : Type := list (K * V).

Fixpoint dict_get {K V : Type} `{EqDecision K} (d : dict K V) (k : K) : option V :=
  match d with
  | [] => None
  | (k', v) :: d' => if decide (k' = k) then Some v else dict_get d' k
  end.

(** [k in d] *)
Definition dict_mem {K V : Type} `{EqDecision K} (d : dict K V) (k : K) : bool :=
  match dict_get d k with
  | Some _ => true
  | None => false
  end.

(** ** Rendering of values inside f-strings *)

(** [f'{z}'] for an [int]. *)
Definition str_int (z : Z) : string :=
  DecimalString.NilZero.string_of_int (Z.to_int z).

(** [f'{z:x}'] for an [int]. *)
Definition hex_int (z : Z) : string :=
  HexadecimalString.NilZero.string_of_int (Z.to_hex_int z).

(** [f'{b}'] for a [bool]. *)
Definition str_bool (b : bool) : string :=
  if b then "True" else "False".

(** [f'{o}'] for an optional attribute: [None] prints as the word. *)
Definition str_opt {A : Type} (f : A -> string) (o : option A) : string :=
  match o with
  | Some a => f a
  | None => "None"
  end.

(** [f'{l}'] for a list of [int]: its [repr]. *)
Definition str_int_list (l : list Z) : string :=
  "[" +:+ String.concat ", " (map str_int l) +:+ "]".

(** [sep.join(l)] is [String.concat sep l]. *)
Definition join (sep : string) (l : list string) : string :=
  String.concat sep l.

(** [s.split('\n')] *)
Fixpoint split_lines_aux (cur : string) (s : string) : list string :=
  match s with
  | EmptyString => [cur]
  | String c s' =>
      if Ascii.eqb c "010"%char
      then cur :: split_lines_aux "" s'
      else split_lines_aux (cur +:+ String c "") s'
  end.

Definition split_lines (s : string) : list string := split_lines_aux "" s.

(** Truthiness of strings, lists and optional objects. *)
Definition truthy_str (s : string) : bool :=
  match s with
  | EmptyString => false
  | String _ _ => true
  end.

Definition truthy_list {A : Type} (l : list A) : bool :=
  match l with
  | [] => false
  | _ :: _ => true
  end.

Definition truthy_opt {A : Type} (f : A -> bool) (o : option A) : bool :=
  match o with
  | Some a => f a
  | None => false
  end.

Definition is_some {A : Type} (o : option A) : bool :=
  match o with
  | Some _ => true
  | None => false
  end.

(** ** Comparison of numbers

    Python compares an [int] with a [float] exactly; the float is taken
    apart into sign, mantissa and exponent. *)
Definition Z_compare_float (z : Z) (f : float) : option comparison :=
  match Prim2SF f with
  | S754_nan => None
  | S754_zero _ => Some (z ?= 0)
  | S754_infinity s => Some (if s then Gt else Lt)
  | S754_finite s m e =>
      let v := if s then Z.neg m else Z.pos m in
      Some (if 0 <=? e then z ?= v * 2 ^ e else z * 2 ^ (- e) ?= v)
  end.

(** [n > f] and [n < f] for a float [f]. *)
Definition num_gt_float (n : num) (f : float) : bool :=
  match n with
  | NInt z => match Z_compare_float z f with Some Gt => true | _ => false end
  | NFloat g => PrimFloat.ltb f g
  end.

Definition num_lt_float (n : num) (f : float) : bool :=
  match n with
  | NInt z => match Z_compare_float z f with Some Lt => true | _ => false end
  | NFloat g => PrimFloat.ltb g f
  end.

(** [n != 0] and [n == k] for an [int] literal. *)
Definition num_eq_int (n : num) (k : Z) : bool :=
  match n with
  | NInt z => z =? k
  | NFloat g => match Z_compare_float k g with Some Eq => true | _ => false end
  end.

Definition num_ne_int (n : num) (k : Z) : bool := negb (num_eq_int n k).

(** ** The database model read by the listing *)

Inductive ByteOrder : Type :=
| little_endian
| big_endian.

Definition str_byte_order (b : ByteOrder) : string :=
  match b with
  | little_endian => "little_endian"
  | big_endian => "big_endian"
  end.

(** A value of [signal.choices]: a plain string or a [NamedSignalValue]. *)
Inductive choice : Type :=
| CStr (s : string)
| CNamed (n : NamedSignalValue).

(** [f'{c}'] for a choice: the string itself, or the label of the named
    choice ([NamedSignalValue] is not part of the sources; section 9 of the
    specification gives it a raw value and a label). *)
Definition str_choice (c : choice) : string :=
  match c with
  | CStr s => s
  | CNamed n => nsv_name n
  end.

Module Signal.
Record t : Type := mk {
  name : string;
  start : Z;
  length : Z;
  byte_order : ByteOrder;
  is_signed : option bool;
  is_float : bool;
  initial : option pyval;
  invalid : option pyval;
  scale : option num;
  offset : option num;
  minimum : option num;
  maximum : option num;
  unit : option string;
  choices : option (dict Z choice);
  comments : option (dict (option string) string);
  receivers : list string;
  is_multiplexer : bool;
  multiplexer_ids : option (list Z);
  multiplexer_signal : option string
}.
End Signal.

Module E2E.
Record t : Type := mk {
  category : option string;
  data_ids : option (list Z);
  payload_length : option Z
}.
End E2E.

Module SecOC.
Record t : Type := mk {
  auth_algorithm_name : option string;
  freshness_algorithm_name : option string;
  data_id : option Z;
  auth_tx_bit_length : option Z;
  freshness_bit_length : option Z;
  freshness_tx_bit_length : option Z;
  payload_length : option Z
}.
End SecOC.

Module Autosar.
Record t : Type := mk {
  is_nm : bool;
  e2e : option E2E.t;
  is_secured : bool;
  secoc : option SecOC.t
}.
End Autosar.

Module Message.
#[warnings="-register-all"]
Inductive t : Type := mk {
  name : option string;
  frame_id : Z;
  header_id : option Z;
  is_extended_frame : bool;
  is_fd : bool;
  is_container : bool;
  length : Z;
  cycle_time : option Z;
  bus_name : option string;
  senders : list string;
  comments : option (dict (option string) string);
  autosar : option Autosar.t;
  signals : list Signal.t;
  contained_messages : option (list t)
}.
End Message.

Module Database.
Record t : Type := mk {
  messages : list Message.t
}.
End Database.

(** The parsed command line of the [list] subcommand. *)
Module Args.
Record t : Type := mk {
  items : list string;
  print_all : bool;
  exclude_extended : bool;
  exclude_normal : bool;
  skip_format_specifics : bool
}.
End Args.

(** Modelled from the spec: [Message.get_signal_by_name], whose class is
    not part of the sources; a lookup by name over the signals the message
    owns, failing on a miss (the [KeyError] the listing would meet). *)
Definition get_signal_by_name (message : Message.t) (name : string)
  : result Signal.t :=
  match find (fun s => String.eqb (Signal.name s) name) (Message.signals message) with
  | Some s => Ok s
  | None => Raise (KeyError name)
  end.

(** Modelled from the spec: [Database.get_message_by_name], whose class is
    not part of the sources; a lookup by name over the messages the
    database owns, failing on a miss with the [KeyError] the listing
    catches. *)
Definition get_message_by_name (can_db : Database.t) (name : option string)
  : result Message.t :=
  match find (fun m => bool_decide (Message.name m = name))
             (Database.messages can_db) with
  | Some m => Ok m
  | None => Raise (KeyError (str_opt id name))
  end.

(** What the listing takes from outside this file: Python's [format]
    built-in behind [f'{val:{spec}}'], which may raise, and
    [signal_tree_string] of the dump formatter. *)
Class Externals : Type := {
  py_format : pyval -> string -> result string;
  signal_tree_string : Message.t -> Z -> string
}.

(** Lexicographic order of strings, the order of [sorted] and
    [list.sort] on [str]. *)
Definition str_le (a b : string) : Prop := String.leb a b = true.

#[global] Instance str_le_dec : RelDecision str_le.
Proof. intros a b. unfold str_le. apply _. Defined.

(** [sorted(l)] and [l.sort()] on strings. *)
Definition sorted (l : list string) : list string := merge_sort str_le l.

(** ** Printing

    The standard output is the list of the strings handed to [print], in
    order; a computation threads it and may raise. *)
Definition stdout : Type := list string.

Definition IO (A : Type) : Type := stdout -> stdout * result A.

#[global] Instance IO_ret : MRet IO := fun A a out => (out, Ok a).
#[global] Instance IO_bind : MBind IO := fun A B f m out =>
  match m out with
  | (out', Ok a) => f a out'
  | (out', Raise e) => (out', Raise e)
  end.

Definition print (line : string) : IO () := fun out => (out ++ [line], Ok ()).

Definition lift {A : Type} (r : result A) : IO A := fun out => (out, r).

Definition when (b : bool) (m : IO ()) : IO () :=
  if b then m else mret ().

(** [for x in l: body x] *)
Definition for_each {A : Type} (body : A -> IO ()) : list A -> IO () :=
  fix go (l : list A) : IO () :=
    match l with
    | [] => mret ()
    | x :: l' => body x ;; go l'
    end.

(** The lines a computation prints when started on an empty output, and
    how it ends. *)
Definition printed {A : Type} (m : IO A) : list string := fst (m []).
Definition outcome {A : Type} (m : IO A) : result A := snd (m []).

(** [prints m ls]: whatever was printed before, [m] prints the lines [ls]
    and returns. *)
Definition prints (m : IO ()) (ls : list string) : Prop :=
  forall out, m out = (out ++ ls, Ok ()).

(** [appends m]: [m] never touches what was printed before it. *)
Definition appends {A : Type} (m : IO A) : Prop :=
  forall out, m out = (out ++ printed m, outcome m).

(** [f'{h:x}'] for an optional identifier: formatting [None] with a
    format specifier raises a [TypeError]. *)
Definition hex_opt (o : option Z) : result string :=
  match o with
  | Some h => Ok (hex_int h)
  | None => Raise TypeError
  end.

(** [l.sort()] for a list of names.  Names are strings; [None] cannot be
    compared, so sorting a list of two or more elements that holds a
    [None] raises a [TypeError]. *)
Definition sort_names (l : list (option string)) : result (list (option string)) :=
  match l with
  | [] | [_] => Ok l
  | _ =>
      if forallb is_some l
      then Ok (map Some (sorted (omap id l)))
      else Raise TypeError
  end.

Section Listing.
Context `{!Externals}.

(** ** [_format_val] *)

(** [isinstance(val, (str, NamedSignalValue))] *)
Definition is_enumeration (val : pyval) : bool :=
  match val with
  | VStr _ | VNamed _ => true
  | VFloat _ | VInt _ => false
  end.

Definition _format_val (val : option pyval) (unit : string)
    (value_format_specifier : string) : result string :=
  match val with
  | None => Ok "None"
  | Some v =>
      if negb (truthy_str unit) || is_enumeration v
      then py_format v value_format_specifier
      else
        s ← py_format v value_format_specifier;
        Ok (s +:+ " " +:+ unit)
  end.

(** ** [_print_message] *)

(** [for lang in comments: print(f'{pre}Comment[{lang}]: {comments[lang]}')];
    iterating the keys and reading each key's entry visits the entries in
    order. *)
Definition print_comments (pre : string) (comments : dict (option string) string)
  : IO () :=
  for_each (fun '(lang, text) =>
              print (pre +:+ "Comment[" +:+ str_opt id lang +:+ "]: " +:+ text))
           comments.

(** Lines 42-52: the name, the comments, the bus and the senders. *)
Definition print_message_heading (message : Message.t) (indent : string) : IO () :=
  print (indent +:+ str_opt id (Message.name message) +:+ ":") ;;
  match Message.comments message with
  | Some comments => print_comments (indent +:+ "  ") comments
  | None => mret ()
  end ;;
  when (truthy_opt truthy_str (Message.bus_name message))
       (print (indent +:+ "  Bus: " +:+ str_opt id (Message.bus_name message))) ;;
  when (truthy_list (Message.senders message))
       (print (indent +:+ "  Sending ECUs: "
               +:+ join ", " (sorted (Message.senders message)))).

(** Lines 54-64: the identifier and the size. *)
Definition print_message_id (message : Message.t) (indent : string) : IO () :=
  match Message.header_id message with
  | None =>
      print (indent +:+ "  Frame ID: 0x" +:+ hex_int (Message.frame_id message)
             +:+ " (" +:+ str_int (Message.frame_id message) +:+ ")") ;;
      (if Message.is_container message
       then print (indent +:+ "  Maximum Size: "
                   +:+ str_int (Message.length message) +:+ " bytes")
       else print (indent +:+ "  Size: "
                   +:+ str_int (Message.length message) +:+ " bytes")) ;;
      print (indent +:+ "  Is extended frame: "
             +:+ str_bool (Message.is_extended_frame message)) ;;
      print (indent +:+ "  Is CAN-FD frame: " +:+ str_bool (Message.is_fd message))
  | Some header_id =>
      print (indent +:+ "  Header ID: 0x" +:+ hex_int header_id
             +:+ " (" +:+ str_int header_id +:+ ")") ;;
      print (indent +:+ "  Size: " +:+ str_int (Message.length message) +:+ " bytes")
  end.

(** Lines 66-67: the cycle time. *)
Definition print_message_cycle_time (message : Message.t) (indent vfs : string)
  : IO () :=
  match Message.cycle_time message with
  | Some cycle_time =>
      s ← lift (_format_val (Some (VInt cycle_time)) "ms" vfs);
      print (indent +:+ "  Cycle time: " +:+ s)
  | None => mret ()
  end.

(** Lines 69-89: the AUTOSAR specifics. *)
Definition print_message_autosar (message : Message.t) (indent : string)
    (print_format_specifics : bool) : IO () :=
  match Message.autosar message with
  | Some autosar =>
      when print_format_specifics (
        print (indent +:+ "  Is network management frame: "
               +:+ str_bool (Autosar.is_nm autosar)) ;;
        match Autosar.e2e autosar with
        | Some e2e =>
            print (indent +:+ "  End-to-end properties:") ;;
            print (indent +:+ "    Category: " +:+ str_opt id (E2E.category e2e)) ;;
            print (indent +:+ "    Data IDs: "
                   +:+ str_opt str_int_list (E2E.data_ids e2e)) ;;
            print (indent +:+ "    Protected size: "
                   +:+ str_opt str_int (E2E.payload_length e2e) +:+ " bytes")
        | None => mret ()
        end ;;
        print (indent +:+ "  Is secured: " +:+ str_bool (Autosar.is_secured autosar)) ;;
        match Autosar.secoc autosar with
        | Some secoc =>
            print (indent +:+ "  Security properties:") ;;
            print (indent +:+ "    Authentication algorithm: "
                   +:+ str_opt id (SecOC.auth_algorithm_name secoc)) ;;
            print (indent +:+ "    Freshness algorithm: "
                   +:+ str_opt id (SecOC.freshness_algorithm_name secoc)) ;;
            print (indent +:+ "    Data ID: " +:+ str_opt str_int (SecOC.data_id secoc)) ;;
            print (indent +:+ "    Authentication transmit bits: "
                   +:+ str_opt str_int (SecOC.auth_tx_bit_length secoc)) ;;
            print (indent +:+ "    Freshness counter size: "
                   +:+ str_opt str_int (SecOC.freshness_bit_length secoc) +:+ " bits") ;;
            print (indent +:+ "    Freshness counter transmit size: "
                   +:+ str_opt str_int (SecOC.freshness_tx_bit_length secoc)
                   +:+ " bits") ;;
            print (indent +:+ "    Secured size: "
                   +:+ str_opt str_int (SecOC.payload_length secoc) +:+ " bytes")
        | None => mret ()
        end)
  | None => mret ()
  end.

(** Lines 91-97: the signal tree. *)
Definition print_message_signal_tree (message : Message.t) (indent : string)
  : IO () :=
  when (truthy_list (Message.signals message)) (
    print (indent +:+ "  Signal tree:") ;;
    let st := signal_tree_string message (1000 * 1000) in
    print "" ;;
    for_each (fun s => print (indent +:+ "    " +:+ s)) (split_lines st) ;;
    print "").

(** Lines 102-107: one line per possibly contained message. *)
Definition print_contained_name (indent : string) (contained_message : Message.t)
  : IO () :=
  match Message.name contained_message with
  | Some name =>
      h ← lift (hex_opt (Message.header_id contained_message));
      print (indent +:+ "    " +:+ name +:+ " (0x" +:+ h +:+ ")")
  | None =>
      h ← lift (hex_opt (Message.header_id contained_message));
      print (indent +:+ "    (0x" +:+ h +:+ ")")
  end.

(** Lines 120-126: the internal type of a signal. *)
Definition signal_type (message : Message.t) (signal : Signal.t) : string :=
  if Signal.is_float signal then "Float"
  else if Signal.is_multiplexer signal
          && bool_decide (Some (Signal.name signal)
                          ∈ map Signal.multiplexer_signal (Message.signals message))
       then "Multiplex Selector"
       else "Integer".

(** Lines 128-134: the name, the comments, the receivers, the type. *)
Definition print_signal_heading (message : Message.t) (indent : string)
    (signal : Signal.t) : IO () :=
  let signal_type := signal_type message signal in
  print (indent +:+ "    " +:+ Signal.name signal +:+ ":") ;;
  match Signal.comments signal with
  | Some comments => print_comments (indent +:+ "      ") comments
  | None => mret ()
  end ;;
  when (truthy_list (Signal.receivers signal))
       (print (indent +:+ "      Receiving ECUs: "
               +:+ join ", " (sorted (Signal.receivers signal)))) ;;
  print (indent +:+ "      Internal type: " +:+ signal_type).

(** Lines 143-146: how one selector value is shown. *)
Definition selector_value (selector_sig : Signal.t) (x : Z) : string :=
  match Signal.choices selector_sig with
  | Some choices =>
      if truthy_list choices
      then match dict_get choices x with
           | Some c => str_choice c
           | None => str_int x
           end
      else str_int x
  | None => str_int x
  end.

(** Lines 135-148: the selector signal and the selector values. *)
Definition print_signal_selector (message : Message.t) (indent : string)
    (signal : Signal.t) : IO () :=
  match Signal.multiplexer_signal signal with
  | Some multiplexer_signal =>
      print (indent +:+ "      Selector signal: " +:+ multiplexer_signal) ;;
      selector_sig ← lift (get_signal_by_name message multiplexer_signal);
      let selector_values :=
        match Signal.multiplexer_ids signal with
        | Some multiplexer_ids => map (selector_value selector_sig) multiplexer_ids
        | None => []
        end in
      print (indent +:+ "      Selector values: " +:+ join ", " selector_values)
  | None => mret ()
  end.

(** [if v is not None: print(f'{pre}{label}: {_format_val(v, unit, vfs)}')] *)
Definition print_value (pre label : string) (v : option pyval) (unit vfs : string)
  : IO () :=
  match v with
  | Some _ =>
      s ← lift (_format_val v unit vfs);
      print (pre +:+ label +:+ ": " +:+ s)
  | None => mret ()
  end.

(** The unit used for the values of a signal (lines 153-156). *)
Definition signal_unit (signal : Signal.t) : string :=
  if truthy_opt truthy_str (Signal.unit signal)
  then str_opt id (Signal.unit signal)
  else "".

(** Lines 150-166: the layout, the unit and the bounds. *)
Definition print_signal_layout (indent vfs : string) (signal : Signal.t) : IO () :=
  print (indent +:+ "      Start bit: " +:+ str_int (Signal.start signal)) ;;
  print (indent +:+ "      Length: " +:+ str_int (Signal.length signal) +:+ " bits") ;;
  print (indent +:+ "      Byte order: " +:+ str_byte_order (Signal.byte_order signal)) ;;
  when (truthy_opt truthy_str (Signal.unit signal))
       (print (indent +:+ "      Unit: " +:+ str_opt id (Signal.unit signal))) ;;
  let unit := signal_unit signal in
  print_value (indent +:+ "      ") "Initial value" (Signal.initial signal) unit vfs ;;
  print_value (indent +:+ "      ") "Invalid value" (Signal.invalid signal) unit vfs ;;
  match Signal.is_signed signal with
  | Some is_signed => print (indent +:+ "      Is signed: " +:+ str_bool is_signed)
  | None => mret ()
  end ;;
  print_value (indent +:+ "      ") "Minimum"
              (num_val <$> Signal.minimum signal) unit vfs ;;
  print_value (indent +:+ "      ") "Maximum"
              (num_val <$> Signal.maximum signal) unit vfs.

(** Lines 168-171: whether the offset and the scale are worth a line. *)
Definition has_offset (signal : Signal.t) : bool :=
  match Signal.offset signal with
  | Some offset => num_ne_int offset 0
  | None => false
  end.

#[warnings="-inexact-float"]
Definition has_scale (signal : Signal.t) : bool :=
  match Signal.scale signal with
  | Some scale =>
      num_gt_float scale (1 + 1e-10)%float || num_lt_float scale (1 - 1e-10)%float
  | None => false
  end.

(** Lines 168-177: the offset and the scaling factor. *)
Definition print_signal_scaling (indent vfs : string) (signal : Signal.t) : IO () :=
  let unit := signal_unit signal in
  if has_offset signal || has_scale signal
  then
    let offset :=
      match Signal.offset signal with Some o => num_val o | None => VInt 0 end in
    s ← lift (_format_val (Some offset) unit vfs);
    print (indent +:+ "      Offset: " +:+ s) ;;
    let scale :=
      match Signal.scale signal with Some s => num_val s | None => VInt 1 end in
    s ← lift (_format_val (Some scale) unit vfs);
    print (indent +:+ "      Scaling factor: " +:+ s)
  else mret ().

(** Lines 179-185: the named values. *)
Definition print_signal_choices (indent : string) (signal : Signal.t) : IO () :=
  match Signal.choices signal with
  | Some choices =>
      when (truthy_list choices) (
        print (indent +:+ "      Named values:") ;;
        for_each (fun '(value, choice) =>
                    print (indent +:+ "        " +:+ str_int value +:+ ": "
                           +:+ str_choice choice) ;;
                    match choice with
                    | CNamed n =>
                        for_each (fun '(lang, description) =>
                                    print (indent +:+ "          Comment["
                                           +:+ str_opt id lang +:+ "]: "
                                           +:+ description))
                                 (nsv_comments n)
                    | CStr _ => mret ()
                    end)
                 choices)
  | None => mret ()
  end.

(** Lines 119-185: the body of the loop over the signals. *)
Definition print_signal (message : Message.t) (indent vfs : string)
    (signal : Signal.t) : IO () :=
  print_signal_heading message indent signal ;;
  print_signal_selector message indent signal ;;
  print_signal_layout indent vfs signal ;;
  print_signal_scaling indent vfs signal ;;
  print_signal_choices indent signal.

Fixpoint _print_message (message : Message.t) (indent : string)
    (print_format_specifics : bool) (values_format_specifier : string)
    {struct message} : IO () :=
  let vfs := values_format_specifier in
  print_message_heading message indent ;;
  print_message_id message indent ;;
  print_message_cycle_time message indent vfs ;;
  print_message_autosar message indent print_format_specifics ;;
  print_message_signal_tree message indent ;;
  match Message.contained_messages message with
  | Some contained_messages =>
      print (indent +:+ "  Potentially contained messages:") ;;
      print "" ;;
      for_each (print_contained_name indent) contained_messages ;;
      print "" ;;
      print (indent +:+ "  Potentially contained message details:") ;;
      for_each (fun contained_message =>
                  _print_message contained_message "    " print_format_specifics "")
               contained_messages
  | None => mret ()
  end ;;
  when (truthy_list (Message.signals message))
       (print (indent +:+ "  Signal details:")) ;;
  for_each (print_signal message indent vfs) (Message.signals message).

(** ** [_do_list_messages] *)

(** The double quote character, as a string. *)
Definition dquote : string := String "034"%char "".

(** Lines 265-270 and 278-284: the names of the messages the two filters
    keep, appended to [message_names] in the order of the database. *)
Definition append_message_names (can_db : Database.t) (args : Args.t)
    (message_names : list (option string)) : list (option string) :=
  fold_left
    (fun names message =>
       if Message.is_extended_frame message && Args.exclude_extended args
       then names
       else if negb (Message.is_extended_frame message) && Args.exclude_normal args
            then names
            else names ++ [Message.name message])
    (Database.messages can_db) message_names.

(** Lines 294-303: one requested message. *)
Definition list_message (can_db : Database.t) (print_format_specifics : bool)
    (values_format_specifier : string) (message_name : option string) : IO () :=
  match get_message_by_name can_db message_name with
  | Ok message =>
      _print_message message "" print_format_specifics values_format_specifier
  | Raise (KeyError _) =>
      print ("No message named " +:+ dquote +:+ str_opt id message_name +:+ dquote
             +:+ " has been found in input file.")
  | Raise e => lift (Raise e)
  end.

Definition _do_list_messages (can_db : Database.t) (args : Args.t)
    (values_format_specifier : string) : IO () :=
  let message_names := map Some (Args.items args) in
  let print_all := Args.print_all args in
  let print_format_specifics := negb (Args.skip_format_specifics args) in
  message_names ←
    (if print_all
     then lift (sort_names (append_message_names can_db args message_names))
     else mret message_names);
  if negb (truthy_list message_names)
  then
    message_names ← lift (sort_names (append_message_names can_db args []));
    for_each (fun message_name => print (str_opt id message_name)) message_names
  else
    for_each (list_message can_db print_format_specifics values_format_specifier)
             message_names.

End Listing.

(** ** Buses, nodes and the subcommand

    The remaining functions of the [list] subcommand: the listings of the
    buses and of the nodes, and [_do_list], which loads the file and picks
    one of the three listings. *)

Module Node.
Record t : Type := mk {
  name : string;
  comments : option (dict (option string) string)
}.
End Node.

Module Bus.
Record t : Type := mk {
  name : string;
  comments : option (dict (option string) string);
  baudrate : option Z;
  fd_baudrate : option Z
}.
End Bus.

(** The database as the three listings read it: its messages
    ([Database.t], read by [_do_list_messages]), its buses and its
    nodes. *)
Module CanDb.
Record t : Type := mk {
  database : Database.t;
  buses : list Bus.t;
  nodes : list Node.t
}.
End CanDb.

(** The command line as [_do_list] reads it: the attributes of its own,
    and those the listings read ([Args.t]).  [input_file_name] is declared
    with [nargs=1]; the field holds the one element of that list. *)
Module Command.
Record t : Type := mk {
  input_file_name : string;
  prune : bool;
  no_strict : bool;
  print_buses : bool;
  print_nodes : bool;
  args : Args.t
}.
End Command.

(** What [cantools.database.load_file] returns: a CAN database, or a
    diagnostics database, of which the listing reads nothing. *)
Inductive loaded : Type :=
| CanDatabase (can_db : CanDb.t)
| DiagnosticsDatabase.

(** [cantools.database.load_file(input_file_name, prune_choices, strict)],
    which is not part of this file: it returns a database or raises. *)
Class Loader : Type := {
  load_file : string -> bool -> bool -> result loaded
}.

(** Lines 187-192. *)
Definition _print_node (node : Node.t) : IO () :=
  print (Node.name node +:+ ":") ;;
  match Node.comments node with
  | Some comments => print_comments "  " comments
  | None => mret ()
  end.

(** Lines 194-208. *)
Definition _print_bus (bus : Bus.t) : IO () :=
  print (Bus.name bus +:+ ":") ;;
  match Bus.comments bus with
  | Some comments => print_comments "  " comments
  | None => mret ()
  end ;;
  match Bus.baudrate bus with
  | Some baudrate => print ("  Baudrate: " +:+ str_int baudrate)
  | None => mret ()
  end ;;
  match Bus.fd_baudrate bus with
  | Some fd_baudrate =>
      print "  CAN-FD enabled: True" ;;
      print ("  FD Baudrate: " +:+ str_int fd_baudrate)
  | None => print "  CAN-FD enabled: False"
  end.

(** Lines 233-241; [continue] skips the rest of the round. *)
Definition _do_list_buses (can_db : CanDb.t) (args : Args.t) : IO () :=
  let bus_names := Args.items args in
  for_each (fun bus =>
              if truthy_list bus_names && negb (bool_decide (Bus.name bus ∈ bus_names))
              then mret ()
              else _print_bus bus)
           (CanDb.buses can_db).

(** Lines 243-251. *)
Definition _do_list_nodes (can_db : CanDb.t) (args : Args.t) : IO () :=
  let node_names := Args.items args in
  for_each (fun node =>
              if truthy_list node_names && negb (bool_decide (Node.name node ∈ node_names))
              then mret ()
              else _print_node node)
           (CanDb.nodes can_db).

Section Subcommand.
Context `{!Externals} `{!Loader}.

(** Lines 210-231. *)
Definition _do_list (args : Command.t) (values_format_specifier : string) : IO () :=
  let input_file_name := Command.input_file_name args in
  let prune := Command.prune args in
  let no_strict := Command.no_strict args in
  let print_buses := Command.print_buses args in
  let print_nodes := Command.print_nodes args in
  can_db ← lift (load_file input_file_name prune (negb no_strict));
  match can_db with
  | DiagnosticsDatabase =>
      print ("The " +:+ dquote +:+ "list" +:+ dquote
             +:+ " subcommand only works with non-diagnostic database "
             +:+ "files!")
  | CanDatabase can_db =>
      if print_buses
      then _do_list_buses can_db (Command.args args)
      else if print_nodes
           then _do_list_nodes can_db (Command.args args)
           else _do_list_messages (CanDb.database can_db) (Command.args args)
                                  values_format_specifier
  end.

End Subcommand.

(** ** Conditions on a message read by the properties of the listing *)

(** [returns m]: [m] only appends to the output and does not raise. *)
Definition returns {A : Type} (m : IO A) : Prop :=
  appends m /\ exists a, outcome m = Ok a.

(** Every [multiplexer_signal] of the message names one of its signals and
    every message it may contain has a [header_id], and so on for the
    contained messages. *)
Fixpoint listable (message : Message.t) : bool :=
  forallb (fun signal =>
             match Signal.multiplexer_signal signal with
             | Some multiplexer_signal =>
                 match get_signal_by_name message multiplexer_signal with
                 | Ok _ => true
                 | Raise _ => false
                 end
             | None => true
             end)
          (Message.signals message)
  && match Message.contained_messages message with
     | Some contained_messages =>
         forallb (fun contained_message =>
                    is_some (Message.header_id contained_message)
                    && listable contained_message)
                 contained_messages
     | None => true
     end.

(** Neither the message nor a message it may contain has AUTOSAR
    specifics. *)
Fixpoint no_autosar (message : Message.t) : bool :=
  negb (is_some (Message.autosar message))
  && match Message.contained_messages message with
     | Some contained_messages => forallb no_autosar contained_messages
     | None => true
     end.

(** The messages the two filters of [_do_list_messages] keep. *)
Definition kept_messages (can_db : Database.t) (args : Args.t) : list Message.t :=
  List.filter
    (fun m => if Message.is_extended_frame m
              then negb (Args.exclude_extended args)
              else negb (Args.exclude_normal args))
    (Database.messages can_db).

(** [emits Q m]: [m] only appends to the output, and every line it prints
    satisfies [Q]. *)
Definition emits {A : Type} (Q : string -> Prop) (m : IO A) : Prop :=
  appends m /\ Forall Q (printed m).

(** A line is empty, or starts with the indent, or starts with the four
    spaces given as the indent to the details of contained messages. *)
Definition indented (indent line : string) : Prop :=
  line = "" \/ String.prefix indent line = true \/ String.prefix "    " line = true.

(** ** How far a listing gets *)

Section Reach.
Context `{!Externals}.

(** Lines 42-117: what [_print_message] does before the loop over the
    signals. *)
Definition message_preamble (message : Message.t) (indent : string)
    (print_format_specifics : bool) (values_format_specifier : string) : IO () :=
  let vfs := values_format_specifier in
  print_message_heading message indent ;;
  print_message_id message indent ;;
  print_message_cycle_time message indent vfs ;;
  print_message_autosar message indent print_format_specifics ;;
  print_message_signal_tree message indent ;;
  match Message.contained_messages message with
  | Some contained_messages =>
      print (indent +:+ "  Potentially contained messages:") ;;
      print "" ;;
      for_each (print_contained_name indent) contained_messages ;;
      print "" ;;
      print (indent +:+ "  Potentially contained message details:") ;;
      for_each (fun contained_message =>
                  _print_message contained_message "    " print_format_specifics "")
               contained_messages
  | None => mret ()
  end ;;
  when (truthy_list (Message.signals message))
       (print (indent +:+ "  Signal details:")).

(** The loop over the signals gets to the signal that follows [before]:
    nothing has raised before the loop, nor in the blocks of the signals
    of [before]. *)
Definition reaches (message : Message.t) (indent : string)
    (print_format_specifics : bool) (vfs : string) (before : list Signal.t) : Prop :=
  outcome (message_preamble message indent print_format_specifics vfs) = Ok ()
  /\ forall s, s ∈ before -> outcome (print_signal message indent vfs s) = Ok ().

End Reach.

(** ** The lines of the output *)

(** [print] writes its argument and a newline, so that the lines of the
    output are the lines of the arguments, in order. *)
Definition output_lines (out : stdout) : list string :=
  concat (map split_lines out).

(** A string without a newline. *)
Fixpoint single_line (s : string) : bool :=
  match s with
  | EmptyString => true
  | String c s' => negb (Ascii.eqb c "010"%char) && single_line s'
  end.

(** ** The sort of the signals in the conversion tests *)

(** [sorted(l, key=key)] for keys that are strings.  Python's sort is
    stable and compares the keys by [<] only: going from the last element
    to the first, each element is put after the elements of a smaller key
    and before all others. *)
Fixpoint insert_by {A : Type} (key : A -> string) (x : A) (l : list A) : list A :=
  match l with
  | [] => [x]
  | y :: l' =>
      if String.ltb (key y) (key x) then y :: insert_by key x l' else x :: l
  end.

Definition sorted_by {A : Type} (key : A -> string) (l : list A) : list A :=
  foldr (insert_by key) [] l.

(** [lambda signals: list(sorted(signals, key=lambda sig: sig.name))] *)
Definition sort_signals (signals : list Signal.t) : list Signal.t :=
  sorted_by Signal.name signals.

(** * The signal codec

    The codec itself (bit view, signal codec, multiplex resolver and
    message codec) is not part of the sources at hand; the definitions of
    this module follow sections 3 and 4 of the specification.  Numbers are
    exact rationals: the rounding of floating-point arithmetic is not
    modelled, and the reinterpretation of a bit pattern as an IEEE-754
    number is taken from outside. *)
Module Codec.

Inductive error : Type :=
| RangeError
| FrameLengthError
| OutOfRangeError
| InconsistentMultiplexError
| EncodeError.

Inductive res (A : Type) : Type :=
| Success (a : A)
| Failure (e : error).
Arguments Success {A} a.
Arguments Failure {A} e.

#[global] Instance res_ret : MRet res := fun A a => Success a.
#[global] Instance res_bind : MBind res := fun A B f r =>
  match r with
  | Success a => f a
  | Failure e => Failure e
  end.

(** [for x in l: acc = step acc x], stopping at the first failure. *)
Fixpoint foldM {A B : Type} (step : B -> A -> res B) (l : list A) (acc : B) : res B :=
  match l with
  | [] => Success acc
  | x :: l' => acc' ← step acc x; foldM step l' acc'
  end.

(** [[f x for x in l]], stopping at the first failure. *)
Fixpoint forM {A B : Type} (f : A -> res B) (l : list A) : res (list B) :=
  match l with
  | [] => Success []
  | x :: l' => y ← f x; ys ← forM f l'; Success (y :: ys)
  end.

(** Modelled from the spec: the tagged variant of section 9,
    [Value = Numeric | Named{raw, label}], and the symbolic invalid marker
    of section 4.2. *)
Inductive Value : Type :=
| Numeric (q : Qc)
| Named (raw : Z) (label : string)
| Invalid.

(** Modelled from the spec: the attributes of a signal (section 3). *)
Record Signal : Type := mkSignal {
  name : string;
  start : Z;
  length : Z;
  byte_order : ByteOrder;
  is_signed : bool;
  is_float : bool;
  scale : Qc;
  offset : Qc;
  minimum : option Qc;
  maximum : option Qc;
  unit : string;
  choices : list (Z * string);
  initial : option Qc;
  invalid : option Z;
  is_multiplexer : bool;
  multiplexer_signal : option string;
  multiplexer_ids : list Z
}.

(** Modelled from the spec: the attributes of a message the codec reads
    (section 3). *)
Record Message : Type := mkMessage {
  message_name : string;
  message_length : Z;
  signals : list Signal
}.

(** ** BitView (section 4.1) *)

(** A payload: one integer in [0, 255] per byte. *)
Abbreviation buffer := (list Z).

(** Modelled from the spec: the byte buffer of BitView, absent from the
    sources.  Bit [p] counts from bit 0 of byte 0: it is bit [p mod 8] of
    byte [p / 8]; a bit outside the buffer is a [RangeError]. *)
Definition get_bit (buf : buffer) (p : Z) : res bool :=
  if p <? 0 then Failure RangeError
  else match buf !! Z.to_nat (p / 8) with
       | Some byte => Success (Z.testbit byte (p mod 8))
       | None => Failure RangeError
       end.

Definition set_bit (buf : buffer) (p : Z) (v : bool) : res buffer :=
  if p <? 0 then Failure RangeError
  else match buf !! Z.to_nat (p / 8) with
       | Some byte =>
           Success (<[Z.to_nat (p / 8) :=
                        if v then Z.setbit byte (p mod 8)
                        else Z.clearbit byte (p mod 8)]> buf)
       | None => Failure RangeError
       end.

(** Modelled from the spec: big-endian numbering, where the bit index
    decreases by 1 until a byte boundary, then wraps to bit 7 of the next
    byte forward. *)
Definition be_next (p : Z) : Z :=
  if p mod 8 =? 0 then p + 15 else p - 1.

(** [n] bits from [p] on, each followed by its [next]. *)
Fixpoint walk (next : Z -> Z) (n : nat) (p : Z) : list Z :=
  match n with
  | O => []
  | S n' => p :: walk next n' (next p)
  end.

(** Modelled from the spec: the bit-address sequence of a field, here
    least significant bit first.  Little-endian: [start] is the least
    significant bit and the field extends toward higher bit indices.
    Big-endian: [start] is the most significant bit and the field extends
    along [be_next]. *)
Definition bit_addresses (start length : Z) (byte_order : ByteOrder) : list Z :=
  match byte_order with
  | little_endian => walk Z.succ (Z.to_nat length) start
  | big_endian => rev (walk be_next (Z.to_nat length) start)
  end.

(** The unsigned integer spelled by bits, least significant first. *)
Fixpoint bits_value (bits : list bool) : Z :=
  match bits with
  | [] => 0
  | b :: bits' => Z.b2z b + 2 * bits_value bits'
  end.

Definition read_bits (buf : buffer) (addresses : list Z) : res Z :=
  bits ← forM (get_bit buf) addresses;
  Success (bits_value bits).

(** Writes the low bits of [value], least significant first. *)
Fixpoint write_bits (buf : buffer) (addresses : list Z) (value : Z) : res buffer :=
  match addresses with
  | [] => Success buf
  | p :: addresses' =>
      buf' ← set_bit buf p (Z.testbit value 0);
      write_bits buf' addresses' (Z.shiftr value 1)
  end.

(** Modelled from the spec: [BitView.extract] and [BitView.insert]
    (section 4.1), absent from the sources: [extract] reads [length] bits
    beginning at [start] as an unsigned integer, [insert] writes the
    [length] low bits of [value] and fails with a [RangeError] when an
    addressed bit lies outside the buffer. *)
Definition extract (buf : buffer) (start length : Z) (byte_order : ByteOrder)
  : res Z :=
  read_bits buf (bit_addresses start length byte_order).

Definition insert (buf : buffer) (start length : Z) (byte_order : ByteOrder)
    (value : Z) : res buffer :=
  write_bits buf (bit_addresses start length byte_order) value.

(** ** SignalCodec (section 4.2) *)

(** What the codec takes from outside this file: the reinterpretation of
    a 32- or 64-bit pattern as an IEEE-754 number and back, by the length
    of the signal. *)
Class IEEE : Type := {
  float_of_bits : Z -> Z -> Qc;
  bits_of_float : Z -> Qc -> Z
}.

Definition Z2Qc (z : Z) : Qc := Q2Qc (inject_Z z).

(** The nearest integer, a tie going to the even one. *)
Definition round (q : Qc) : Z :=
  let f := Qfloor q in
  match Qcompare (2 * (q - inject_Z f)) 1 with
  | Lt => f
  | Gt => f + 1
  | Eq => if Z.even f then f else f + 1
  end.

Definition Qc_ltb (a b : Qc) : bool :=
  match Qccompare a b with
  | Lt => true
  | _ => false
  end.

(** Modelled from the spec: step 1 of [decode_raw], the [length]-bit
    pattern of a signed signal that is no float read as two's complement. *)
Definition reinterpret (signal : Signal) (raw : Z) : Z :=
  if is_signed signal && negb (is_float signal)
  then if 2 ^ (length signal - 1) <=? raw then raw - 2 ^ length signal else raw
  else raw.

(** Modelled from the spec: step 5 of [decode_raw], physical value =
    raw * scale + offset, skipped where scale is 1 and offset is 0. *)
Definition scaled (signal : Signal) (x : Qc) : Qc :=
  if decide (scale signal = 1%Qc /\ offset signal = 0%Qc)
  then x
  else (x * scale signal + offset signal)%Qc.

Section SignalCodec.
Context `{!IEEE}.

(** Modelled from the spec: [SignalCodec.decode_raw] (section 4.2), absent
    from the sources, with the two toggles of [MessageCodec.decode]: the
    reinterpretation of the raw pattern, the invalid marker, and the named
    choice of the integer before scaling, which takes precedence over the
    scaled number. *)
Definition decode_raw (signal : Signal) (raw : Z)
    (decode_choices scaling : bool) : Value :=
  if is_float signal
  then
    let x := float_of_bits (length signal) raw in
    if bool_decide (Z2Qc <$> invalid signal = Some x) then Invalid
    else Numeric (if scaling then scaled signal x else x)
  else
    let i := reinterpret signal raw in
    if bool_decide (invalid signal = Some i) then Invalid
    else
      match (if decode_choices then dict_get (choices signal) i else None) with
      | Some label => Named i label
      | None => Numeric (if scaling then scaled signal (Z2Qc i) else Z2Qc i)
      end.

(** Modelled from the spec: the bounds check of [encode_physical], which
    fails with an [OutOfRangeError] in strict mode and clamps to the
    nearest bound otherwise. *)
Definition check_bounds (signal : Signal) (q : Qc) (strict : bool) : res Qc :=
  match minimum signal, maximum signal with
  | Some lo, _ =>
      if Qc_ltb q lo
      then if strict then Failure OutOfRangeError else Success lo
      else match maximum signal with
           | Some hi =>
               if Qc_ltb hi q
               then if strict then Failure OutOfRangeError else Success hi
               else Success q
           | None => Success q
           end
  | None, Some hi =>
      if Qc_ltb hi q
      then if strict then Failure OutOfRangeError else Success hi
      else Success q
  | None, None => Success q
  end.

(** The key of the first choice bearing [label]. *)
Fixpoint choice_key (choices : list (Z * string)) (label : string) : option Z :=
  match choices with
  | [] => None
  | (k, l) :: choices' => if decide (l = label) then Some k else choice_key choices' label
  end.

(** Modelled from the spec: [SignalCodec.encode_physical] (section 4.2),
    absent from the sources: the key of the choice a named value matches,
    else the rounded (value - offset) / scale, or the bit pattern for a
    float signal; the result masked to [length] bits. *)
Definition encode_physical (signal : Signal) (value : Value) (strict : bool)
  : res Z :=
  match value with
  | Named _ label =>
      match choice_key (choices signal) label with
      | Some k => Success (k mod 2 ^ length signal)
      | None => Failure EncodeError
      end
  | Numeric q =>
      q' ← check_bounds signal q strict;
      let x := ((q' - offset signal) / scale signal)%Qc in
      let raw := if is_float signal then bits_of_float (length signal) x else round x in
      Success (raw mod 2 ^ length signal)
  | Invalid => Failure EncodeError
  end.

(** ** MultiplexResolver (section 4.3) *)

Definition find_signal (message : Message) (name : string) : option Signal :=
  find (fun s => String.eqb (Codec.name s) name) (signals message).

(** Modelled from the spec: step 2 of the MultiplexResolver, absent from
    the sources.  The observed raw value of the selector is a member of
    [multiplexer_ids], and so on for every selector up the constraint
    chain of the signal; the chain is followed for at most [fuel]
    selectors. *)
Fixpoint chain_holds (message : Message) (observed : gmap string Z) (fuel : nat)
    (signal : Signal) : bool :=
  match multiplexer_signal signal with
  | None => true
  | Some selector =>
      match fuel with
      | O => false
      | S fuel' =>
          match observed !! selector, find_signal message selector with
          | Some raw, Some selector_signal =>
              bool_decide (raw ∈ multiplexer_ids signal)
              && chain_holds message observed fuel' selector_signal
          | _, _ => false
          end
      end
  end.

(** Modelled from the spec: steps 1 and 2 of the MultiplexResolver
    (section 4.3).  Signals without a selector and selectors themselves
    are always present; any other signal is present when its whole
    constraint chain holds. *)
Definition selected (message : Message) (observed : gmap string Z)
    (signal : Signal) : bool :=
  match multiplexer_signal signal with
  | None => true
  | Some _ =>
      is_multiplexer signal
      || chain_holds message observed (List.length (signals message)) signal
  end.

(** ** MessageCodec (section 4.4) *)

(** Modelled from the spec: the state of the MultiplexResolver on decode,
    the raw value observed for each selector of the message. *)
Definition observed_selection (message : Message) (buf : buffer)
  : res (gmap string Z) :=
  foldM (fun observed signal =>
           if is_multiplexer signal
           then
             raw ← extract buf (start signal) (length signal) (byte_order signal);
             Success (<[name signal := reinterpret signal raw]> observed)
           else Success observed)
        (signals message) ∅.

(** Modelled from the spec: [MessageCodec.decode] (section 4.4), absent
    from the sources.  The payload has the length of the message, or is
    shorter and zero-padded where truncated frames are allowed; every
    selected signal is extracted and decoded into the mapping. *)
Definition decode (message : Message) (payload : buffer)
    (allow_truncated decode_choices scaling : bool) : res (gmap string Value) :=
  buf ← (if decide (Z.of_nat (List.length payload) = message_length message)
         then Success payload
         else if allow_truncated
                 && (Z.of_nat (List.length payload) <? message_length message)
              then Success (payload
                            ++ replicate (Z.to_nat (message_length message)
                                          - List.length payload)%nat 0)
              else Failure FrameLengthError);
  observed ← observed_selection message buf;
  entries ← forM (fun signal =>
                    raw ← extract buf (start signal) (length signal)
                                  (byte_order signal);
                    Success (name signal,
                             decode_raw signal raw decode_choices scaling))
                 (List.filter (selected message observed) (signals message));
  Success (list_to_map entries).

(** Modelled from the spec: the value encoded for a selected signal, the
    supplied one, or in lenient mode its initial value; a missing value is
    an [EncodeError]. *)
Definition supplied (values : gmap string Value) (strict : bool) (signal : Signal)
  : res Value :=
  match values !! name signal with
  | Some v => Success v
  | None =>
      if strict then Failure EncodeError
      else match initial signal with
           | Some q => Success (Numeric q)
           | None => Failure EncodeError
           end
  end.

(** Modelled from the spec: the selection on encode, the raw selector
    values the supplied values stand for. *)
Definition supplied_selection (message : Message) (values : gmap string Value)
    (strict : bool) : res (gmap string Z) :=
  foldM (fun observed signal =>
           if is_multiplexer signal
           then
             v ← supplied values strict signal;
             raw ← encode_physical signal v strict;
             Success (<[name signal := reinterpret signal raw]> observed)
           else Success observed)
        (signals message) ∅.

(** Modelled from the spec: [MessageCodec.encode] (section 4.4), absent
    from the sources.  A zero-initialized buffer of the length of the
    message receives every selected signal.  Keys of [values] that name no
    selected signal are ignored, as sections 4.4 and 7 have it (section
    4.3 names an [InconsistentMultiplexError] for them instead). *)
Definition encode (message : Message) (values : gmap string Value) (strict : bool)
  : res buffer :=
  observed ← supplied_selection message values strict;
  raws ← forM (fun signal =>
                 v ← supplied values strict signal;
                 raw ← encode_physical signal v strict;
                 Success (signal, raw))
              (List.filter (selected message observed) (signals message));
  foldM (fun buf '(signal, raw) =>
           insert buf (start signal) (length signal) (byte_order signal) raw)
        raws (replicate (Z.to_nat (message_length message)) 0).

End SignalCodec.

(** ** The messages and values of the round trip *)

(** The bits a signal occupies. *)
Definition addresses (signal : Signal) : list Z :=
  bit_addresses (start signal) (length signal) (byte_order signal).

(** The integers a signal of its length and signedness can hold. *)
Definition in_range (signal : Signal) (i : Z) : Prop :=
  if is_signed signal
  then - 2 ^ (length signal - 1) <= i < 2 ^ (length signal - 1)
  else 0 <= i < 2 ^ length signal.

Definition within_bounds (signal : Signal) (q : Qc) : Prop :=
  (forall lo, minimum signal = Some lo -> (lo <= q)%Qc)
  /\ (forall hi, maximum signal = Some hi -> (q <= hi)%Qc).

Section Representable.
Context `{!IEEE}.

(** [kept signal x]: the number the format of a float signal keeps of
    [x]: [x] turned into a bit pattern, cut to the length of the signal
    and read back. *)
Definition kept (signal : Signal) (x : Qc) : Qc :=
  float_of_bits (length signal)
                (bits_of_float (length signal) x mod 2 ^ length signal).

(** [exact_float signal x]: the format of the signal holds the number [x]
    exactly. *)
Definition exact_float (signal : Signal) (x : Qc) : Prop :=
  kept signal x = x.

(** [representable signal v]: [v] is a value the signal takes, other than
    its invalid sentinel.  For an integer signal, what it shows for an
    integer [i] in its range: the choice of [i], whose label names no
    earlier choice, or else the scaled [i].  For a float signal, a number
    [x], scaled, that the format does not keep as the invalid sentinel;
    the format may round [x].  A number lies within the bounds of the
    signal. *)
Definition representable (signal : Signal) (v : Value) : Prop :=
  1 <= length signal
  /\ if is_float signal
     then
       exists x,
         Z2Qc <$> invalid signal <> Some (kept signal x)
         /\ scale signal <> 0%Qc
         /\ v = Numeric (scaled signal x)
         /\ within_bounds signal (scaled signal x)
     else
       exists i,
         in_range signal i /\ invalid signal <> Some i
         /\ match v with
            | Numeric q =>
                dict_get (choices signal) i = None
                /\ scale signal <> 0%Qc
                /\ q = scaled signal (Z2Qc i)
                /\ within_bounds signal q
            | Named raw label =>
                raw = i
                /\ dict_get (choices signal) i = Some label
                /\ choice_key (choices signal) label = Some i
            | Invalid => False
            end.

(** [returned signal v]: what the signal gives back of [v]: the value
    itself for an integer signal, and for a float signal the number whose
    pre-scale part is the one the format keeps. *)
Definition returned (signal : Signal) (v : Value) : Value :=
  if is_float signal
  then match v with
       | Numeric q =>
           Numeric (scaled signal
                           (kept signal ((q - offset signal) / scale signal)%Qc))
       | _ => v
       end
  else v.

End Representable.

End Codec.

(** * Sample database

    A small database on which the functions are run: an engine message
    with a selector and a multiplexed signal, a gear message whose only
    signal is flagged as a selector that selects nothing, and externals
    that format integers and text with the empty format specifier. *)

Definition sample_format (v : pyval) (spec : string) : result string :=
  match spec, v with
  | EmptyString, VInt z => Ok (str_int z)
  | EmptyString, VStr s => Ok s
  | EmptyString, VNamed n => Ok (nsv_name n)
  | _, _ => Raise ValueError
  end.

Definition sample_externals : Externals :=
  {| py_format := sample_format;
     signal_tree_string := fun _ _ => "" |}.

Definition sample_signal (name : string) : Signal.t :=
  {| Signal.name := name;
     Signal.start := 0;
     Signal.length := 8;
     Signal.byte_order := little_endian;
     Signal.is_signed := Some false;
     Signal.is_float := false;
     Signal.initial := None;
     Signal.invalid := None;
     Signal.scale := Some (NInt 1);
     Signal.offset := Some (NInt 0);
     Signal.minimum := None;
     Signal.maximum := None;
     Signal.unit := None;
     Signal.choices := None;
     Signal.comments := None;
     Signal.receivers := [];
     Signal.is_multiplexer := false;
     Signal.multiplexer_ids := None;
     Signal.multiplexer_signal := None |}.

Definition signal_mux : Signal.t :=
  {| Signal.name := "Mux";
     Signal.start := 0;
     Signal.length := 4;
     Signal.byte_order := little_endian;
     Signal.is_signed := Some false;
     Signal.is_float := false;
     Signal.initial := None;
     Signal.invalid := None;
     Signal.scale := Some (NInt 1);
     Signal.offset := Some (NInt 0);
     Signal.minimum := None;
     Signal.maximum := None;
     Signal.unit := None;
     Signal.choices :=
       Some [(0, CStr "Off"); (1, CNamed (mkNamedSignalValue 1 "On" []))];
     Signal.comments := None;
     Signal.receivers := [];
     Signal.is_multiplexer := true;
     Signal.multiplexer_ids := None;
     Signal.multiplexer_signal := None |}.

Definition signal_speed : Signal.t :=
  {| Signal.name := "Speed";
     Signal.start := 8;
     Signal.length := 16;
     Signal.byte_order := little_endian;
     Signal.is_signed := Some false;
     Signal.is_float := false;
     Signal.initial := None;
     Signal.invalid := None;
     Signal.scale := Some (NInt 2);
     Signal.offset := None;
     Signal.minimum := None;
     Signal.maximum := Some (NInt 300);
     Signal.unit := Some "km/h";
     Signal.choices := None;
     Signal.comments := None;
     Signal.receivers := ["Dash"; "Abs"];
     Signal.is_multiplexer := false;
     Signal.multiplexer_ids := Some [0; 1; 7];
     Signal.multiplexer_signal := Some "Mux" |}.

Definition signal_mode : Signal.t :=
  {| Signal.name := "Mode";
     Signal.start := 0;
     Signal.length := 2;
     Signal.byte_order := big_endian;
     Signal.is_signed := Some false;
     Signal.is_float := false;
     Signal.initial := None;
     Signal.invalid := None;
     Signal.scale := Some (NInt 1);
     Signal.offset := Some (NInt 0);
     Signal.minimum := None;
     Signal.maximum := None;
     Signal.unit := None;
     Signal.choices := None;
     Signal.comments := None;
     Signal.receivers := [];
     Signal.is_multiplexer := true;
     Signal.multiplexer_ids := None;
     Signal.multiplexer_signal := None |}.

Definition sample_message (name : string) (frame_id : Z) (extended : bool)
    (signals : list Signal.t) : Message.t :=
  {| Message.name := Some name;
     Message.frame_id := frame_id;
     Message.header_id := None;
     Message.is_extended_frame := extended;
     Message.is_fd := false;
     Message.is_container := false;
     Message.length := 8;
     Message.cycle_time := None;
     Message.bus_name := None;
     Message.senders := [];
     Message.comments := None;
     Message.autosar := None;
     Message.signals := signals;
     Message.contained_messages := None |}.

Definition message_engine : Message.t :=
  sample_message "Engine" 256 false [signal_mux; signal_speed].

Definition message_gear : Message.t :=
  sample_message "Gear" 419365120 true [signal_mode].

(** A container of ten bytes at most, with one message it may contain. *)
Definition message_part : Message.t :=
  {| Message.name := Some "Part";
     Message.frame_id := 0;
     Message.header_id := Some 171;
     Message.is_extended_frame := false;
     Message.is_fd := true;
     Message.is_container := false;
     Message.length := 2;
     Message.cycle_time := None;
     Message.bus_name := None;
     Message.senders := [];
     Message.comments := None;
     Message.autosar := None;
     Message.signals := [];
     Message.contained_messages := None |}.

Definition message_box : Message.t :=
  {| Message.name := Some "Box";
     Message.frame_id := 512;
     Message.header_id := None;
     Message.is_extended_frame := false;
     Message.is_fd := true;
     Message.is_container := true;
     Message.length := 10;
     Message.cycle_time := Some 100;
     Message.bus_name := Some "Body";
     Message.senders := ["Gateway"; "Door"];
     Message.comments := Some [(None, "All parts")];
     Message.autosar := None;
     Message.signals := [];
     Message.contained_messages := Some [message_part] |}.

Definition sample_db : Database.t :=
  {| Database.messages := [message_gear; message_engine] |}.

Definition sample_args (items : list string) : Args.t :=
  {| Args.items := items;
     Args.print_all := false;
     Args.exclude_extended := false;
     Args.exclude_normal := false;
     Args.skip_format_specifics := false |}.

(** Two buses, two nodes and the command line of [_do_list]. *)
Definition bus_body : Bus.t :=
  {| Bus.name := "Body";
     Bus.comments := Some [(None, "Doors and lights")];
     Bus.baudrate := Some 500000;
     Bus.fd_baudrate := Some 2000000 |}.

Definition bus_chassis : Bus.t :=
  {| Bus.name := "Chassis";
     Bus.comments := None;
     Bus.baudrate := Some 250000;
     Bus.fd_baudrate := None |}.

Definition node_dash : Node.t :=
  {| Node.name := "Dash"; Node.comments := Some [(Some "EN", "Dashboard")] |}.

Definition node_abs : Node.t :=
  {| Node.name := "Abs"; Node.comments := None |}.

Definition sample_can_db : CanDb.t :=
  {| CanDb.database := sample_db;
     CanDb.buses := [bus_body; bus_chassis];
     CanDb.nodes := [node_dash; node_abs] |}.

(** A loader that knows two files. *)
Definition sample_loader : Loader :=
  {| load_file := fun name _ _ =>
       if String.eqb name "sample.dbc" then Ok (CanDatabase sample_can_db)
       else if String.eqb name "sample.cdd" then Ok DiagnosticsDatabase
       else Raise ValueError |}.

Definition sample_command (file : string) (buses nodes : bool) (items : list string)
  : Command.t :=
  {| Command.input_file_name := file;
     Command.prune := false;
     Command.no_strict := false;
     Command.print_buses := buses;
     Command.print_nodes := nodes;
     Command.args := sample_args items |}.

(** Externals that render every value, floats by a fixed word. *)
Definition plain_externals : Externals :=
  {| py_format := fun v _ =>
       Ok match v with
          | VInt z => str_int z
          | VStr s => s
          | VNamed n => nsv_name n
          | VFloat _ => "float"
          end;
     signal_tree_string := fun _ _ => "" |}.

(** A signal whose selector is not a signal of its message. *)
Definition signal_orphan : Signal.t :=
  {| Signal.name := "Orphan";
     Signal.start := 0;
     Signal.length := 8;
     Signal.byte_order := little_endian;
     Signal.is_signed := Some false;
     Signal.is_float := false;
     Signal.initial := None;
     Signal.invalid := None;
     Signal.scale := None;
     Signal.offset := None;
     Signal.minimum := None;
     Signal.maximum := None;
     Signal.unit := None;
     Signal.choices := None;
     Signal.comments := None;
     Signal.receivers := [];
     Signal.is_multiplexer := false;
     Signal.multiplexer_ids := Some [1];
     Signal.multiplexer_signal := Some "Gone" |}.

Definition message_orphan : Message.t :=
  sample_message "Lost" 7 false [signal_orphan].

(** A database with a message that cannot be listed, and a command line
    that asks for every message. *)
Definition orphan_db : Database.t :=
  {| Database.messages := [message_engine; message_orphan; message_gear] |}.

Definition sample_args_all (items : list string) : Args.t :=
  {| Args.items := items;
     Args.print_all := true;
     Args.exclude_extended := false;
     Args.exclude_normal := false;
     Args.skip_format_specifics := false |}.

Definition sample_args_filtered (items : list string) : Args.t :=
  {| Args.items := items;
     Args.print_all := false;
     Args.exclude_extended := true;
     Args.exclude_normal := true;
     Args.skip_format_specifics := false |}.

(** A signal with a scale and an offset whose selector is not a signal of
    its message; a message that holds it alone, and one that holds it
    after two signals that list. *)
Definition signal_adrift : Signal.t :=
  {| Signal.name := "Adrift";
     Signal.start := 24;
     Signal.length := 8;
     Signal.byte_order := little_endian;
     Signal.is_signed := Some false;
     Signal.is_float := false;
     Signal.initial := None;
     Signal.invalid := None;
     Signal.scale := Some (NInt 2);
     Signal.offset := Some (NInt 40);
     Signal.minimum := None;
     Signal.maximum := None;
     Signal.unit := None;
     Signal.choices := None;
     Signal.comments := None;
     Signal.receivers := [];
     Signal.is_multiplexer := false;
     Signal.multiplexer_ids := Some [1];
     Signal.multiplexer_signal := Some "Gone" |}.

Definition message_adrift : Message.t :=
  sample_message "Adrift" 8 false [signal_adrift].

Definition message_half : Message.t :=
  sample_message "Half" 9 false [signal_mux; signal_speed; signal_adrift].

(** A bus that is no CAN-FD one, with a comment of two lines. *)
Definition bus_two_lines : Bus.t :=
  {| Bus.name := "Trick";
     Bus.comments :=
       Some [(None, "first line" +:+ String "010"%char "  CAN-FD enabled: True")];
     Bus.baudrate := None;
     Bus.fd_baudrate := None |}.

(** * Sample messages of the codec *)

Module CodecSamples.
Import Codec.

(** Where no float signal occurs the reinterpretation of IEEE bit
    patterns is left trivial. *)
Definition no_floats : IEEE :=
  {| float_of_bits := fun _ _ => 0%Qc;
     bits_of_float := fun _ _ => 0 |}.

Definition plain_signal (name : string) (start length : Z) (byte_order : ByteOrder)
    (is_signed : bool) : Signal :=
  {| name := name;
     start := start;
     length := length;
     byte_order := byte_order;
     is_signed := is_signed;
     is_float := false;
     scale := 1%Qc;
     offset := 0%Qc;
     minimum := None;
     maximum := None;
     unit := "";
     choices := [];
     initial := None;
     invalid := None;
     is_multiplexer := false;
     multiplexer_signal := None;
     multiplexer_ids := [] |}.

(** One unsigned byte, unscaled and without bounds. *)
Definition byte_message : Message :=
  {| message_name := "Byte";
     message_length := 1;
     signals := [plain_signal "a" 0 8 little_endian false] |}.

(** A selector and two alternatives sharing a byte, one of them scaled by
    a tenth from 40, and a big-endian signal with a choice. *)
Definition signal_selector : Signal :=
  {| name := "Mux";
     start := 0;
     length := 4;
     byte_order := little_endian;
     is_signed := false;
     is_float := false;
     scale := 1%Qc;
     offset := 0%Qc;
     minimum := None;
     maximum := None;
     unit := "";
     choices := [];
     initial := None;
     invalid := None;
     is_multiplexer := true;
     multiplexer_signal := None;
     multiplexer_ids := [] |}.

Definition signal_temperature : Signal :=
  {| name := "Temperature";
     start := 8;
     length := 8;
     byte_order := little_endian;
     is_signed := true;
     is_float := false;
     scale := Q2Qc (1 # 10);
     offset := Z2Qc 40;
     minimum := Some (Z2Qc 0);
     maximum := Some (Z2Qc 100);
     unit := "degC";
     choices := [];
     initial := None;
     invalid := None;
     is_multiplexer := false;
     multiplexer_signal := Some "Mux";
     multiplexer_ids := [1] |}.

Definition signal_pressure : Signal :=
  {| name := "Pressure";
     start := 8;
     length := 8;
     byte_order := little_endian;
     is_signed := false;
     is_float := false;
     scale := 1%Qc;
     offset := 0%Qc;
     minimum := None;
     maximum := None;
     unit := "kPa";
     choices := [];
     initial := None;
     invalid := None;
     is_multiplexer := false;
     multiplexer_signal := Some "Mux";
     multiplexer_ids := [2] |}.

Definition signal_state : Signal :=
  {| name := "State";
     start := 23;
     length := 16;
     byte_order := big_endian;
     is_signed := false;
     is_float := false;
     scale := Z2Qc 5;
     offset := 0%Qc;
     minimum := None;
     maximum := None;
     unit := "";
     choices := [(2, "Error")];
     initial := None;
     invalid := None;
     is_multiplexer := false;
     multiplexer_signal := None;
     multiplexer_ids := [] |}.

Definition mux_message : Message :=
  {| message_name := "Mux";
     message_length := 4;
     signals := [signal_selector; signal_temperature; signal_pressure; signal_state] |}.

(** Two unconditional bytes that share four bits. *)
Definition overlap_message : Message :=
  {| message_name := "Overlap";
     message_length := 2;
     signals := [plain_signal "a" 0 8 little_endian false;
                 plain_signal "b" 4 8 little_endian false] |}.

Definition mux_values : gmap string Value :=
  {[ "Mux" := Numeric (Z2Qc 1);
     "Temperature" := Numeric (Z2Qc 50);
     "State" := Named 2 "Error" ]}.

(** IEEE-754 binary32 and binary64 over the rationals, for the witness of
    the round trip: the finite patterns read as the numbers they stand
    for, and a number is turned into the pattern of the nearest number of
    the format, a tie going to the even mantissa.  Infinities and NaNs
    are no rationals; their patterns read as 0. *)
Definition ieee_widths (len : Z) : Z * Z :=
  if len =? 32 then (8, 23) else (11, 52).

Definition pow2 (e : Z) : Qc :=
  if 0 <=? e then Z2Qc (2 ^ e) else (/ Z2Qc (2 ^ (- e)))%Qc.

Definition ieee_float_of_bits (len raw : Z) : Qc :=
  let '(ebits, mbits) := ieee_widths len in
  let bias := 2 ^ (ebits - 1) - 1 in
  let m := raw mod 2 ^ mbits in
  let e := (raw / 2 ^ mbits) mod 2 ^ ebits in
  let sign := if Z.testbit raw (len - 1) then -1 else 1 in
  if e =? 2 ^ ebits - 1 then 0%Qc
  else if e =? 0 then (Z2Qc (sign * m) * pow2 (1 - bias - mbits))%Qc
  else (Z2Qc (sign * (2 ^ mbits + m)) * pow2 (e - bias - mbits))%Qc.

Definition ieee_bits_of_float (len : Z) (x : Qc) : Z :=
  let '(ebits, mbits) := ieee_widths len in
  let bias := 2 ^ (ebits - 1) - 1 in
  let sign := if Qc_ltb x 0 then 2 ^ (len - 1) else 0 in
  let a := if Qc_ltb x 0 then (- x)%Qc else x in
  if Qnum a =? 0 then sign
  else
    let e0 := Z.log2 (Qnum a) - Z.log2 (Z.pos (Qden a)) in
    let e1 := if Qc_ltb a (pow2 e0) then e0 - 1 else e0 in
    let e2 := Z.max e1 (1 - bias) in
    let m := round (a / pow2 (e2 - mbits))%Qc in
    let e3 := if m =? 2 ^ (mbits + 1) then e2 + 1 else e2 in
    let m3 := if m =? 2 ^ (mbits + 1) then 2 ^ mbits else m in
    if bias <? e3 then sign + (2 ^ ebits - 1) * 2 ^ mbits
    else if m3 <? 2 ^ mbits then sign + m3
    else sign + (e3 + bias) * 2 ^ mbits + (m3 - 2 ^ mbits).

Definition ieee754 : IEEE :=
  {| float_of_bits := ieee_float_of_bits;
     bits_of_float := ieee_bits_of_float |}.

(** A binary32 signal in the upper four bytes of a frame of eight, and
    the multiplexed message with it. *)
Definition signal_ratio : Signal :=
  {| name := "Ratio";
     start := 32;
     length := 32;
     byte_order := little_endian;
     is_signed := false;
     is_float := true;
     scale := 1%Qc;
     offset := 0%Qc;
     minimum := None;
     maximum := None;
     unit := "";
     choices := [];
     initial := None;
     invalid := None;
     is_multiplexer := false;
     multiplexer_signal := None;
     multiplexer_ids := [] |}.

Definition mux_float_message : Message :=
  {| message_name := "MuxFloat";
     message_length := 8;
     signals := [signal_selector; signal_temperature; signal_pressure; signal_state;
                 signal_ratio] |}.

Definition mux_float_values : gmap string Value :=
  {[ "Mux" := Numeric (Z2Qc 1);
     "Temperature" := Numeric (Z2Qc 50);
     "State" := Named 2 "Error";
     "Ratio" := Numeric (Q2Qc (1 # 10)) ]}.

End CodecSamples.

(** * Properties of the listing *)

(** ** Computations that only append to the output *)

Lemma prints_appends (m : IO ()) ls : prints m ls -> appends m.
Proof.
  intros Hm out. unfold printed, outcome. rewrite (Hm []), (Hm out). reflexivity.
Qed.

Lemma prints_printed (m : IO ()) ls : prints m ls -> printed m = ls.
Proof. intros Hm. unfold printed. rewrite (Hm []). reflexivity. Qed.

Lemma prints_outcome (m : IO ()) ls : prints m ls -> outcome m = Ok ().
Proof. intros Hm. unfold outcome. rewrite (Hm []). reflexivity. Qed.

Lemma appends_prints (m : IO ()) :
  appends m -> outcome m = Ok () -> prints m (printed m).
Proof. intros Hm Hok out. rewrite (Hm out), Hok. reflexivity. Qed.

Lemma prints_ret : prints (mret ()) [].
Proof. intros out. unfold mret, IO_ret. rewrite app_nil_r. reflexivity. Qed.

Lemma prints_print s : prints (print s) [s].
Proof. intros out. reflexivity. Qed.

Lemma prints_bind (m : IO ()) (k : () -> IO ()) l1 l2 :
  prints m l1 -> prints (k ()) l2 -> prints (m ≫= k) (l1 ++ l2).
Proof.
  intros H1 H2 out. unfold mbind, IO_bind. rewrite (H1 out), (H2 (out ++ l1)).
  rewrite app_assoc. reflexivity.
Qed.

Lemma prints_when b (m : IO ()) l :
  prints m l -> prints (when b m) (if b then l else []).
Proof. intros Hm. destruct b; [exact Hm | apply prints_ret]. Qed.

Lemma prints_for_each {A : Type} (body : A -> IO ()) (lines : A -> list string) l :
  (forall x, x ∈ l -> prints (body x) (lines x)) ->
  prints (for_each body l) (concat (map lines l)).
Proof.
  induction l as [|x l IH]; intros Hbody.
  - apply prints_ret.
  - simpl. apply prints_bind.
    + apply Hbody. left.
    + apply IH. intros y Hy. apply Hbody. right. exact Hy.
Qed.

Lemma appends_ret {A : Type} (a : A) : appends (mret a : IO A).
Proof. intros out. unfold printed, outcome, mret, IO_ret. simpl. rewrite app_nil_r. reflexivity. Qed.

Lemma appends_lift {A : Type} (r : result A) : appends (lift r).
Proof. intros out. unfold printed, outcome, lift. simpl. rewrite app_nil_r. reflexivity. Qed.

Lemma appends_print s : appends (print s).
Proof. exact (prints_appends _ _ (prints_print s)). Qed.

(** What a sequence prints and how it ends, from its two parts. *)
Lemma printed_bind {A B : Type} (m : IO A) (k : A -> IO B) :
  appends m -> (forall a, appends (k a)) ->
  printed (m ≫= k)
  = printed m ++ match outcome m with Ok a => printed (k a) | Raise _ => [] end.
Proof.
  intros Hm Hk. unfold printed at 1, mbind, IO_bind.
  rewrite (Hm []). simpl. destruct (outcome m) as [a|e].
  - rewrite (Hk a (printed m)). reflexivity.
  - simpl. rewrite app_nil_r. reflexivity.
Qed.

Lemma outcome_bind {A B : Type} (m : IO A) (k : A -> IO B) :
  appends m -> (forall a, appends (k a)) ->
  outcome (m ≫= k)
  = match outcome m with Ok a => outcome (k a) | Raise e => Raise e end.
Proof.
  intros Hm Hk. unfold outcome at 1, mbind, IO_bind.
  rewrite (Hm []). simpl. destruct (outcome m) as [a|e].
  - rewrite (Hk a (printed m)). reflexivity.
  - reflexivity.
Qed.

Lemma appends_bind {A B : Type} (m : IO A) (k : A -> IO B) :
  appends m -> (forall a, appends (k a)) -> appends (m ≫= k).
Proof.
  intros Hm Hk out. rewrite printed_bind, outcome_bind by assumption.
  unfold mbind, IO_bind. rewrite (Hm out).
  destruct (outcome m) as [a|e].
  - rewrite (Hk a (out ++ printed m)), app_assoc. reflexivity.
  - rewrite app_nil_r. reflexivity.
Qed.

Lemma appends_when b (m : IO ()) : appends m -> appends (when b m).
Proof. intros Hm. destruct b; [exact Hm | apply appends_ret]. Qed.

Lemma appends_for_each {A : Type} (body : A -> IO ()) l :
  (forall x, x ∈ l -> appends (body x)) -> appends (for_each body l).
Proof.
  induction l as [|x l IH]; intros Hbody.
  - apply appends_ret.
  - simpl. apply appends_bind.
    + apply Hbody. left.
    + intros _. apply IH. intros y Hy. apply Hbody. right. exact Hy.
Qed.

(** A loop whose every round returns prints the rounds' lines in order. *)
Lemma for_each_all_ok {A : Type} (body : A -> IO ()) l :
  (forall x, x ∈ l -> appends (body x)) ->
  (forall x, x ∈ l -> outcome (body x) = Ok ()) ->
  prints (for_each body l) (concat (map (fun x => printed (body x)) l)).
Proof.
  intros Happ Hok. apply prints_for_each. intros x Hx.
  apply appends_prints; auto.
Qed.

(** Induction over a message and the messages it may contain. *)
Section MessageInduction.
Variable P : Message.t -> Prop.
Hypothesis step :
  forall m,
    (forall cms, Message.contained_messages m = Some cms -> Forall P cms) -> P m.

Fixpoint Message_nested_ind (m : Message.t) : P m :=
  step m
    (match m as m0
       return forall cms, Message.contained_messages m0 = Some cms -> Forall P cms
     with
     | Message.mk _ _ _ _ _ _ _ _ _ _ _ _ _ contained =>
         match contained as c return forall cms, c = Some cms -> Forall P cms with
         | Some l =>
             fun cms Heq =>
               eq_ind l (Forall P)
                 ((fix all (l : list Message.t) : Forall P l :=
                     match l with
                     | [] => @List.Forall_nil _ P
                     | x :: l' => @List.Forall_cons _ P x l' (Message_nested_ind x) (all l')
                     end) l)
                 cms (f_equal (fun o => match o with Some y => y | None => l end) Heq)
         | None => fun cms Heq => match Some_ne_None _ (eq_sym Heq) with end
         end
     end).
End MessageInduction.

Ltac appends_step :=
  match goal with
  | |- appends (mbind _ _) => apply appends_bind; [| intros ?]
  | |- appends (print _) => apply appends_print
  | |- appends (mret _) => apply appends_ret
  | |- appends (lift _) => apply appends_lift
  | |- appends (when _ _) => apply appends_when
  | |- appends (for_each _ _) => apply appends_for_each; intros ? ?
  | |- appends (match ?x with _ => _ end) => destruct x
  | |- appends (let _ := _ in _) => cbv zeta
  | |- forall _, appends _ => intros ?
  end.

Ltac appends_auto := repeat appends_step.

Section ListingFacts.
Context `{!Externals}.

Lemma appends_print_comments pre comments : appends (print_comments pre comments).
Proof. unfold print_comments. appends_auto. Qed.

Lemma appends_print_message_heading message indent :
  appends (print_message_heading message indent).
Proof. unfold print_message_heading, print_comments. appends_auto. Qed.

Lemma appends_print_message_id message indent :
  appends (print_message_id message indent).
Proof. unfold print_message_id. appends_auto. Qed.

Lemma appends_print_message_cycle_time message indent vfs :
  appends (print_message_cycle_time message indent vfs).
Proof. unfold print_message_cycle_time. appends_auto. Qed.

Lemma appends_print_message_autosar message indent pfs :
  appends (print_message_autosar message indent pfs).
Proof. unfold print_message_autosar. appends_auto. Qed.

Lemma appends_print_message_signal_tree message indent :
  appends (print_message_signal_tree message indent).
Proof. unfold print_message_signal_tree. appends_auto. Qed.

Lemma appends_print_contained_name indent cm :
  appends (print_contained_name indent cm).
Proof. unfold print_contained_name. appends_auto. Qed.

Lemma appends_print_signal_heading message indent signal :
  appends (print_signal_heading message indent signal).
Proof. unfold print_signal_heading, print_comments. appends_auto. Qed.

Lemma appends_print_signal_selector message indent signal :
  appends (print_signal_selector message indent signal).
Proof. unfold print_signal_selector. appends_auto. Qed.

Lemma appends_print_value pre label v unit vfs :
  appends (print_value pre label v unit vfs).
Proof. unfold print_value. appends_auto. Qed.

Lemma appends_print_signal_layout indent vfs signal :
  appends (print_signal_layout indent vfs signal).
Proof.
  unfold print_signal_layout.
  repeat first [ apply appends_print_value | appends_step ].
Qed.

Lemma appends_print_signal_scaling indent vfs signal :
  appends (print_signal_scaling indent vfs signal).
Proof. unfold print_signal_scaling. appends_auto. Qed.

Lemma appends_print_signal_choices indent signal :
  appends (print_signal_choices indent signal).
Proof. unfold print_signal_choices. appends_auto. Qed.

Lemma appends_print_signal message indent vfs signal :
  appends (print_signal message indent vfs signal).
Proof.
  unfold print_signal.
  repeat first
    [ apply appends_print_signal_heading | apply appends_print_signal_selector
    | apply appends_print_signal_layout | apply appends_print_signal_scaling
    | apply appends_print_signal_choices | appends_step ].
Qed.

(** One unfolding of [_print_message]. *)
Lemma _print_message_unfold message indent pfs vfs :
  _print_message message indent pfs vfs
  = (print_message_heading message indent ;;
     print_message_id message indent ;;
     print_message_cycle_time message indent vfs ;;
     print_message_autosar message indent pfs ;;
     print_message_signal_tree message indent ;;
     match Message.contained_messages message with
     | Some contained_messages =>
         print (indent +:+ "  Potentially contained messages:") ;;
         print "" ;;
         for_each (print_contained_name indent) contained_messages ;;
         print "" ;;
         print (indent +:+ "  Potentially contained message details:") ;;
         for_each (fun contained_message => _print_message contained_message "    " pfs "")
                  contained_messages
     | None => mret ()
     end ;;
     when (truthy_list (Message.signals message))
          (print (indent +:+ "  Signal details:")) ;;
     for_each (print_signal message indent vfs) (Message.signals message)).
Proof. destruct message. reflexivity. Qed.

Lemma appends__print_message message :
  forall indent pfs vfs, appends (_print_message message indent pfs vfs).
Proof.
  induction message as [message IH] using Message_nested_ind.
  intros indent pfs vfs. rewrite _print_message_unfold.
  apply appends_bind; [apply appends_print_message_heading | intros _].
  apply appends_bind; [apply appends_print_message_id | intros _].
  apply appends_bind; [apply appends_print_message_cycle_time | intros _].
  apply appends_bind; [apply appends_print_message_autosar | intros _].
  apply appends_bind; [apply appends_print_message_signal_tree | intros _].
  apply appends_bind.
  - destruct (Message.contained_messages message) as [cms|] eqn:Hc;
      [| apply appends_ret].
    specialize (IH cms eq_refl).
    repeat (apply appends_bind; [| intros _]);
      try apply appends_print.
    + apply appends_for_each. intros. apply appends_print_contained_name.
    + apply appends_for_each. intros cm Hcm.
      rewrite Forall_forall in IH. apply IH. exact Hcm.
  - intros _. apply appends_bind; [appends_auto | intros _].
    apply appends_for_each. intros. apply appends_print_signal.
Qed.

(** The heading of a message never raises. *)
Lemma prints_print_comments pre comments :
  prints (print_comments pre comments)
         (map (fun '(lang, text) =>
                 pre +:+ "Comment[" +:+ str_opt id lang +:+ "]: " +:+ text) comments).
Proof.
  unfold print_comments.
  induction comments as [|[lang text] comments IH].
  - apply prints_ret.
  - simpl. apply (prints_bind _ _ [_]); [apply prints_print | exact IH].
Qed.

Lemma print_message_heading_prints message indent :
  prints (print_message_heading message indent)
    ([indent +:+ str_opt id (Message.name message) +:+ ":"]
     ++ match Message.comments message with
        | Some comments =>
            map (fun '(lang, text) =>
                   (indent +:+ "  ") +:+ "Comment[" +:+ str_opt id lang +:+ "]: "
                   +:+ text) comments
        | None => []
        end
     ++ (if truthy_opt truthy_str (Message.bus_name message)
         then [indent +:+ "  Bus: " +:+ str_opt id (Message.bus_name message)]
         else [])
     ++ (if truthy_list (Message.senders message)
         then [indent +:+ "  Sending ECUs: "
               +:+ join ", " (sorted (Message.senders message))]
         else [])).
Proof.
  unfold print_message_heading.
  apply prints_bind; [apply prints_print |].
  apply prints_bind.
  { destruct (Message.comments message);
      [apply prints_print_comments | apply prints_ret]. }
  apply prints_bind; [apply prints_when, prints_print |].
  apply prints_when, prints_print.
Qed.

Lemma print_message_id_prints message indent :
  prints (print_message_id message indent)
    match Message.header_id message with
    | None =>
        [ indent +:+ "  Frame ID: 0x" +:+ hex_int (Message.frame_id message)
            +:+ " (" +:+ str_int (Message.frame_id message) +:+ ")";
          indent +:+ (if Message.is_container message
                      then "  Maximum Size: " else "  Size: ")
            +:+ str_int (Message.length message) +:+ " bytes";
          indent +:+ "  Is extended frame: "
            +:+ str_bool (Message.is_extended_frame message);
          indent +:+ "  Is CAN-FD frame: " +:+ str_bool (Message.is_fd message) ]
    | Some header_id =>
        [ indent +:+ "  Header ID: 0x" +:+ hex_int header_id
            +:+ " (" +:+ str_int header_id +:+ ")";
          indent +:+ "  Size: " +:+ str_int (Message.length message) +:+ " bytes" ]
    end.
Proof.
  unfold print_message_id. destruct (Message.header_id message) as [h|].
  - apply (prints_bind _ _ [_] [_]); apply prints_print.
  - apply (prints_bind _ _ [_] [_; _; _]); [apply prints_print |].
    apply (prints_bind _ _ [_] [_; _]).
    { destruct (Message.is_container message); apply prints_print. }
    apply (prints_bind _ _ [_] [_]); apply prints_print.
Qed.

(** Appending to a fixed prefix is injective. *)
Lemma string_app_inv_head (p a b : string) : p +:+ a = p +:+ b -> a = b.
Proof.
  induction p as [|c p IH]; simpl; intros Heq.
  - exact Heq.
  - injection Heq as Heq. exact (IH Heq).
Qed.

(** ** [_format_val] *)

(** C9: for every unit and every format specifier, [_format_val] applied to
    [None] returns exactly the four-character string [None]: neither the
    unit nor the format specifier takes part. *)
Theorem format_val_none (unit vfs : string) :
  _format_val None unit vfs = Ok "None" /\ String.length "None" = 4%nat.
Proof. split; reflexivity. Qed.

(** C6: for a value other than [None], [_format_val] returns the value
    rendered with the format specifier, alone when the unit is empty or
    the value is an enumeration (a [str] or a [NamedSignalValue]), and
    followed by one space and the unit otherwise; a rendering that raises
    is passed on. *)
Theorem format_val_unit (v : pyval) (unit vfs : string) :
  (is_enumeration v = true <-> (exists s, v = VStr s) \/ (exists n, v = VNamed n))
  /\ _format_val (Some v) unit vfs
     = match py_format v vfs with
       | Ok s =>
           Ok (if decide (unit = "" \/ is_enumeration v = true)
               then s
               else s +:+ " " +:+ unit)
       | Raise e => Raise e
       end.
Proof.
  split.
  - destruct v; simpl; split; intros Hv; try discriminate; eauto;
      destruct Hv as [[? Hv]|[? Hv]]; discriminate || reflexivity.
  - unfold _format_val, mbind, result_bind.
    destruct (decide (unit = "" \/ is_enumeration v = true)) as [Hd|Hd].
    + assert (negb (truthy_str unit) || is_enumeration v = true) as ->.
      { destruct Hd as [-> | ->]; [reflexivity | apply orb_true_r]. }
      destruct (py_format v vfs); reflexivity.
    + assert (negb (truthy_str unit) || is_enumeration v = false) as ->.
      { destruct unit; [exfalso; apply Hd; left; reflexivity |].
        destruct (is_enumeration v); [exfalso; apply Hd; right; reflexivity |].
        reflexivity. }
      destruct (py_format v vfs); reflexivity.
Qed.


Ltac appends_blocks :=
  repeat first
    [ apply appends_print_message_heading | apply appends_print_message_id
    | apply appends_print_message_cycle_time | apply appends_print_message_autosar
    | apply appends_print_message_signal_tree | apply appends_print_contained_name
    | apply appends_print_signal | apply appends__print_message
    | appends_step ].

(** ** The size line of a message *)

(** C3: after its heading, [_print_message] prints the identifier line and
    then the length line.  For a message whose [header_id] is [None] the
    length line is the [Maximum Size] one exactly when the message is a
    container and the [Size] one exactly when it is not; for a message
    with a [header_id] it is always the [Size] one. *)
Theorem print_message_size_line message indent pfs vfs :
  let max_form :=
    indent +:+ "  Maximum Size: " +:+ str_int (Message.length message) +:+ " bytes" in
  let size_form :=
    indent +:+ "  Size: " +:+ str_int (Message.length message) +:+ " bytes" in
  exists id_line size_line rest,
    printed (_print_message message indent pfs vfs)
    = printed (print_message_heading message indent) ++ id_line :: size_line :: rest
    /\ match Message.header_id message with
       | None =>
           id_line = indent +:+ "  Frame ID: 0x" +:+ hex_int (Message.frame_id message)
                     +:+ " (" +:+ str_int (Message.frame_id message) +:+ ")"
           /\ (size_line = max_form <-> Message.is_container message = true)
           /\ (size_line = size_form <-> Message.is_container message = false)
       | Some header_id =>
           id_line = indent +:+ "  Header ID: 0x" +:+ hex_int header_id
                     +:+ " (" +:+ str_int header_id +:+ ")"
           /\ size_line = size_form
       end.
Proof.
  intros max_form size_form.
  pose proof (print_message_heading_prints message indent) as Hhead.
  pose proof (print_message_id_prints message indent) as Hid.
  rewrite _print_message_unfold.
  rewrite printed_bind by appends_blocks.
  rewrite (prints_outcome _ _ Hhead).
  rewrite printed_bind by appends_blocks.
  rewrite (prints_outcome _ _ Hid), (prints_printed _ _ Hid).
  destruct (Message.header_id message) as [h|].
  - eexists _, _, _. split; [reflexivity |]. split; reflexivity.
  - eexists _, _, _. split; [reflexivity |]. split; [reflexivity |].
    subst max_form size_form.
    destruct (Message.is_container message); split; split; intros Heq;
      try reflexivity; try discriminate;
      apply string_app_inv_head in Heq; discriminate.
Qed.


(** ** A listing that returns is the concatenation of its blocks *)

Lemma bind_ok_inv (m : IO ()) (k : () -> IO ()) :
  appends m -> (forall a, appends (k a)) ->
  outcome (m ≫= k) = Ok () ->
  outcome m = Ok () /\ outcome (k ()) = Ok ()
  /\ printed (m ≫= k) = printed m ++ printed (k ()).
Proof.
  intros Hm Hk Hok. rewrite outcome_bind in Hok by assumption.
  rewrite printed_bind by assumption.
  destruct (outcome m) as [[]|e]; [| discriminate]. auto.
Qed.

Lemma for_each_ok_inv {A : Type} (body : A -> IO ()) l :
  (forall x, x ∈ l -> appends (body x)) ->
  outcome (for_each body l) = Ok () ->
  (forall x, x ∈ l -> outcome (body x) = Ok ())
  /\ printed (for_each body l) = concat (map (fun x => printed (body x)) l).
Proof.
  induction l as [|x l IH]; intros Happ Hok.
  - split; [intros x Hx; inversion Hx | reflexivity].
  - simpl in Hok. apply bind_ok_inv in Hok as (Hx & Hl & Hp).
    + destruct IH as [IH1 IH2]; [intros y Hy; apply Happ; right; exact Hy | exact Hl |].
      split.
      * intros y Hy. apply elem_of_cons in Hy as [-> | Hy]; auto.
      * simpl. cbn in Hp. rewrite Hp, IH2. reflexivity.
    + apply Happ. left.
    + intros _. apply appends_for_each. intros y Hy. apply Happ. right. exact Hy.
Qed.

Lemma concat_map_elem {A B : Type} (f : A -> list B) (l : list A) (x : A) :
  x ∈ l -> exists before after, concat (map f l) = before ++ f x ++ after.
Proof.
  intros Hx. apply list_elem_of_split in Hx as (l1 & l2 & ->).
  exists (concat (map f l1)), (concat (map f l2)).
  rewrite map_app, concat_app. reflexivity.
Qed.

(** The five blocks printed for a signal of a listing that returns. *)
Lemma signal_block_in_listing message indent pfs vfs signal :
  signal ∈ Message.signals message ->
  outcome (_print_message message indent pfs vfs) = Ok () ->
  exists before after,
    printed (_print_message message indent pfs vfs)
    = before
      ++ printed (print_signal_heading message indent signal)
      ++ printed (print_signal_selector message indent signal)
      ++ printed (print_signal_layout indent vfs signal)
      ++ printed (print_signal_scaling indent vfs signal)
      ++ printed (print_signal_choices indent signal)
      ++ after
    /\ outcome (print_signal_selector message indent signal) = Ok ()
    /\ outcome (print_signal_layout indent vfs signal) = Ok ()
    /\ outcome (print_signal_scaling indent vfs signal) = Ok ().
Proof.
  intros Hin Hok. rewrite _print_message_unfold in Hok.
  rewrite _print_message_unfold.
  do 7 (apply bind_ok_inv in Hok as (_ & Hok & ->); [| solve [appends_blocks] ..]).
  apply for_each_ok_inv in Hok as [Hall ->];
    [| intros; apply appends_print_signal].
  specialize (Hall signal Hin).
  destruct (concat_map_elem
              (fun s => printed (print_signal message indent vfs s)) _ _ Hin)
    as (b & a & ->).
  unfold print_signal in Hall |- *.
  pose proof (appends_print_signal_heading message indent signal).
  pose proof (appends_print_signal_selector message indent signal).
  pose proof (appends_print_signal_layout indent vfs signal).
  pose proof (appends_print_signal_scaling indent vfs signal).
  pose proof (appends_print_signal_choices indent signal).
  do 4 (apply bind_ok_inv in Hall as (? & Hall & ->);
        [| solve [repeat first [assumption | appends_step]] ..]).
  lazymatch goal with
  | |- exists _ _, ?p1 ++ ?p2 ++ ?p3 ++ ?p4 ++ ?p5 ++ ?p6 ++ ?p7 ++ b ++ _ = _ /\ _ =>
      exists (p1 ++ p2 ++ p3 ++ p4 ++ p5 ++ p6 ++ p7 ++ b), a
  end.
  split; [| auto]. rewrite <- !app_assoc. reflexivity.
Qed.

(** ** The internal type of a signal *)

Lemma print_signal_heading_prints message indent signal :
  prints (print_signal_heading message indent signal)
    ((indent +:+ "    " +:+ Signal.name signal +:+ ":")
      :: (match Signal.comments signal with
         | Some comments =>
             map (fun '(lang, text) =>
                    (indent +:+ "      ") +:+ "Comment[" +:+ str_opt id lang +:+ "]: "
                    +:+ text) comments
         | None => []
         end
      ++ (if truthy_list (Signal.receivers signal)
          then [indent +:+ "      Receiving ECUs: "
                +:+ join ", " (sorted (Signal.receivers signal))]
          else []))
     ++ [indent +:+ "      Internal type: " +:+ signal_type message signal]).
Proof.
  unfold print_signal_heading. cbv zeta.
  rewrite <- app_assoc.
  apply (prints_bind _ _ [_] (_ ++ _ ++ [_])); [apply prints_print |].
  apply prints_bind.
  { destruct (Signal.comments signal);
      [apply prints_print_comments | apply prints_ret]. }
  apply prints_bind; [apply prints_when, prints_print | apply prints_print].
Qed.

(** Whether some signal of the message names [signal] as its selector. *)
Lemma selects_some_signal message signal :
  bool_decide (Some (Signal.name signal)
               ∈ map Signal.multiplexer_signal (Message.signals message)) = true
  <-> exists x, x ∈ Message.signals message
                /\ Signal.multiplexer_signal x = Some (Signal.name signal).
Proof.
  rewrite bool_decide_eq_true. change (@map) with (@fmap list _).
  rewrite list_elem_of_fmap. split; intros (x & H1 & H2); eauto.
Qed.

(** ** A listing up to the point it reaches *)

Lemma bind_assoc {A B C : Type} (m : IO A) (k : A -> IO B) (r : B -> IO C) out :
  ((m ≫= k) ≫= r) out = (m ≫= fun a => k a ≫= r) out.
Proof.
  unfold mbind, IO_bind. destruct (m out) as [out1 [a|e]]; reflexivity.
Qed.

Lemma bind_split {A B C : Type} (m : IO A) (k : A -> IO B) (r : B -> IO C)
    (k' : A -> IO C) out :
  (forall a out', k' a out' = (k a ≫= r) out') ->
  (m ≫= k') out = ((m ≫= k) ≫= r) out.
Proof.
  intros Hk. rewrite bind_assoc. unfold mbind, IO_bind.
  destruct (m out) as [out1 [a|e]]; [apply Hk | reflexivity].
Qed.

Lemma printed_ext {A : Type} (m m' : IO A) :
  (forall out, m out = m' out) -> printed m = printed m' /\ outcome m = outcome m'.
Proof. intros Heq. unfold printed, outcome. rewrite Heq. split; reflexivity. Qed.

(** [_print_message] is its preamble followed by the loop over the
    signals. *)
Lemma _print_message_preamble message indent pfs vfs out :
  _print_message message indent pfs vfs out
  = (message_preamble message indent pfs vfs ;;
     for_each (print_signal message indent vfs) (Message.signals message)) out.
Proof.
  rewrite _print_message_unfold. unfold message_preamble. cbv zeta.
  do 6 (apply bind_split; intros _ ?). reflexivity.
Qed.

Lemma appends_message_preamble message indent pfs vfs :
  appends (message_preamble message indent pfs vfs).
Proof.
  unfold message_preamble. cbv zeta.
  apply appends_bind; [apply appends_print_message_heading | intros _].
  apply appends_bind; [apply appends_print_message_id | intros _].
  apply appends_bind; [apply appends_print_message_cycle_time | intros _].
  apply appends_bind; [apply appends_print_message_autosar | intros _].
  apply appends_bind; [apply appends_print_message_signal_tree | intros _].
  apply appends_bind; [| intros _; apply appends_when, appends_print].
  destruct (Message.contained_messages message) as [cms|]; [| apply appends_ret].
  repeat (apply appends_bind; [| intros _]); try apply appends_print.
  - apply appends_for_each. intros. apply appends_print_contained_name.
  - apply appends_for_each. intros. apply appends__print_message.
Qed.

(** A loop whose first rounds return goes on with the rounds that remain. *)
Lemma for_each_app_ok {A : Type} (body : A -> IO ()) l1 l2 :
  (forall y, y ∈ l1 ++ l2 -> appends (body y)) ->
  (forall y, y ∈ l1 -> outcome (body y) = Ok ()) ->
  printed (for_each body (l1 ++ l2))
  = concat (map (fun y => printed (body y)) l1) ++ printed (for_each body l2)
  /\ outcome (for_each body (l1 ++ l2)) = outcome (for_each body l2).
Proof.
  intros Happ Hok. induction l1 as [|y l1 IH]; [split; reflexivity |].
  cbn [app for_each map concat].
  assert (appends (for_each body (l1 ++ l2))) as Hrest.
  { apply appends_for_each. intros z Hz. apply Happ. right. exact Hz. }
  destruct IH as [IH1 IH2].
  { intros z Hz. apply Happ. right. exact Hz. }
  { intros z Hz. apply Hok. right. exact Hz. }
  rewrite outcome_bind, printed_bind;
    [| apply Happ; left | intros _; exact Hrest
     | apply Happ; left | intros _; exact Hrest ].
  rewrite (Hok y) by left. rewrite IH1, IH2, app_assoc. split; reflexivity.
Qed.

(** The listing of a message up to and with the block of a signal it
    reaches. *)
Lemma listing_reaches_signal message indent pfs vfs before signal after :
  Message.signals message = before ++ signal :: after ->
  reaches message indent pfs vfs before ->
  printed (_print_message message indent pfs vfs)
  = printed (message_preamble message indent pfs vfs)
    ++ concat (map (fun s => printed (print_signal message indent vfs s)) before)
    ++ printed (print_signal message indent vfs signal)
    ++ match outcome (print_signal message indent vfs signal) with
       | Ok _ => printed (for_each (print_signal message indent vfs) after)
       | Raise _ => []
       end
  /\ outcome (_print_message message indent pfs vfs)
     = match outcome (print_signal message indent vfs signal) with
       | Ok _ => outcome (for_each (print_signal message indent vfs) after)
       | Raise e => Raise e
       end.
Proof.
  intros Hsplit [Hpre Hbefore].
  destruct (printed_ext _ _ (_print_message_preamble message indent pfs vfs))
    as [-> ->].
  assert (forall l, appends (for_each (print_signal message indent vfs) l)) as Hloop.
  { intros l. apply appends_for_each. intros. apply appends_print_signal. }
  rewrite printed_bind, outcome_bind;
    [| apply appends_message_preamble | intros _; apply Hloop
     | apply appends_message_preamble | intros _; apply Hloop ].
  rewrite Hpre, Hsplit.
  destruct (for_each_app_ok (print_signal message indent vfs) before (signal :: after))
    as [-> ->]; [intros; apply appends_print_signal | exact Hbefore |].
  cbn [for_each].
  rewrite printed_bind, outcome_bind;
    [| apply appends_print_signal | intros _; apply Hloop
     | apply appends_print_signal | intros _; apply Hloop ].
  split; [| destruct (outcome (print_signal message indent vfs signal)) as [[]|];
            reflexivity].
  reflexivity.
Qed.

(** The block of a signal, step by step. *)
Lemma print_signal_steps message indent vfs signal :
  printed (print_signal message indent vfs signal)
  = printed (print_signal_heading message indent signal)
    ++ printed (print_signal_selector message indent signal)
    ++ match outcome (print_signal_selector message indent signal) with
       | Ok _ =>
           printed (print_signal_layout indent vfs signal)
           ++ match outcome (print_signal_layout indent vfs signal) with
              | Ok _ =>
                  printed (print_signal_scaling indent vfs signal)
                  ++ match outcome (print_signal_scaling indent vfs signal) with
                     | Ok _ => printed (print_signal_choices indent signal)
                     | Raise _ => []
                     end
              | Raise _ => []
              end
       | Raise _ => []
       end
  /\ outcome (print_signal message indent vfs signal)
     = match outcome (print_signal_selector message indent signal) with
       | Ok _ =>
           match outcome (print_signal_layout indent vfs signal) with
           | Ok _ =>
               match outcome (print_signal_scaling indent vfs signal) with
               | Ok _ => outcome (print_signal_choices indent signal)
               | Raise e => Raise e
               end
           | Raise e => Raise e
           end
       | Raise e => Raise e
       end.
Proof.
  pose proof (appends_print_signal_heading message indent signal) as H1.
  pose proof (appends_print_signal_selector message indent signal) as H2.
  pose proof (appends_print_signal_layout indent vfs signal) as H3.
  pose proof (appends_print_signal_scaling indent vfs signal) as H4.
  pose proof (appends_print_signal_choices indent signal) as H5.
  pose proof (prints_outcome _ _ (print_signal_heading_prints message indent signal))
    as Hhead.
  unfold print_signal.
  rewrite !printed_bind, !outcome_bind;
    repeat first [ assumption | intros _ | apply appends_bind ].
  rewrite Hhead.
  destruct (outcome (print_signal_selector message indent signal)) as [[]|];
    [| split; reflexivity].
  destruct (outcome (print_signal_layout indent vfs signal)) as [[]|];
    [| split; reflexivity].
  destruct (outcome (print_signal_scaling indent vfs signal)) as [[]|];
    split; reflexivity.
Qed.

(** C5 (amended): for every signal the listing gets to, that is, whose
    block is printed, the block starts with the line of its name and
    reaches its [Internal type] line, whatever happens later in the
    listing; the line reads [Float] exactly when [is_float] is true,
    [Multiplex Selector] exactly when the signal is no float, has
    [is_multiplexer] true and is named as the selector of some signal of
    the message, and [Integer] exactly in the remaining cases. *)
Theorem internal_type_line message indent pfs vfs before signal after :
  Message.signals message = before ++ signal :: after ->
  reaches message indent pfs vfs before ->
  let selects :=
    exists x, x ∈ Message.signals message
              /\ Signal.multiplexer_signal x = Some (Signal.name signal) in
  exists intro T rest,
    printed (_print_message message indent pfs vfs)
    = (printed (message_preamble message indent pfs vfs)
       ++ concat (map (fun s => printed (print_signal message indent vfs s)) before))
      ++ ((indent +:+ "    " +:+ Signal.name signal +:+ ":") :: intro
          ++ [indent +:+ "      Internal type: " +:+ T])
      ++ rest
    /\ printed (print_signal_heading message indent signal)
       = (indent +:+ "    " +:+ Signal.name signal +:+ ":") :: intro
         ++ [indent +:+ "      Internal type: " +:+ T]
    /\ (T = "Float" <-> Signal.is_float signal = true)
    /\ (T = "Multiplex Selector"
        <-> Signal.is_float signal = false
            /\ Signal.is_multiplexer signal = true /\ selects)
    /\ (T = "Integer"
        <-> Signal.is_float signal = false
            /\ ~ (Signal.is_multiplexer signal = true /\ selects)).
Proof.
  intros Hsplit Hreach selects.
  destruct (listing_reaches_signal _ _ _ _ _ _ _ Hsplit Hreach) as [Hp _].
  destruct (print_signal_steps message indent vfs signal) as [Hblock _].
  pose proof (prints_printed _ _ (print_signal_heading_prints message indent signal))
    as Hhead.
  rewrite Hblock in Hp.
  lazymatch type of Hhead with
  | _ = _ :: ?intro ++ [_] => exists intro, (signal_type message signal)
  end.
  lazymatch type of Hp with
  | _ = _ ++ _ ++ (_ ++ ?selector) ++ ?tail => exists (selector ++ tail)
  end.
  split; [rewrite Hp, <- Hhead, <- !app_assoc; reflexivity |].
  split; [exact Hhead |].
  pose proof (selects_some_signal message signal) as Hsel. fold selects in Hsel.
  unfold signal_type.
  destruct (Signal.is_float signal), (Signal.is_multiplexer signal); simpl;
    try destruct (bool_decide _) eqn:Hd;
    repeat split; try discriminate; try reflexivity; try tauto;
    try (intros (? & ? & ?); discriminate);
    try (intros (? & ?); discriminate);
    try (apply Hsel; reflexivity);
    try (intros (_ & Hs); apply Hsel in Hs; discriminate);
    try (intros (_ & Hs); exfalso; apply Hs; split; [reflexivity | apply Hsel; reflexivity]);
    try (intros (_ & _ & Hs); apply Hsel in Hs; discriminate).
Qed.

(** ** The selector values of a multiplexed signal *)

Lemma print_signal_selector_ok message indent signal mux :
  Signal.multiplexer_signal signal = Some mux ->
  outcome (print_signal_selector message indent signal) = Ok () ->
  exists selector_sig,
    get_signal_by_name message mux = Ok selector_sig
    /\ printed (print_signal_selector message indent signal)
       = [ indent +:+ "      Selector signal: " +:+ mux;
           indent +:+ "      Selector values: "
           +:+ join ", " match Signal.multiplexer_ids signal with
                         | Some ids => map (selector_value selector_sig) ids
                         | None => []
                         end ].
Proof.
  intros Hmux. unfold print_signal_selector, outcome, printed. rewrite Hmux.
  unfold mbind, IO_bind, print, lift. simpl.
  destruct (get_signal_by_name message mux) as [sel|e]; simpl; intros Hok;
    [| discriminate].
  exists sel. split; reflexivity.
Qed.

(** What the selector step of a signal does, by the outcome of the
    lookup. *)
Lemma print_signal_selector_cases message indent signal mux :
  Signal.multiplexer_signal signal = Some mux ->
  match get_signal_by_name message mux with
  | Ok selector_sig =>
      outcome (print_signal_selector message indent signal) = Ok ()
      /\ printed (print_signal_selector message indent signal)
         = [ indent +:+ "      Selector signal: " +:+ mux;
             indent +:+ "      Selector values: "
             +:+ join ", " match Signal.multiplexer_ids signal with
                           | Some ids => map (selector_value selector_sig) ids
                           | None => []
                           end ]
  | Raise e =>
      e = KeyError mux
      /\ outcome (print_signal_selector message indent signal) = Raise (KeyError mux)
      /\ printed (print_signal_selector message indent signal)
         = [ indent +:+ "      Selector signal: " +:+ mux ]
  end.
Proof.
  intros Hmux. unfold print_signal_selector, outcome, printed. rewrite Hmux.
  unfold mbind, IO_bind, print, lift. cbn [app fst snd].
  unfold get_signal_by_name.
  destruct (find _ _) as [sel|]; repeat split; reflexivity.
Qed.

(** C4 (amended): for a signal with a [multiplexer_signal] that the
    listing gets to, the lines of its heading are followed by the line
    naming the selector, and the selector is looked up by
    [get_signal_by_name].  When the lookup finds it, the next line shows
    one selector value per entry of [multiplexer_ids], the name of the
    selector's choice for that value when the selector's choices hold one
    and the plain number otherwise, and the layout of the signal follows.
    When the lookup fails, its [KeyError] ends the listing right after the
    line naming the selector: no selector value is printed. *)
Theorem selector_values_line message indent pfs vfs before signal after mux :
  Message.signals message = before ++ signal :: after ->
  reaches message indent pfs vfs before ->
  Signal.multiplexer_signal signal = Some mux ->
  let front :=
    printed (message_preamble message indent pfs vfs)
    ++ concat (map (fun s => printed (print_signal message indent vfs s)) before)
    ++ printed (print_signal_heading message indent signal) in
  match get_signal_by_name message mux with
  | Ok selector_sig =>
      exists values rest,
        printed (_print_message message indent pfs vfs)
        = front
          ++ [ indent +:+ "      Selector signal: " +:+ mux;
               indent +:+ "      Selector values: " +:+ join ", " values ]
          ++ printed (print_signal_layout indent vfs signal)
          ++ rest
        /\ match Signal.multiplexer_ids signal with
           | Some multiplexer_ids =>
               Forall2
                 (fun x shown =>
                    match Signal.choices selector_sig
                          ≫= (fun choices => dict_get choices x) with
                    | Some c => shown = str_choice c
                    | None => shown = str_int x
                    end)
                 multiplexer_ids values
           | None => values = []
           end
  | Raise e =>
      e = KeyError mux
      /\ printed (_print_message message indent pfs vfs)
         = front ++ [ indent +:+ "      Selector signal: " +:+ mux ]
      /\ outcome (_print_message message indent pfs vfs) = Raise (KeyError mux)
  end.
Proof.
  intros Hsplit Hreach Hmux front.
  destruct (listing_reaches_signal _ _ _ _ _ _ _ Hsplit Hreach) as [Hp Ho].
  destruct (print_signal_steps message indent vfs signal) as [Hblock Hout].
  pose proof (print_signal_selector_cases message indent signal mux Hmux) as Hsel.
  destruct (get_signal_by_name message mux) as [sel|e].
  - destruct Hsel as [Hok Hlines]. rewrite Hok, Hlines in Hblock.
    rewrite Hblock in Hp.
    eexists _, _. split.
    { rewrite Hp. unfold front. rewrite <- !app_assoc. reflexivity. }
    destruct (Signal.multiplexer_ids signal) as [ids|]; [| reflexivity].
    clear. induction ids as [|x ids IH]; simpl; [constructor |].
    constructor; [| exact IH].
    unfold selector_value.
    destruct (Signal.choices sel) as [choices|]; [| reflexivity].
    change (Some choices ≫= (fun choices => dict_get choices x))
      with (dict_get choices x).
    destruct choices as [|kv choices]; [reflexivity |].
    change (truthy_list (kv :: choices)) with true. cbv iota.
    destruct (dict_get (kv :: choices) x); reflexivity.
  - destruct Hsel as (-> & Hraise & Hlines).
    rewrite Hraise, Hlines in Hblock. rewrite Hraise in Hout.
    rewrite Hout in Hp, Ho. rewrite Hblock in Hp.
    split; [reflexivity |]. split; [| exact Ho].
    rewrite Hp. unfold front. rewrite <- !app_assoc, !app_nil_r. reflexivity.
Qed.

(** ** The offset and the scaling factor *)

Lemma digits2_pos_size (m : positive) : digits2_pos m = Pos.size m.
Proof. induction m as [m IH|m IH|]; simpl; rewrite ?IH; reflexivity. Qed.

(** The only float that equals the integer [1] is [1.0]. *)
Lemma float_eq_one (g : float) : Z_compare_float 1 g = Some Eq -> g = 1%float.
Proof.
  unfold Z_compare_float. intros Hcmp. apply Prim2SF_inj.
  pose proof (Prim2SF_valid g) as Hvalid.
  destruct (Prim2SF g) as [s|s| |s m e]; try discriminate.
  - destruct s; discriminate.
  - cbn [SpecFloat.valid_binary] in Hvalid.
    unfold bounded, canonical_mantissa in Hvalid.
    apply andb_true_iff in Hvalid as [Hcanon _]. apply Z.eqb_eq in Hcanon.
    rewrite digits2_pos_size in Hcanon.
    unfold fexp in Hcanon.
    change (SpecFloat.emin prec emax) with (-1074) in Hcanon.
    change prec with 53 in Hcanon.
    apply (f_equal (fun o => match o with Some c => c | None => Lt end)) in Hcmp.
    cbv beta iota zeta in Hcmp.
    destruct s.
    { exfalso. destruct (0 <=? e) eqn:He.
      - apply Z.compare_eq in Hcmp. apply Z.leb_le in He.
        pose proof (Z.pow_pos_nonneg 2 e ltac:(lia) He). nia.
      - apply Z.compare_eq in Hcmp. apply Z.leb_gt in He.
        pose proof (Z.pow_pos_nonneg 2 (- e) ltac:(lia) ltac:(lia)). lia. }
    destruct (0 <=? e) eqn:He.
    + exfalso. apply Z.compare_eq in Hcmp. apply Z.leb_le in He.
      pose proof (Z.pow_pos_nonneg 2 e ltac:(lia) He).
      assert (m = 1%positive) as -> by nia.
      simpl in Hcanon. lia.
    + apply Z.compare_eq in Hcmp. apply Z.leb_gt in He.
      rewrite Z.mul_1_l in Hcmp.
      pose proof (Pos.size_gt m) as Hgt. pose proof (Pos.size_le m) as Hle.
      apply Pos2Z.pos_lt_pos in Hgt. apply Pos2Z.pos_le_pos in Hle.
      rewrite Pos2Z.inj_pow in Hgt, Hle.
      assert (2 ^ (- e) < 2 ^ Z.pos (Pos.size m)) as Hgt' by lia.
      assert (2 ^ Z.pos (Pos.size m) <= 2 ^ (- e + 1)) as Hle'
        by (rewrite Z.pow_add_r by lia; lia).
      apply Z.pow_lt_mono_r_iff in Hgt'; [| lia | lia].
      apply Z.pow_le_mono_r_iff in Hle'; [| lia | lia].
      assert (Z.pos (Pos.size m) = - e + 1) as Hsize by lia.
      rewrite Hsize in Hcanon.
      assert (e = -52) as -> by lia.
      change (- -52) with 52 in Hcmp.
      assert (m = 4503599627370496%positive) as ->.
      { apply Pos2Z.inj. rewrite <- Hcmp. reflexivity. }
      vm_compute. reflexivity.
Qed.

(** A scale equal to [1] is within the tolerance. *)
#[warnings="-inexact-float"]
Lemma scale_one_within_tolerance (s : num) :
  num_eq_int s 1 = true ->
  num_gt_float s (1 + 1e-10)%float = false /\ num_lt_float s (1 - 1e-10)%float = false.
Proof.
  destruct s as [z|g]; simpl; intros Heq.
  - apply Z.eqb_eq in Heq. subst z. split; vm_compute; reflexivity.
  - assert (g = 1%float) as ->.
    { apply float_eq_one. destruct (Z_compare_float 1 g) as [[]|]; congruence. }
    split; vm_compute; reflexivity.
Qed.

Lemma print_signal_choices_returns indent signal :
  outcome (print_signal_choices indent signal) = Ok ().
Proof.
  assert (forall {A : Type} (body : A -> IO ()) l,
             (forall x, appends (body x) /\ outcome (body x) = Ok ()) ->
             appends (for_each body l) /\ outcome (for_each body l) = Ok ())
    as Hloop.
  { intros A body l Hbody. induction l as [|x l [IH1 IH2]].
    - split; [apply appends_ret | reflexivity].
    - destruct (Hbody x) as [Ha Ho]. cbn [for_each]. split.
      + apply appends_bind; [exact Ha | intros _; exact IH1].
      + rewrite outcome_bind; [| exact Ha | intros _; exact IH1].
        rewrite Ho. exact IH2. }
  unfold print_signal_choices.
  destruct (Signal.choices signal) as [choices|]; [| reflexivity].
  destruct choices as [|kv choices]; [reflexivity |].
  cbn [truthy_list when].
  rewrite outcome_bind; [| apply appends_print | intros _].
  - change (outcome (print (indent +:+ "      Named values:"))) with (Ok () : result ()).
    cbv iota. apply Hloop. intros [value choice].
    assert (appends (match choice with
                     | CNamed n =>
                         for_each (fun '(lang, description) =>
                                     print (indent +:+ "          Comment["
                                            +:+ str_opt id lang +:+ "]: "
                                            +:+ description))
                                  (nsv_comments n)
                     | CStr _ => mret ()
                     end)
            /\ outcome (match choice with
                        | CNamed n =>
                            for_each (fun '(lang, description) =>
                                        print (indent +:+ "          Comment["
                                               +:+ str_opt id lang +:+ "]: "
                                               +:+ description))
                                     (nsv_comments n)
                        | CStr _ => mret ()
                        end) = Ok ()) as [Ha Ho].
    { destruct choice; [split; [apply appends_ret | reflexivity] |].
      apply Hloop. intros [lang description].
      split; [apply appends_print | reflexivity]. }
    split.
    + apply appends_bind; [apply appends_print | intros _; exact Ha].
    + rewrite outcome_bind; [| apply appends_print | intros _; exact Ha].
      exact Ho.
  - apply appends_for_each. intros [value choice] _.
    apply appends_bind; [apply appends_print | intros _].
    destruct choice; [apply appends_ret |].
    apply appends_for_each. intros [lang description] _. apply appends_print.
Qed.

(** What the scaling step of a signal prints and how it ends. *)
Lemma print_signal_scaling_cases indent vfs signal :
  if has_offset signal || has_scale signal
  then
    match _format_val
            (Some match Signal.offset signal with Some o => num_val o | None => VInt 0 end)
            (signal_unit signal) vfs with
    | Raise e =>
        printed (print_signal_scaling indent vfs signal) = []
        /\ outcome (print_signal_scaling indent vfs signal) = Raise e
    | Ok o =>
        match _format_val
                (Some match Signal.scale signal with
                      | Some s => num_val s | None => VInt 1 end)
                (signal_unit signal) vfs with
        | Raise e =>
            printed (print_signal_scaling indent vfs signal)
            = [ indent +:+ "      Offset: " +:+ o ]
            /\ outcome (print_signal_scaling indent vfs signal) = Raise e
        | Ok s =>
            printed (print_signal_scaling indent vfs signal)
            = [ indent +:+ "      Offset: " +:+ o;
                indent +:+ "      Scaling factor: " +:+ s ]
            /\ outcome (print_signal_scaling indent vfs signal) = Ok ()
        end
    end
  else
    printed (print_signal_scaling indent vfs signal) = []
    /\ outcome (print_signal_scaling indent vfs signal) = Ok ().
Proof.
  unfold print_signal_scaling, outcome, printed. cbv zeta.
  destruct (has_offset signal || has_scale signal); [| split; reflexivity].
  unfold mbind, IO_bind, lift, print. cbv beta iota.
  destruct (_format_val (Some match Signal.offset signal with
                              | Some o => num_val o | None => VInt 0 end)
                         (signal_unit signal) vfs)
    as [o|]; cbv beta iota; [| split; reflexivity].
  destruct (_format_val (Some match Signal.scale signal with
                              | Some s => num_val s | None => VInt 1 end)
                         (signal_unit signal) vfs)
    as [s|]; cbv beta iota; split; reflexivity.
Qed.

(** C8 (amended): for a signal the listing gets to and whose block gets
    to the scaling step (the lookup of its selector and the formatting of
    its initial, invalid, minimum and maximum values do not raise), the
    lines of the scaling step stand right after the layout lines and
    before the named values.  They are the [Offset] and [Scaling factor]
    lines exactly when the scaling is not trivial: the offset is set and
    not zero, or the scale is set and lies above [1 + 1e-10] or below
    [1 - 1e-10]; an unset offset shows as [0] and an unset scale as [1];
    a formatting that raises ends the listing before its line.  When the
    scaling is trivial, as with a scale equal to [1] and an offset equal
    to [0], the step prints nothing. *)
#[warnings="-inexact-float"]
Theorem scaling_lines message indent pfs vfs before signal after :
  Message.signals message = before ++ signal :: after ->
  reaches message indent pfs vfs before ->
  outcome (print_signal_selector message indent signal) = Ok () ->
  outcome (print_signal_layout indent vfs signal) = Ok () ->
  let unit := signal_unit signal in
  let nontrivial :=
    (exists o, Signal.offset signal = Some o /\ num_ne_int o 0 = true)
    \/ (exists s, Signal.scale signal = Some s
                  /\ (num_gt_float s (1 + 1e-10)%float = true
                      \/ num_lt_float s (1 - 1e-10)%float = true)) in
  let shown_offset :=
    match Signal.offset signal with Some o => num_val o | None => VInt 0 end in
  let shown_scale :=
    match Signal.scale signal with Some s => num_val s | None => VInt 1 end in
  let lines := printed (print_signal_scaling indent vfs signal) in
  let ending := outcome (print_signal_scaling indent vfs signal) in
  printed (_print_message message indent pfs vfs)
  = printed (message_preamble message indent pfs vfs)
    ++ concat (map (fun s => printed (print_signal message indent vfs s)) before)
    ++ printed (print_signal_heading message indent signal)
    ++ printed (print_signal_selector message indent signal)
    ++ printed (print_signal_layout indent vfs signal)
    ++ lines
    ++ match ending with
       | Ok _ =>
           printed (print_signal_choices indent signal)
           ++ printed (for_each (print_signal message indent vfs) after)
       | Raise _ => []
       end
  /\ (nontrivial ->
      match _format_val (Some shown_offset) unit vfs with
      | Raise e => lines = [] /\ ending = Raise e
      | Ok o =>
          match _format_val (Some shown_scale) unit vfs with
          | Raise e => lines = [ indent +:+ "      Offset: " +:+ o ] /\ ending = Raise e
          | Ok s =>
              lines = [ indent +:+ "      Offset: " +:+ o;
                        indent +:+ "      Scaling factor: " +:+ s ]
              /\ ending = Ok ()
          end
      end)
  /\ (~ nontrivial -> lines = [] /\ ending = Ok ())
  /\ (forall o s,
        Signal.offset signal = Some o -> Signal.scale signal = Some s ->
        num_eq_int o 0 = true -> num_eq_int s 1 = true ->
        lines = [] /\ ending = Ok ()).
Proof.
  intros Hsplit Hreach Hsel Hlayout unit nontrivial shown_offset shown_scale
    lines ending.
  destruct (listing_reaches_signal _ _ _ _ _ _ _ Hsplit Hreach) as [Hp _].
  destruct (print_signal_steps message indent vfs signal) as [Hblock Hout].
  rewrite Hsel, Hlayout in Hblock, Hout.
  rewrite print_signal_choices_returns in Hout.
  rewrite Hblock, Hout in Hp. fold lines ending in Hp.
  assert (has_offset signal || has_scale signal = true <-> nontrivial) as Hiff.
  { unfold nontrivial, has_offset, has_scale.
    rewrite orb_true_iff.
    destruct (Signal.offset signal) as [o|], (Signal.scale signal) as [s|];
      rewrite ?orb_true_iff; split;
      intros [Hl|Hr]; eauto;
      try discriminate;
      try (destruct Hl as (? & Hl & ?); inversion Hl; subst; auto);
      try (destruct Hr as (? & Hr & ?); inversion Hr; subst; auto). }
  pose proof (print_signal_scaling_cases indent vfs signal) as Hcases.
  fold lines ending shown_offset shown_scale unit in Hcases.
  split.
  { rewrite Hp, <- !app_assoc. repeat f_equal.
    destruct ending as [[]|]; [reflexivity | rewrite app_nil_r; reflexivity]. }
  destruct (has_offset signal || has_scale signal) eqn:Hb.
  - split; [intros _; exact Hcases |].
    split; [intros Hn; exfalso; apply Hn, Hiff; reflexivity |].
    intros o' s' Hoff Hsc Ho' Hs'. exfalso.
    unfold has_offset, has_scale in Hb. rewrite Hoff, Hsc in Hb.
    unfold num_ne_int in Hb. rewrite Ho' in Hb.
    destruct (scale_one_within_tolerance s' Hs') as [Hgt Hlt].
    rewrite Hgt, Hlt in Hb. discriminate.
  - split; [intros Hn; apply Hiff in Hn; discriminate |].
    split; auto.
Qed.

(** ** [_do_list_messages] *)

#[global] Instance str_le_total : Total str_le.
Proof. intros a b. unfold str_le. apply String.leb_total. Qed.

(** The two filters keep an extended message unless [exclude_extended]
    is set and a normal one unless [exclude_normal] is set. *)
Lemma append_message_names_filter can_db args acc :
  append_message_names can_db args acc
  = acc ++ map Message.name
             (List.filter
                (fun m => if Message.is_extended_frame m
                          then negb (Args.exclude_extended args)
                          else negb (Args.exclude_normal args))
                (Database.messages can_db)).
Proof.
  unfold append_message_names.
  revert acc. induction (Database.messages can_db) as [|m l IH]; intros acc; simpl.
  - rewrite app_nil_r. reflexivity.
  - destruct (Message.is_extended_frame m), (Args.exclude_extended args),
      (Args.exclude_normal args); simpl; rewrite IH, <- ?app_assoc; reflexivity.
Qed.

Lemma sort_names_some (l : list (option string)) :
  Forall is_Some l -> sort_names l = Ok (map Some (sorted (omap id l))).
Proof.
  intros Hall. unfold sort_names.
  assert (forallb is_some l = true) as ->.
  { apply forallb_forall. intros x Hx. rewrite Forall_forall in Hall.
    apply list_elem_of_In in Hx. destruct (Hall x Hx) as [? ->]. reflexivity. }
  destruct l as [|[a|] [|b l]]; try reflexivity.
  inversion Hall as [|? ? [? Hnone] _]. discriminate.
Qed.

Lemma map_Some_omap_id {A : Type} (l : list (option A)) :
  Forall is_Some l -> map Some (omap id l) = l.
Proof.
  induction 1 as [|x l [a ->] _ IH]; simpl; [reflexivity |].
  f_equal. exact IH.
Qed.

Lemma prints_names (names : list string) :
  prints (for_each (fun message_name => print (str_opt id message_name))
                   (map Some names))
         names.
Proof.
  induction names as [|n names IH]; simpl.
  - apply prints_ret.
  - apply (prints_bind _ _ [_]); [apply prints_print | exact IH].
Qed.

(** C7: with no requested names and without [print_all], the listing of a
    database whose messages are named consists of the names of the
    messages the two filters keep, each once, in lexicographic order, and
    of nothing else: no message details are printed. *)
Theorem list_names_sorted can_db args vfs :
  Args.items args = [] ->
  Args.print_all args = false ->
  Forall (fun m => is_Some (Message.name m)) (Database.messages can_db) ->
  let kept :=
    List.filter
      (fun m => if Message.is_extended_frame m
                then negb (Args.exclude_extended args)
                else negb (Args.exclude_normal args))
      (Database.messages can_db) in
  outcome (_do_list_messages can_db args vfs) = Ok ()
  /\ map Some (printed (_do_list_messages can_db args vfs)) ≡ₚ map Message.name kept
  /\ Sorted str_le (printed (_do_list_messages can_db args vfs)).
Proof.
  intros Hitems Hall Hnamed kept.
  assert (Forall is_Some (map Message.name kept)) as Hkept.
  { apply Forall_forall. intros x Hx. apply list_elem_of_In, in_map_iff in Hx.
    destruct Hx as (m & <- & Hm). apply filter_In in Hm as [Hm _].
    rewrite Forall_forall in Hnamed. apply Hnamed, list_elem_of_In, Hm. }
  assert (prints (_do_list_messages can_db args vfs)
                 (sorted (omap id (map Message.name kept)))) as Hprints.
  { unfold _do_list_messages. rewrite Hitems, Hall. cbv zeta.
    intros out. unfold mbind at 1, IO_bind at 1. unfold mret, IO_ret.
    cbn [map truthy_list negb].
    rewrite append_message_names_filter. cbn [app]. fold kept.
    rewrite (sort_names_some _ Hkept).
    unfold mbind, IO_bind, lift. apply prints_names. }
  rewrite (prints_outcome _ _ Hprints), (prints_printed _ _ Hprints).
  split; [reflexivity |]. split.
  - unfold sorted. rewrite merge_sort_Permutation.
    rewrite map_Some_omap_id by exact Hkept. reflexivity.
  - apply Sorted_merge_sort. apply _.
Qed.

Lemma appends_list_message can_db pfs vfs name :
  appends (list_message can_db pfs vfs name).
Proof.
  unfold list_message.
  destruct (get_message_by_name can_db name) as [m|[]]; appends_blocks.
Qed.

(** A lookup by name finds a message of the database with that name, and
    misses exactly when the database has none. *)
Lemma get_message_by_name_spec can_db name :
  match get_message_by_name can_db name with
  | Ok m => m ∈ Database.messages can_db /\ Message.name m = name
  | Raise e =>
      e = KeyError (str_opt id name)
      /\ forall m, m ∈ Database.messages can_db -> Message.name m <> name
  end.
Proof.
  unfold get_message_by_name.
  destruct (find _ _) as [m|] eqn:Hfind.
  - apply find_some in Hfind as [Hin Hname].
    apply bool_decide_eq_true in Hname. split; [apply list_elem_of_In, Hin | exact Hname].
  - split; [reflexivity |]. intros m Hm Hname.
    apply list_elem_of_In in Hm. apply (find_none _ _ Hfind) in Hm.
    apply bool_decide_eq_false in Hm. contradiction.
Qed.

(** The listing of the names it ends up with is the loop over them. *)
Lemma do_list_messages_loop can_db args vfs names :
  (if Args.print_all args
   then sort_names (append_message_names can_db args (map Some (Args.items args)))
   else Ok (map Some (Args.items args))) = Ok names ->
  names <> [] ->
  forall out,
    _do_list_messages can_db args vfs out
    = for_each (list_message can_db (negb (Args.skip_format_specifics args)) vfs)
               names out.
Proof.
  intros Hnames Hne out. unfold _do_list_messages. cbv zeta.
  unfold mbind at 1, IO_bind at 1.
  assert ((if Args.print_all args
           then lift (sort_names (append_message_names can_db args
                                    (map Some (Args.items args))))
           else mret (map Some (Args.items args))) out = (out, Ok names)) as ->.
  { destruct (Args.print_all args); unfold lift, mret, IO_ret; rewrite ?Hnames;
      [reflexivity | congruence]. }
  destruct names as [|n names]; [contradiction | reflexivity].
Qed.


End ListingFacts.

(** * The theorems at the sample database *)

(** [_format_val] on the examples of its docstring, with the empty format
    specifier. *)
Lemma format_val_sample :
  @_format_val sample_externals (Some (VInt 300)) "km/h" "" = Ok "300 km/h"
  /\ @_format_val sample_externals (Some (VStr "IAmAnEnum")) "m" "" = Ok "IAmAnEnum"
  /\ @_format_val sample_externals (Some (VInt 7)) "" "" = Ok "7"
  /\ @_format_val sample_externals None "m" ".2f" = Ok "None".
Proof. repeat split; reflexivity. Qed.

(** The whole listing of a container and of the message it may contain. *)
Example container_listing :
  printed (@_print_message sample_externals message_box "" true "")
  = [ "Box:";
      "  Comment[None]: All parts";
      "  Bus: Body";
      "  Sending ECUs: Door, Gateway";
      "  Frame ID: 0x200 (512)";
      "  Maximum Size: 10 bytes";
      "  Is extended frame: False";
      "  Is CAN-FD frame: True";
      "  Cycle time: 100 ms";
      "  Potentially contained messages:";
      "";
      "    Part (0xab)";
      "";
      "  Potentially contained message details:";
      "    Part:";
      "      Header ID: 0xab (171)";
      "      Size: 2 bytes" ]
  /\ outcome (@_print_message sample_externals message_box "" true "") = Ok ().
Proof. split; vm_compute; reflexivity. Qed.

(** C5 (counterexample): the signal [Mode] of the gear message has
    [is_multiplexer] true and is no float, yet no signal names it as its
    selector, and its [Internal type] line reads [Integer], not
    [Multiplex Selector]. *)
Lemma selector_without_dependents_is_integer :
  Signal.is_multiplexer signal_mode = true
  /\ Signal.is_float signal_mode = false
  /\ signal_mode ∈ Message.signals message_gear
  /\ signal_type message_gear signal_mode = "Integer"
  /\ "      Internal type: Integer"
     ∈ printed (@_print_message sample_externals message_gear "" true "")
  /\ "      Internal type: Multiplex Selector"
     ∉ printed (@_print_message sample_externals message_gear "" true "").
Proof.
  split; [reflexivity |]. split; [reflexivity |]. split; [constructor |].
  split; [reflexivity |].
  split; apply (bool_decide_unpack _); vm_compute; exact I.
Qed.

(** The listing of the message [Half] gets to its third signal and fails
    there. *)
Lemma half_reaches_speed : @reaches sample_externals message_half "" true "" [signal_mux].
Proof.
  split; [vm_compute; reflexivity |].
  intros s Hs. apply list_elem_of_singleton in Hs. subst s. vm_compute. reflexivity.
Defined.

Example half_listing_fails :
  outcome (@_print_message sample_externals message_half "" true "")
  = Raise (KeyError "Gone").
Proof. vm_compute. reflexivity. Qed.

(** C5 (witness): [internal_type_line] at the signal [Speed] of the
    message [Half], whose listing fails at the signal after it; the last
    conjunct is its conclusion there. *)
Lemma internal_type_line_witness :
  Message.signals message_half = [signal_mux] ++ signal_speed :: [signal_adrift]
  /\ @reaches sample_externals message_half "" true "" [signal_mux]
  /\ ltac:(match type of (@internal_type_line sample_externals message_half
                            "" true "" [signal_mux] signal_speed [signal_adrift]) with
           | _ -> _ -> ?C => exact C
           end).
Proof.
  split; [reflexivity |]. split; [exact half_reaches_speed |].
  apply (@internal_type_line sample_externals message_half "" true ""
           [signal_mux] signal_speed [signal_adrift]);
    [reflexivity | exact half_reaches_speed].
Defined.

(** C4 (counterexample): the signal [Orphan] has a [multiplexer_signal]
    and one entry in [multiplexer_ids], yet no selector value is printed
    for it: the lookup of the selector [Gone] raises, and the listing ends
    after the line naming the selector. *)
Lemma missing_selector_prints_no_values :
  signal_orphan ∈ Message.signals message_orphan
  /\ Signal.multiplexer_signal signal_orphan = Some "Gone"
  /\ Signal.multiplexer_ids signal_orphan = Some [1]
  /\ printed (@_print_message sample_externals message_orphan "" true "")
     = [ "Lost:";
         "  Frame ID: 0x7 (7)";
         "  Size: 8 bytes";
         "  Is extended frame: False";
         "  Is CAN-FD frame: False";
         "  Signal tree:";
         "";
         "    ";
         "";
         "  Signal details:";
         "    Orphan:";
         "      Internal type: Integer";
         "      Selector signal: Gone" ]
  /\ outcome (@_print_message sample_externals message_orphan "" true "")
     = Raise (KeyError "Gone").
Proof.
  split; [constructor |]. split; [reflexivity |]. split; [reflexivity |].
  split; vm_compute; reflexivity.
Qed.

(** C4 (witness): [selector_values_line] at the multiplexed signal [Speed]
    of the message [Half], whose selector values print as [Off, On, 7]; the
    last conjunct is its conclusion there. *)
Lemma selector_values_line_witness :
  Message.signals message_half = [signal_mux] ++ signal_speed :: [signal_adrift]
  /\ @reaches sample_externals message_half "" true "" [signal_mux]
  /\ Signal.multiplexer_signal signal_speed = Some "Mux"
  /\ ltac:(match type of (@selector_values_line sample_externals message_half
                            "" true "" [signal_mux] signal_speed [signal_adrift]
                            "Mux") with
           | _ -> _ -> _ -> ?C => exact C
           end).
Proof.
  split; [reflexivity |]. split; [exact half_reaches_speed |].
  split; [reflexivity |].
  apply (@selector_values_line sample_externals message_half "" true ""
           [signal_mux] signal_speed [signal_adrift] "Mux");
    [reflexivity | exact half_reaches_speed | reflexivity].
Defined.

(** C8 (counterexample): the signal [Adrift] has the offset 40 and the
    scale 2 and its block is printed, yet neither an [Offset] nor a
    [Scaling factor] line is: the lookup of its selector raises before the
    scaling step. *)
Lemma failed_block_prints_no_scaling :
  signal_adrift ∈ Message.signals message_adrift
  /\ Signal.offset signal_adrift = Some (NInt 40)
  /\ num_ne_int (NInt 40) 0 = true
  /\ Signal.scale signal_adrift = Some (NInt 2)
  /\ printed (@_print_message sample_externals message_adrift "" true "")
     = [ "Adrift:";
         "  Frame ID: 0x8 (8)";
         "  Size: 8 bytes";
         "  Is extended frame: False";
         "  Is CAN-FD frame: False";
         "  Signal tree:";
         "";
         "    ";
         "";
         "  Signal details:";
         "    Adrift:";
         "      Internal type: Integer";
         "      Selector signal: Gone" ]
  /\ outcome (@_print_message sample_externals message_adrift "" true "")
     = Raise (KeyError "Gone").
Proof.
  split; [constructor |]. split; [reflexivity |]. split; [reflexivity |].
  split; [reflexivity |]. split; vm_compute; reflexivity.
Qed.

(** C8 (witness): [scaling_lines] at the signal [Speed], of scale 2 and
    without offset, of the message [Half]; the last conjunct is its
    conclusion there. *)
Lemma scaling_lines_witness :
  Message.signals message_half = [signal_mux] ++ signal_speed :: [signal_adrift]
  /\ @reaches sample_externals message_half "" true "" [signal_mux]
  /\ outcome (print_signal_selector message_half "" signal_speed) = Ok ()
  /\ outcome (@print_signal_layout sample_externals "" "" signal_speed) = Ok ()
  /\ ltac:(match type of (@scaling_lines sample_externals message_half
                            "" true "" [signal_mux] signal_speed [signal_adrift]) with
           | _ -> _ -> _ -> _ -> ?C => exact C
           end).
Proof.
  split; [reflexivity |]. split; [exact half_reaches_speed |].
  split; [vm_compute; reflexivity |]. split; [vm_compute; reflexivity |].
  apply (@scaling_lines sample_externals message_half "" true ""
           [signal_mux] signal_speed [signal_adrift]);
    [reflexivity | exact half_reaches_speed
     | vm_compute; reflexivity | vm_compute; reflexivity].
Defined.



(** C7 (witness): [list_names_sorted] at the sample database with no
    requested names; the last conjunct is its conclusion there. *)
Lemma list_names_sorted_witness :
  Args.items (sample_args []) = []
  /\ Args.print_all (sample_args []) = false
  /\ Forall (fun m => is_Some (Message.name m)) (Database.messages sample_db)
  /\ ltac:(match type of (@list_names_sorted sample_externals sample_db
                            (sample_args []) "") with
           | _ -> _ -> _ -> ?C => exact C
           end).
Proof.
  assert (Forall (fun m => is_Some (Message.name m)) (Database.messages sample_db))
    as Hnamed by (repeat constructor; eexists; reflexivity).
  split; [reflexivity |]. split; [reflexivity |]. split; [exact Hnamed |].
  apply (@list_names_sorted sample_externals sample_db (sample_args []) "");
    [reflexivity | reflexivity | exact Hnamed].
Defined.

(** * Further properties of the listing *)

(** ** Computations that return *)

Lemma returns_outcome (m : IO ()) : returns m -> outcome m = Ok ().
Proof. intros [_ [[] H]]. exact H. Qed.

Lemma returns_prints (m : IO ()) : returns m -> prints m (printed m).
Proof. intros Hm. apply appends_prints; [apply Hm | apply returns_outcome, Hm]. Qed.

Lemma prints_returns (m : IO ()) ls : prints m ls -> returns m.
Proof.
  intros Hm. split; [exact (prints_appends _ _ Hm) |].
  exists (). exact (prints_outcome _ _ Hm).
Qed.

Lemma returns_ret {A : Type} (a : A) : returns (mret a : IO A).
Proof. split; [apply appends_ret | exists a; reflexivity]. Qed.

Lemma returns_print s : returns (print s).
Proof. exact (prints_returns _ _ (prints_print s)). Qed.

Lemma returns_lift {A : Type} (r : result A) : (exists a, r = Ok a) -> returns (lift r).
Proof. intros [a ->]. split; [apply appends_lift | exists a; reflexivity]. Qed.

Lemma returns_bind {A B : Type} (m : IO A) (k : A -> IO B) :
  returns m -> (forall a, returns (k a)) -> returns (m ≫= k).
Proof.
  intros [Hm [a Ha]] Hk. split.
  - apply appends_bind; [exact Hm | intros b; apply Hk].
  - rewrite outcome_bind; [| exact Hm | intros b; apply Hk].
    rewrite Ha. apply Hk.
Qed.

Lemma returns_when b (m : IO ()) : returns m -> returns (when b m).
Proof. intros Hm. destruct b; [exact Hm | apply returns_ret]. Qed.

Lemma returns_for_each {A : Type} (body : A -> IO ()) l :
  (forall x, x ∈ l -> returns (body x)) -> returns (for_each body l).
Proof.
  induction l as [|x l IH]; intros Hbody.
  - apply returns_ret.
  - simpl. apply returns_bind.
    + apply Hbody. left.
    + intros _. apply IH. intros y Hy. apply Hbody. right. exact Hy.
Qed.

(** One step through a computation, for a property of computations that
    the sequence, the conditional and the loop preserve. *)
Ltac through bind ret cond each :=
  match goal with
  | |- ?p (mbind _ _) => apply bind; [| intros ?]
  | |- ?p (mret _) => apply ret
  | |- ?p (when _ _) => apply cond
  | |- ?p (for_each _ _) => apply each; intros ? ?
  | |- ?p (match ?x with _ => _ end) => destruct x
  | |- ?p (let _ := _ in _) => cbv zeta
  end.

(** Two computations that agree on every output agree under a sequence
    and under a loop. *)
Lemma bind_ext {A B : Type} (m m' : IO A) (k k' : A -> IO B) :
  (forall out, m out = m' out) -> (forall a out, k a out = k' a out) ->
  forall out, (m ≫= k) out = (m' ≫= k') out.
Proof.
  intros Hm Hk out. unfold mbind, IO_bind. rewrite Hm.
  destruct (m' out) as [out' [a|e]]; [apply Hk | reflexivity].
Qed.

Lemma for_each_ext {A : Type} (body body' : A -> IO ()) l :
  (forall x, x ∈ l -> forall out, body x out = body' x out) ->
  forall out, for_each body l out = for_each body' l out.
Proof.
  induction l as [|x l IH]; intros Hbody out; [reflexivity |].
  simpl. apply bind_ext.
  - apply Hbody. left.
  - intros _. apply IH. intros y Hy. apply Hbody. right. exact Hy.
Qed.

Lemma for_each_map {A B : Type} (f : A -> B) (body : B -> IO ()) l :
  for_each body (map f l) = for_each (fun x => body (f x)) l.
Proof. induction l as [|x l IH]; simpl; [| rewrite IH]; reflexivity. Qed.

(** A loop that skips some rounds prints the rounds it does not skip. *)
Lemma prints_for_each_skip {A : Type} (skip : A -> bool) (body : A -> IO ())
    (lines : A -> list string) l :
  (forall x, x ∈ l -> prints (body x) (lines x)) ->
  prints (for_each (fun x => if skip x then mret () else body x) l)
         (concat (map lines (List.filter (fun x => negb (skip x)) l))).
Proof.
  induction l as [|x l IH]; intros Hbody.
  - apply prints_ret.
  - assert (prints (for_each (fun x => if skip x then mret () else body x) l)
              (concat (map lines (List.filter (fun x => negb (skip x)) l)))) as IH'.
    { apply IH. intros y Hy. apply Hbody. right. exact Hy. }
    cbn [for_each List.filter]. destruct (skip x); cbn [negb].
    + apply (prints_bind _ _ []); [apply prints_ret | exact IH'].
    + cbn [map concat]. apply prints_bind; [apply Hbody; left | exact IH'].
Qed.

(** ** Buses and nodes *)

Lemma print_node_prints node :
  prints (_print_node node)
    ((Node.name node +:+ ":")
       :: match Node.comments node with
          | Some comments =>
              map (fun '(lang, text) =>
                     "  " +:+ "Comment[" +:+ str_opt id lang +:+ "]: " +:+ text)
                  comments
          | None => []
          end).
Proof.
  unfold _print_node. apply (prints_bind _ _ [_]); [apply prints_print |].
  destruct (Node.comments node); [apply prints_print_comments | apply prints_ret].
Qed.

Lemma print_bus_prints bus :
  prints (_print_bus bus)
    ((Bus.name bus +:+ ":")
       :: match Bus.comments bus with
          | Some comments =>
              map (fun '(lang, text) =>
                     "  " +:+ "Comment[" +:+ str_opt id lang +:+ "]: " +:+ text)
                  comments
          | None => []
          end
       ++ match Bus.baudrate bus with
          | Some baudrate => ["  Baudrate: " +:+ str_int baudrate]
          | None => []
          end
       ++ match Bus.fd_baudrate bus with
          | Some fd_baudrate =>
              ["  CAN-FD enabled: True"; "  FD Baudrate: " +:+ str_int fd_baudrate]
          | None => ["  CAN-FD enabled: False"]
          end).
Proof.
  unfold _print_bus. apply (prints_bind _ _ [_]); [apply prints_print |].
  apply prints_bind.
  { destruct (Bus.comments bus); [apply prints_print_comments | apply prints_ret]. }
  apply prints_bind.
  { destruct (Bus.baudrate bus); [apply prints_print | apply prints_ret]. }
  destruct (Bus.fd_baudrate bus).
  - apply (prints_bind _ _ [_] [_]); apply prints_print.
  - apply prints_print.
Qed.

(** Whether a name passes the test of the two loops. *)
Lemma requested_iff (names : list string) (name : string) :
  negb (truthy_list names && negb (bool_decide (name ∈ names)))
  = bool_decide (names = [] \/ name ∈ names).
Proof.
  destruct names as [|n names].
  - symmetry. apply bool_decide_eq_true_2. left. reflexivity.
  - cbn [truthy_list andb]. rewrite negb_involutive.
    apply bool_decide_ext. split; [auto | intros [H|H]; [discriminate | exact H]].
Qed.

Lemma do_list_buses_prints can_db args :
  prints (_do_list_buses can_db args)
    (concat (map (fun bus => printed (_print_bus bus))
               (List.filter
                  (fun bus => bool_decide (Args.items args = []
                                           \/ Bus.name bus ∈ Args.items args))
                  (CanDb.buses can_db)))).
Proof.
  unfold _do_list_buses. cbv zeta.
  erewrite <- (filter_ext _ (fun bus => bool_decide _)).
  2:{ intros bus. apply (requested_iff (Args.items args) (Bus.name bus)). }
  apply (prints_for_each_skip
           (fun bus => truthy_list (Args.items args)
                       && negb (bool_decide (Bus.name bus ∈ Args.items args)))).
  intros bus _. rewrite (prints_printed _ _ (print_bus_prints bus)).
  apply print_bus_prints.
Qed.

Lemma do_list_nodes_prints can_db args :
  prints (_do_list_nodes can_db args)
    (concat (map (fun node => printed (_print_node node))
               (List.filter
                  (fun node => bool_decide (Args.items args = []
                                            \/ Node.name node ∈ Args.items args))
                  (CanDb.nodes can_db)))).
Proof.
  unfold _do_list_nodes. cbv zeta.
  erewrite <- (filter_ext _ (fun node => bool_decide _)).
  2:{ intros node. apply (requested_iff (Args.items args) (Node.name node)). }
  apply (prints_for_each_skip
           (fun node => truthy_list (Args.items args)
                        && negb (bool_decide (Node.name node ∈ Args.items args)))).
  intros node _. rewrite (prints_printed _ _ (print_node_prints node)).
  apply print_node_prints.
Qed.

(** X1: the listing of the buses never raises.  It prints the buses whose
    name is among the requested names, or every bus when no name is
    requested, in the order of the database and whatever the order of the
    request; the block of a bus starts with the line of its name.  A
    requested name that no bus bears prints nothing: there is no notice
    as there is for a message. *)
Theorem list_buses_selection can_db args :
  outcome (_do_list_buses can_db args) = Ok ()
  /\ printed (_do_list_buses can_db args)
     = concat (map (fun bus => printed (_print_bus bus))
                 (List.filter
                    (fun bus => bool_decide (Args.items args = []
                                             \/ Bus.name bus ∈ Args.items args))
                    (CanDb.buses can_db)))
  /\ (forall bus, exists rest,
         printed (_print_bus bus) = (Bus.name bus +:+ ":") :: rest)
  /\ ((forall bus, bus ∈ CanDb.buses can_db -> Bus.name bus ∉ Args.items args) ->
      Args.items args <> [] ->
      printed (_do_list_buses can_db args) = []).
Proof.
  pose proof (do_list_buses_prints can_db args) as Hp.
  rewrite (prints_outcome _ _ Hp), (prints_printed _ _ Hp).
  split; [reflexivity |]. split; [reflexivity |]. split.
  - intros bus. rewrite (prints_printed _ _ (print_bus_prints bus)).
    eexists. reflexivity.
  - intros Hnone Hne. clear Hp. revert Hnone.
    induction (CanDb.buses can_db) as [|bus l IH]; intros Hnone; [reflexivity |].
    cbn [List.filter]. rewrite bool_decide_eq_false_2.
    + apply IH. intros b Hb. apply Hnone. right. exact Hb.
    + intros [H|H]; [contradiction | apply (Hnone bus); [left | exact H]].
Qed.


(** X3: the listings of the buses and of the nodes read the requested
    names as a set: two requests with the same names, in any order and
    with any repetitions, print the same. *)
Theorem bus_and_node_request_is_a_set can_db args args' :
  (forall name, name ∈ Args.items args <-> name ∈ Args.items args') ->
  printed (_do_list_buses can_db args) = printed (_do_list_buses can_db args')
  /\ printed (_do_list_nodes can_db args) = printed (_do_list_nodes can_db args').
Proof.
  intros Hsame.
  assert (Args.items args = [] <-> Args.items args' = []) as Hnil.
  { destruct (Args.items args) as [|a l], (Args.items args') as [|b l'];
      split; intros H; try reflexivity; try discriminate; exfalso.
    - eapply not_elem_of_nil. apply Hsame. left.
    - eapply not_elem_of_nil. apply Hsame. left. }
  rewrite (prints_printed _ _ (do_list_buses_prints can_db args)),
    (prints_printed _ _ (do_list_buses_prints can_db args')),
    (prints_printed _ _ (do_list_nodes_prints can_db args)),
    (prints_printed _ _ (do_list_nodes_prints can_db args')).
  split; f_equal; f_equal; apply filter_ext; intros x; apply bool_decide_ext;
    rewrite Hnil, Hsame; reflexivity.
Qed.

(** Appending a colon gives no string that ends otherwise. *)
Lemma colon_last (s t : string) (c : ascii) :
  c <> ":"%char -> s +:+ ":" <> t +:+ String c "".
Proof.
  intros Hc. revert t. induction s as [|a s IH]; intros [|b t]; simpl; intros Heq.
  - injection Heq as Heq. apply Hc. symmetry. exact Heq.
  - injection Heq as _ Heq. destruct t; discriminate.
  - injection Heq as _ Heq. destruct s; discriminate.
  - injection Heq as _ Heq. exact (IH t Heq).
Qed.

(** ** Output lines *)

Lemma string_app_assoc (a b c : string) : (a +:+ b) +:+ c = a +:+ (b +:+ c).
Proof.
  induction a as [|x a IH]; [reflexivity |].
  change ((String x a +:+ b) +:+ c) with (String x ((a +:+ b) +:+ c)).
  rewrite IH. reflexivity.
Qed.

Lemma single_line_app (a b : string) :
  single_line (a +:+ b) = single_line a && single_line b.
Proof.
  induction a as [|c a IH]; [reflexivity |].
  change (String c a +:+ b) with (String c (a +:+ b)). cbn [single_line].
  rewrite IH, andb_assoc. reflexivity.
Qed.

Lemma split_lines_aux_single (s : string) : forall cur,
  single_line s = true -> split_lines_aux cur s = [cur +:+ s].
Proof.
  induction s as [|c s IH]; intros cur Hs; cbn [split_lines_aux].
  - f_equal. induction cur as [|x cur IHc]; [reflexivity |].
    change (String x cur +:+ "") with (String x (cur +:+ "")).
    rewrite <- IHc. reflexivity.
  - cbn [single_line] in Hs. apply andb_true_iff in Hs as [Hc Hs].
    apply negb_true_iff in Hc. rewrite Hc, (IH _ Hs), string_app_assoc.
    reflexivity.
Qed.

Lemma split_lines_single (s : string) : single_line s = true -> split_lines s = [s].
Proof. intros Hs. unfold split_lines. rewrite split_lines_aux_single by exact Hs. reflexivity. Qed.

(** Output whose every argument is a single line is the list of its
    lines. *)
Lemma output_lines_single (out : stdout) :
  Forall (fun s => single_line s = true) out -> output_lines out = out.
Proof.
  unfold output_lines. induction 1 as [|s out Hs _ IH]; [reflexivity |].
  cbn [map concat]. rewrite IH, (split_lines_single s Hs). reflexivity.
Qed.

Lemma single_line_uint (d : Decimal.uint) :
  single_line (DecimalString.NilEmpty.string_of_uint d) = true.
Proof. induction d; simpl; try exact IHd; reflexivity. Qed.

Lemma single_line_str_int (z : Z) : single_line (str_int z) = true.
Proof.
  unfold str_int, DecimalString.NilZero.string_of_int,
    DecimalString.NilZero.string_of_uint.
  destruct (Z.to_int z) as [d|d]; destruct d; cbn [single_line];
    rewrite ?single_line_uint; reflexivity.
Qed.

Lemma comment_lines_single (pre : string) comments :
  single_line pre = true ->
  Forall (fun '(lang, text) =>
            single_line (str_opt id lang) = true /\ single_line text = true)
         comments ->
  Forall (fun s => single_line s = true)
         (map (fun '(lang, text) =>
                 pre +:+ "Comment[" +:+ str_opt id lang +:+ "]: " +:+ text)
              comments).
Proof.
  intros Hpre. induction 1 as [|[lang text] comments [Hlang Htext] _ IH];
    [constructor |].
  cbn [map]. constructor; [| exact IH].
  rewrite !single_line_app, Hpre, Hlang, Htext. reflexivity.
Qed.

(** X4: for a bus whose name and comments hold no newline, [_print_bus]
    never raises and tells whether the bus is a CAN-FD one by exactly one
    line of its output: [CAN-FD enabled: True] is a line of the output
    exactly when [fd_baudrate] is set, and is then followed by the
    [FD Baudrate] line, the last one; [CAN-FD enabled: False] is a line of
    the output, the last one, exactly when it is not set. *)
Theorem print_bus_can_fd_line bus :
  single_line (Bus.name bus) = true ->
  (forall comments,
      Bus.comments bus = Some comments ->
      Forall (fun '(lang, text) =>
                single_line (str_opt id lang) = true /\ single_line text = true)
             comments) ->
  let lines := output_lines (printed (_print_bus bus)) in
  outcome (_print_bus bus) = Ok ()
  /\ ("  CAN-FD enabled: True" ∈ lines <-> is_Some (Bus.fd_baudrate bus))
  /\ ("  CAN-FD enabled: False" ∈ lines <-> Bus.fd_baudrate bus = None)
  /\ exists front,
       lines
       = front ++ match Bus.fd_baudrate bus with
                  | Some fd_baudrate =>
                      [ "  CAN-FD enabled: True";
                        "  FD Baudrate: " +:+ str_int fd_baudrate ]
                  | None => [ "  CAN-FD enabled: False" ]
                  end.
Proof.
  intros Hname Hcomments lines.
  pose proof (print_bus_prints bus) as Hp.
  assert (lines = printed (_print_bus bus)) as ->.
  { unfold lines. apply output_lines_single.
    rewrite (prints_printed _ _ Hp).
    constructor.
    { rewrite single_line_app, Hname. reflexivity. }
    apply Forall_app. split; [| apply Forall_app; split].
    - destruct (Bus.comments bus) as [comments|]; [| constructor].
      apply (comment_lines_single "  " comments eq_refl), Hcomments. reflexivity.
    - destruct (Bus.baudrate bus); repeat constructor.
      rewrite single_line_app, single_line_str_int. reflexivity.
    - destruct (Bus.fd_baudrate bus); repeat constructor.
      rewrite single_line_app, single_line_str_int. reflexivity. }
  rewrite (prints_outcome _ _ Hp), (prints_printed _ _ Hp).
  split; [reflexivity |].
  assert (forall line : string,
             (exists w, line = ("  CAN-FD enabled: " +:+ w) /\ (w = "True" \/ w = "False")) ->
             line ∉ (Bus.name bus +:+ ":")
                      :: match Bus.comments bus with
                         | Some comments =>
                             map (fun '(lang, text) =>
                                    "  " +:+ "Comment[" +:+ str_opt id lang +:+ "]: "
                                    +:+ text) comments
                         | None => []
                         end
                      ++ match Bus.baudrate bus with
                         | Some baudrate => ["  Baudrate: " +:+ str_int baudrate]
                         | None => []
                         end) as Hfront.
  { intros line (w & -> & Hw) Hin.
    apply elem_of_cons in Hin as [Hin | Hin].
    - destruct Hw as [-> | ->].
      + apply (colon_last (Bus.name bus) "  CAN-FD enabled: Tru" "e");
          [discriminate | symmetry; exact Hin].
      + apply (colon_last (Bus.name bus) "  CAN-FD enabled: Fals" "e");
          [discriminate | symmetry; exact Hin].
    - apply elem_of_app in Hin as [Hin | Hin].
      + destruct (Bus.comments bus) as [comments|]; [| inversion Hin].
        apply list_elem_of_In, in_map_iff in Hin as ([lang text] & Heq & _).
        destruct Hw as [-> | ->]; discriminate.
      + destruct (Bus.baudrate bus); [| inversion Hin].
        apply list_elem_of_singleton in Hin.
        destruct Hw as [-> | ->]; discriminate. }
  assert (forall (x : string) (l1 l2 : list string),
             x ∈ (Bus.name bus +:+ ":") :: l1 ++ l2
             <-> x ∈ ((Bus.name bus +:+ ":") :: l1) ++ l2) as Hsplit.
  { intros. rewrite app_comm_cons. reflexivity. }
  split; [| split].
  - rewrite app_assoc, Hsplit, elem_of_app. split.
    + intros [Hin | Hin].
      * exfalso. revert Hin. apply Hfront. exists "True". auto.
      * destruct (Bus.fd_baudrate bus); [eexists; reflexivity |].
        apply list_elem_of_singleton in Hin. discriminate.
    + intros [fd ->]. right. left.
  - rewrite app_assoc, Hsplit, elem_of_app. split.
    + intros [Hin | Hin].
      * exfalso. revert Hin. apply Hfront. exists "False". auto.
      * destruct (Bus.fd_baudrate bus) as [fd|]; [| reflexivity].
        apply elem_of_cons in Hin as [Hin | Hin]; [discriminate |].
        apply list_elem_of_singleton in Hin. discriminate.
    + intros ->. right. left.
  - eexists (_ :: _ ++ _). rewrite <- app_comm_cons, <- app_assoc. reflexivity.
Qed.

Ltac appends_listing :=
  repeat first
    [ apply appends_print_message_heading | apply appends_print_message_id
    | apply appends_print_message_cycle_time | apply appends_print_message_autosar
    | apply appends_print_message_signal_tree | apply appends_print_contained_name
    | apply appends_print_signal_heading | apply appends_print_signal_selector
    | apply appends_print_signal_layout | apply appends_print_signal_scaling
    | apply appends_print_signal_choices
    | apply appends_print_signal | apply appends__print_message
    | appends_step ].

Section SubcommandFacts.
Context `{!Externals} `{!Loader}.

(** ** [_do_list] *)

(** X5: [_do_list] can fail in two ways only.  Either [load_file] raises,
    and then nothing is printed and its exception is passed on; or the
    file holds a CAN database, neither the buses nor the nodes are asked
    for, and the listing of the messages raises, and then its exception
    and its output are those of [_do_list].  The notice for a diagnostics
    database and the listings of the buses and of the nodes never fail. *)
Theorem do_list_failure args vfs e :
  outcome (_do_list args vfs) = Raise e ->
  let load :=
    load_file (Command.input_file_name args) (Command.prune args)
              (negb (Command.no_strict args)) in
  (load = Raise e /\ printed (_do_list args vfs) = [])
  \/ (exists can_db,
         load = Ok (CanDatabase can_db)
         /\ Command.print_buses args = false
         /\ Command.print_nodes args = false
         /\ outcome (_do_list_messages (CanDb.database can_db) (Command.args args) vfs)
            = Raise e
         /\ printed (_do_list args vfs)
            = printed (_do_list_messages (CanDb.database can_db) (Command.args args)
                                         vfs)).
Proof.
  intros Hraise load. revert Hraise.
  unfold _do_list, outcome, printed. cbv zeta. fold load.
  unfold mbind, IO_bind, lift.
  destruct load as [[can_db|]|e'].
  - destruct (Command.print_buses args).
    { rewrite (do_list_buses_prints can_db (Command.args args) []). discriminate. }
    destruct (Command.print_nodes args).
    { rewrite (do_list_nodes_prints can_db (Command.args args) []). discriminate. }
    intros Hraise. right. exists can_db. auto.
  - discriminate.
  - intros Hraise. left. simpl in Hraise. split; [congruence | reflexivity].
Qed.

(** ** Listings that return *)

Lemma listable_unfold message :
  listable message
  = forallb (fun signal =>
               match Signal.multiplexer_signal signal with
               | Some multiplexer_signal =>
                   match get_signal_by_name message multiplexer_signal with
                   | Ok _ => true
                   | Raise _ => false
                   end
               | None => true
               end)
            (Message.signals message)
    && match Message.contained_messages message with
       | Some contained_messages =>
           forallb (fun contained_message =>
                      is_some (Message.header_id contained_message)
                      && listable contained_message)
                   contained_messages
       | None => true
       end.
Proof. destruct message. reflexivity. Qed.

Lemma print_contained_name_ok indent cm :
  outcome (print_contained_name indent cm) = Ok () ->
  is_some (Message.header_id cm) = true.
Proof.
  unfold print_contained_name, outcome, mbind, IO_bind, lift.
  destruct (Message.name cm), (Message.header_id cm); simpl; congruence.
Qed.

(** X6: a listing of a message that returns has found every selector and
    every header identifier it reads: each [multiplexer_signal] names a
    signal of its message and each message that may be contained has a
    [header_id], at every depth.  A message for which this fails cannot
    be listed, whatever the format specifier and the indent. *)
Theorem listing_needs_listable message :
  forall indent pfs vfs,
    outcome (_print_message message indent pfs vfs) = Ok () ->
    listable message = true.
Proof.
  induction message as [message IH] using Message_nested_ind.
  intros indent pfs vfs Hok. rewrite _print_message_unfold in Hok.
  do 5 (apply bind_ok_inv in Hok as (_ & Hok & _); [| solve [appends_listing] ..]).
  apply bind_ok_inv in Hok as (Hcont & Hok & _); [| solve [appends_listing] ..].
  apply bind_ok_inv in Hok as (_ & Hsig & _); [| solve [appends_listing] ..].
  apply for_each_ok_inv in Hsig as [Hsig _]; [| intros; apply appends_print_signal].
  rewrite listable_unfold. apply andb_true_intro. split.
  - apply forallb_forall. intros signal Hin. apply list_elem_of_In in Hin.
    specialize (Hsig signal Hin). unfold print_signal in Hsig.
    apply bind_ok_inv in Hsig as (_ & Hsig & _); [| solve [appends_listing] ..].
    apply bind_ok_inv in Hsig as (Hsel & _ & _); [| solve [appends_listing] ..].
    destruct (Signal.multiplexer_signal signal) as [mux|] eqn:Hmux; [| reflexivity].
    destruct (print_signal_selector_ok _ _ _ _ Hmux Hsel) as (sel & -> & _).
    reflexivity.
  - destruct (Message.contained_messages message) as [cms|] eqn:Hc; [| reflexivity].
    specialize (IH cms eq_refl). rewrite Forall_forall in IH.
    assert (forall cm, cm ∈ cms -> appends (_print_message cm "    " pfs ""))
      as Happ by (intros; apply appends__print_message).
    do 2 (apply bind_ok_inv in Hcont as (_ & Hcont & _);
          [| solve [appends_listing] ..]).
    apply bind_ok_inv in Hcont as (Hnames & Hcont & _); [| solve [appends_listing] ..].
    do 2 (apply bind_ok_inv in Hcont as (_ & Hcont & _);
          [| solve [appends_listing] ..]).
    apply for_each_ok_inv in Hnames as [Hnames _];
      [| intros; apply appends_print_contained_name].
    apply for_each_ok_inv in Hcont as [Hcont _]; [| exact Happ].
    apply forallb_forall. intros cm Hin. apply list_elem_of_In in Hin.
    apply andb_true_intro. split.
    + apply (print_contained_name_ok indent), Hnames, Hin.
    + apply (IH cm Hin "    " pfs ""), Hcont, Hin.
Qed.

Lemma format_val_total vfs :
  (forall v, exists s, py_format v vfs = Ok s) ->
  forall val unit, exists s, _format_val val unit vfs = Ok s.
Proof.
  intros Htotal [v|] unit; [| eexists; reflexivity].
  unfold _format_val. destruct (Htotal v) as [s Hs].
  destruct (negb (truthy_str unit) || is_enumeration v).
  - exists s. exact Hs.
  - rewrite Hs. eexists. reflexivity.
Qed.

Lemma returns_print_value pre label v unit vfs :
  (forall v, exists s, py_format v vfs = Ok s) ->
  returns (print_value pre label v unit vfs).
Proof.
  intros Htotal. unfold print_value. destruct v; [| apply returns_ret].
  apply returns_bind; [apply returns_lift, format_val_total, Htotal |].
  intros. apply returns_print.
Qed.

Lemma returns_print_signal message indent vfs signal :
  (forall v, exists s, py_format v vfs = Ok s) ->
  match Signal.multiplexer_signal signal with
  | Some mux => exists sel, get_signal_by_name message mux = Ok sel
  | None => True
  end ->
  returns (print_signal message indent vfs signal).
Proof.
  intros Htotal Hsel. unfold print_signal.
  apply returns_bind;
    [exact (prints_returns _ _ (print_signal_heading_prints _ _ _)) | intros _].
  apply returns_bind; [| intros _].
  { unfold print_signal_selector.
    destruct (Signal.multiplexer_signal signal); [| apply returns_ret].
    apply returns_bind; [apply returns_print | intros _].
    apply returns_bind; [apply returns_lift, Hsel | intros sel].
    apply returns_print. }
  apply returns_bind; [| intros _].
  { unfold print_signal_layout.
    repeat first [ apply returns_print_value; exact Htotal | apply returns_print
                 | through (@returns_bind) (@returns_ret) returns_when (@returns_for_each) ]. }
  apply returns_bind; [| intros _].
  { unfold print_signal_scaling. cbv zeta.
    destruct (has_offset signal || has_scale signal); [| apply returns_ret].
    apply returns_bind; [apply returns_lift, format_val_total, Htotal | intros o].
    apply returns_bind; [apply returns_print | intros _].
    apply returns_bind; [apply returns_lift, format_val_total, Htotal | intros s].
    apply returns_print. }
  unfold print_signal_choices.
  repeat first [ apply returns_print | through (@returns_bind) (@returns_ret) returns_when (@returns_for_each) ].
Qed.

(** X7: with a format specifier under which every value formats, and the
    empty one, used for the contained messages, doing so too, the listing
    of a message returns as soon as each [multiplexer_signal] names a
    signal of its message and each message that may be contained has a
    [header_id], at every depth. *)
Theorem listable_message_returns message :
  (forall v, exists s, py_format v "" = Ok s) ->
  forall indent pfs vfs,
    (forall v, exists s, py_format v vfs = Ok s) ->
    listable message = true ->
    outcome (_print_message message indent pfs vfs) = Ok ().
Proof.
  intros Hplain indent pfs vfs Htotal Hlistable. apply returns_outcome.
  revert indent pfs vfs Htotal Hlistable.
  induction message as [message IH] using Message_nested_ind.
  intros indent pfs vfs Htotal Hlistable.
  rewrite listable_unfold in Hlistable.
  apply andb_true_iff in Hlistable as [Hsignals Hcontained].
  rewrite forallb_forall in Hsignals.
  rewrite _print_message_unfold.
  apply returns_bind;
    [exact (prints_returns _ _ (print_message_heading_prints _ _)) | intros _].
  apply returns_bind;
    [exact (prints_returns _ _ (print_message_id_prints _ _)) | intros _].
  apply returns_bind; [| intros _].
  { unfold print_message_cycle_time.
    destruct (Message.cycle_time message); [| apply returns_ret].
    apply returns_bind; [apply returns_lift, format_val_total, Htotal | intros s].
    apply returns_print. }
  apply returns_bind; [| intros _].
  { unfold print_message_autosar.
    repeat first [ apply returns_print | through (@returns_bind) (@returns_ret) returns_when (@returns_for_each) ]. }
  apply returns_bind; [| intros _].
  { unfold print_message_signal_tree.
    repeat first [ apply returns_print | through (@returns_bind) (@returns_ret) returns_when (@returns_for_each) ]. }
  apply returns_bind; [| intros _].
  { destruct (Message.contained_messages message) as [cms|] eqn:Hc;
      [| apply returns_ret].
    specialize (IH cms eq_refl). rewrite Forall_forall in IH.
    rewrite forallb_forall in Hcontained.
    apply returns_bind; [apply returns_print | intros _].
    apply returns_bind; [apply returns_print | intros _].
    apply returns_bind; [| intros _].
    { apply returns_for_each. intros cm Hin.
      apply list_elem_of_In, Hcontained, andb_true_iff in Hin as [Hid _].
      unfold print_contained_name.
      destruct (Message.header_id cm) as [h|]; [| discriminate].
      destruct (Message.name cm);
        (apply returns_bind;
         [apply returns_lift; eexists; reflexivity | intros; apply returns_print]). }
    apply returns_bind; [apply returns_print | intros _].
    apply returns_bind; [apply returns_print | intros _].
    apply returns_for_each. intros cm Hin.
    apply (IH cm Hin "    " pfs "" Hplain).
    apply list_elem_of_In, Hcontained, andb_true_iff in Hin as [_ Hl]. exact Hl. }
  apply returns_bind; [apply returns_when, returns_print | intros _].
  apply returns_for_each. intros signal Hin.
  apply returns_print_signal; [exact Htotal |].
  apply list_elem_of_In, Hsignals in Hin.
  destruct (Signal.multiplexer_signal signal) as [mux|]; [| exact I].
  destruct (get_signal_by_name message mux) as [sel|]; [| discriminate].
  exists sel. reflexivity.
Qed.

(** X8: a signal whose [multiplexer_signal] names no signal of the
    message stops the listing: its block ends after the [Selector signal]
    line with the [KeyError] of the lookup, which nothing catches, so that
    the listing of the message does not return. *)
Theorem missing_selector_raises message indent pfs vfs signal mux :
  signal ∈ Message.signals message ->
  Signal.multiplexer_signal signal = Some mux ->
  (forall s, s ∈ Message.signals message -> Signal.name s <> mux) ->
  outcome (print_signal message indent vfs signal) = Raise (KeyError mux)
  /\ printed (print_signal message indent vfs signal)
     = printed (print_signal_heading message indent signal)
       ++ [indent +:+ "      Selector signal: " +:+ mux]
  /\ outcome (_print_message message indent pfs vfs) <> Ok ().
Proof.
  intros Hin Hmux Hnone.
  assert (get_signal_by_name message mux = Raise (KeyError mux)) as Hget.
  { unfold get_signal_by_name.
    destruct (find _ _) as [s|] eqn:Hfind; [| reflexivity].
    apply find_some in Hfind as [Hs Heq]. apply String.eqb_eq in Heq.
    exfalso. apply (Hnone s); [apply list_elem_of_In, Hs | exact Heq]. }
  assert (outcome (print_signal_selector message indent signal) = Raise (KeyError mux)
          /\ printed (print_signal_selector message indent signal)
             = [indent +:+ "      Selector signal: " +:+ mux]) as [Hsel Hlines].
  { unfold print_signal_selector, outcome, printed. rewrite Hmux.
    unfold mbind, IO_bind, print, lift. rewrite Hget. split; reflexivity. }
  pose proof (print_signal_heading_prints message indent signal) as Hhead.
  split; [| split].
  - unfold print_signal.
    rewrite outcome_bind by appends_listing.
    rewrite (prints_outcome _ _ Hhead).
    rewrite outcome_bind by appends_listing.
    rewrite Hsel. reflexivity.
  - unfold print_signal.
    rewrite printed_bind by appends_listing.
    rewrite (prints_outcome _ _ Hhead).
    rewrite printed_bind by appends_listing.
    rewrite Hsel, Hlines, app_nil_r. reflexivity.
  - intros Hok.
    destruct (signal_block_in_listing _ _ _ _ _ Hin Hok) as (_ & _ & _ & Hsel' & _).
    rewrite Hsel in Hsel'. discriminate.
Qed.

(** X9: the details of the messages a container may contain are printed
    after the line announcing them, one message after the other in the
    order of [contained_messages], each with the fixed indent of four
    spaces and with the empty format specifier: neither the indent nor
    the format specifier of the container is passed on. *)
Theorem contained_details_fixed message indent pfs vfs cms :
  Message.contained_messages message = Some cms ->
  outcome (_print_message message indent pfs vfs) = Ok () ->
  exists before after,
    printed (_print_message message indent pfs vfs)
    = before
      ++ [indent +:+ "  Potentially contained message details:"]
      ++ concat (map (fun cm => printed (_print_message cm "    " pfs "")) cms)
      ++ after
    /\ Forall (fun cm => outcome (_print_message cm "    " pfs "") = Ok ()) cms
    /\ after
       = printed (when (truthy_list (Message.signals message))
                       (print (indent +:+ "  Signal details:")) ;;
                  for_each (print_signal message indent vfs) (Message.signals message)).
Proof.
  intros Hc Hok. rewrite _print_message_unfold in Hok.
  rewrite _print_message_unfold. rewrite Hc in Hok |- *.
  do 5 (apply bind_ok_inv in Hok as (_ & Hok & ->); [| solve [appends_listing] ..]).
  apply bind_ok_inv in Hok as (Hcont & Hok & ->); [| solve [appends_listing] ..].
  assert (forall cm, cm ∈ cms -> appends (_print_message cm "    " pfs ""))
    as Happ by (intros; apply appends__print_message).
  do 5 (apply bind_ok_inv in Hcont as (_ & Hcont & ->);
        [| solve [appends_listing] ..]).
  apply for_each_ok_inv in Hcont as [Hall ->]; [| exact Happ].
  lazymatch goal with
  | |- exists _ _, ?p1 ++ ?p2 ++ ?p3 ++ ?p4 ++ ?p5
                   ++ (?c1 ++ ?c2 ++ ?c3 ++ ?c4 ++ _ ++ _) ++ ?rest = _ /\ _ =>
      exists (p1 ++ p2 ++ p3 ++ p4 ++ p5 ++ c1 ++ c2 ++ c3 ++ c4), rest
  end.
  split; [| split; [| reflexivity]].
  - rewrite <- !app_assoc. reflexivity.
  - apply Forall_forall. exact Hall.
Qed.

(** X19: a listing of a message that returns ends with the details of
    its signals: the line [Signal details:], printed exactly when the
    message has signals, and then one block per signal, in the order of
    [signals], each starting with the line of the signal's name.  Nothing
    is printed after the block of the last signal. *)
Theorem signal_details_in_order message indent pfs vfs :
  outcome (_print_message message indent pfs vfs) = Ok () ->
  exists front,
    printed (_print_message message indent pfs vfs)
    = front
      ++ match Message.signals message with
         | [] => []
         | _ :: _ => [indent +:+ "  Signal details:"]
         end
      ++ concat (map (fun signal => printed (print_signal message indent vfs signal))
                   (Message.signals message))
    /\ forall signal,
         signal ∈ Message.signals message ->
         outcome (print_signal message indent vfs signal) = Ok ()
         /\ exists rest,
              printed (print_signal message indent vfs signal)
              = (indent +:+ "    " +:+ Signal.name signal +:+ ":") :: rest.
Proof.
  intros Hok. rewrite _print_message_unfold in Hok. rewrite _print_message_unfold.
  do 6 (apply bind_ok_inv in Hok as (_ & Hok & ->); [| solve [appends_listing] ..]).
  apply bind_ok_inv in Hok as (_ & Hok & ->); [| solve [appends_listing] ..].
  apply for_each_ok_inv in Hok as [Hall ->]; [| intros; apply appends_print_signal].
  lazymatch goal with
  | |- exists _, ?p1 ++ ?p2 ++ ?p3 ++ ?p4 ++ ?p5 ++ ?p6 ++ _ ++ _ = _ /\ _ =>
      exists (p1 ++ p2 ++ p3 ++ p4 ++ p5 ++ p6)
  end.
  split.
  - rewrite <- !app_assoc. do 6 f_equal.
    destruct (Message.signals message); reflexivity.
  - intros signal Hin. split; [apply Hall, Hin |].
    unfold print_signal.
    pose proof (print_signal_heading_prints message indent signal) as Hhead.
    rewrite printed_bind; [| exact (prints_appends _ _ Hhead) | appends_listing].
    rewrite (prints_printed _ _ Hhead). eexists. reflexivity.
Qed.

Lemma no_autosar_unfold message :
  no_autosar message
  = negb (is_some (Message.autosar message))
    && match Message.contained_messages message with
       | Some contained_messages => forallb no_autosar contained_messages
       | None => true
       end.
Proof. destruct message. reflexivity. Qed.

(** X10: [print_format_specifics] matters for the AUTOSAR specifics only:
    a message that has none, and that may contain only messages that have
    none, is listed the same with and without it, whatever was printed
    before. *)
Theorem format_specifics_only_autosar message :
  no_autosar message = true ->
  forall indent vfs pfs pfs' out,
    _print_message message indent pfs vfs out
    = _print_message message indent pfs' vfs out.
Proof.
  induction message as [message IH] using Message_nested_ind.
  intros Hnone indent vfs pfs pfs'.
  rewrite no_autosar_unfold in Hnone.
  apply andb_true_iff in Hnone as [Hnone Hcontained].
  rewrite !_print_message_unfold.
  do 3 (apply bind_ext; [reflexivity | intros _]).
  apply bind_ext.
  { unfold print_message_autosar.
    destruct (Message.autosar message); [discriminate | reflexivity]. }
  intros _. apply bind_ext; [reflexivity | intros _].
  apply bind_ext; [| reflexivity].
  destruct (Message.contained_messages message) as [cms|] eqn:Hc; [| reflexivity].
  specialize (IH cms eq_refl). rewrite Forall_forall in IH.
  rewrite forallb_forall in Hcontained.
  do 5 (apply bind_ext; [reflexivity | intros _]).
  apply for_each_ext. intros cm Hin.
  apply (IH cm Hin). apply Hcontained, list_elem_of_In, Hin.
Qed.

End SubcommandFacts.

Section ListMessagesFacts.
Context `{!Externals}.

(** ** [_do_list_messages] with [print_all] and with the two filters *)

Lemma kept_names_some can_db args :
  Forall (fun m => is_Some (Message.name m)) (Database.messages can_db) ->
  Forall is_Some (map Message.name (kept_messages can_db args)).
Proof.
  intros Hnamed. apply Forall_forall. intros x Hx.
  apply list_elem_of_In, in_map_iff in Hx as (m & <- & Hm).
  apply filter_In in Hm as [Hm _].
  rewrite Forall_forall in Hnamed. apply Hnamed, list_elem_of_In, Hm.
Qed.

(** Among messages of distinct names, a lookup by the name of a message
    finds that message. *)
Lemma get_message_by_name_unique can_db m :
  NoDup (map Message.name (Database.messages can_db)) ->
  m ∈ Database.messages can_db ->
  get_message_by_name can_db (Message.name m) = Ok m.
Proof.
  unfold get_message_by_name.
  induction (Database.messages can_db) as [|x l IH]; intros Hnodup Hin.
  - inversion Hin.
  - cbn [map] in Hnodup. apply NoDup_cons in Hnodup as [Hx Hnodup].
    cbn [find]. destruct (bool_decide (Message.name x = Message.name m)) eqn:Hd.
    + apply bool_decide_eq_true in Hd.
      apply elem_of_cons in Hin as [-> | Hin]; [reflexivity |].
      exfalso. apply Hx. rewrite Hd.
      apply list_elem_of_In, in_map, list_elem_of_In, Hin.
    + apply bool_decide_eq_false in Hd.
      apply elem_of_cons in Hin as [-> | Hin]; [contradiction |].
      apply IH; assumption.
Qed.

(** X11: with [print_all] and no requested names, over a database whose
    messages have distinct names, the listing consists of the details of
    the messages the two filters keep, each message once, in the
    lexicographic order of the names; no notice of a missing message is
    printed, and when the filters keep nothing, nothing is printed. *)
Theorem list_all_sorted can_db args vfs :
  Args.print_all args = true ->
  Args.items args = [] ->
  Forall (fun m => is_Some (Message.name m)) (Database.messages can_db) ->
  NoDup (map Message.name (Database.messages can_db)) ->
  let pfs := negb (Args.skip_format_specifics args) in
  (forall m, m ∈ kept_messages can_db args ->
             outcome (_print_message m "" pfs vfs) = Ok ()) ->
  exists msgs,
    msgs ≡ₚ kept_messages can_db args
    /\ Sorted str_le (omap Message.name msgs)
    /\ outcome (_do_list_messages can_db args vfs) = Ok ()
    /\ printed (_do_list_messages can_db args vfs)
       = concat (map (fun m => printed (_print_message m "" pfs vfs)) msgs).
Proof.
  intros Hall Hitems Hnamed Hnodup pfs Hprint.
  pose proof (kept_names_some can_db args Hnamed) as Hkept.
  set (names := sorted (omap id (map Message.name (kept_messages can_db args)))).
  assert (map Some names ≡ₚ map Message.name (kept_messages can_db args)) as Hperm.
  { unfold names, sorted. rewrite merge_sort_Permutation.
    rewrite map_Some_omap_id by exact Hkept. reflexivity. }
  destruct (Permutation_map_inv _ _ Hperm) as (msgs & Hmsgs & Hperm').
  exists msgs. split; [symmetry; exact Hperm' |]. split.
  { replace (omap Message.name msgs) with names.
    - apply Sorted_merge_sort. apply _.
    - clearbody names. clear -Hmsgs. revert names Hmsgs.
      induction msgs as [|m msgs IH]; intros [|n names] Hmsgs;
        try discriminate; [reflexivity |].
      cbn [map] in Hmsgs. injection Hmsgs as Hn Hmsgs.
      cbn. rewrite <- Hn. cbn. f_equal. apply IH, Hmsgs. }
  assert (prints (_do_list_messages can_db args vfs)
                 (concat (map (fun m => printed (_print_message m "" pfs vfs)) msgs)))
    as Hprints.
  { intros out. unfold _do_list_messages. cbv zeta. rewrite Hall, Hitems.
    unfold mbind at 1, IO_bind at 1, lift at 1. cbn [map].
    rewrite append_message_names_filter. cbn [app].
    fold (kept_messages can_db args).
    rewrite (sort_names_some _ Hkept). fold names. rewrite Hmsgs.
    destruct msgs as [|m msgs].
    - cbn [map truthy_list negb concat].
      unfold mbind, IO_bind, lift. apply prints_ret.
    - assert (prints (for_each (list_message can_db pfs vfs)
                               (map Message.name (m :: msgs)))
                (concat (map (fun m => printed (_print_message m "" pfs vfs))
                           (m :: msgs)))) as Hloop.
      { rewrite for_each_map. apply prints_for_each. intros x Hx.
        assert (x ∈ kept_messages can_db args) as Hxk by (rewrite Hperm'; exact Hx).
        unfold list_message.
        rewrite (get_message_by_name_unique can_db x Hnodup).
        + apply appends_prints; [apply appends__print_message | apply Hprint, Hxk].
        + apply list_elem_of_In. apply list_elem_of_In, filter_In in Hxk as [Hxk _].
          exact Hxk. }
      exact (Hloop out). }
  rewrite (prints_outcome _ _ Hprints), (prints_printed _ _ Hprints).
  split; reflexivity.
Qed.

(** X12: requested names are not filtered: without [print_all], the
    listing of requested messages is the same whatever [exclude_extended]
    and [exclude_normal] are, so that a requested extended message is
    listed even when extended messages are excluded. *)
Theorem requested_messages_are_not_filtered can_db args args' vfs :
  Args.items args <> [] ->
  Args.print_all args = false ->
  Args.items args' = Args.items args ->
  Args.print_all args' = false ->
  Args.skip_format_specifics args' = Args.skip_format_specifics args ->
  forall out,
    _do_list_messages can_db args' vfs out = _do_list_messages can_db args vfs out.
Proof.
  intros Hne Hall Hitems Hall' Hskip out.
  unfold _do_list_messages. cbv zeta. rewrite Hall, Hall', Hitems, Hskip.
  unfold mbind at 1 3, IO_bind at 1 3, mret, IO_ret.
  destruct (Args.items args) as [|n names]; [contradiction | reflexivity].
Qed.

(** X13: when both kinds of messages are excluded and no name is
    requested, nothing is printed and the listing returns, with and
    without [print_all]. *)
Theorem nothing_listed_when_all_excluded can_db args vfs :
  Args.items args = [] ->
  Args.exclude_extended args = true ->
  Args.exclude_normal args = true ->
  prints (_do_list_messages can_db args vfs) [].
Proof.
  intros Hitems Hext Hnorm.
  assert (forall acc, append_message_names can_db args acc = acc) as Happend.
  { intros acc. rewrite append_message_names_filter.
    rewrite Hext, Hnorm.
    induction (Database.messages can_db) as [|m l IH].
    - apply app_nil_r.
    - cbn [List.filter]. destruct (Message.is_extended_frame m); exact IH. }
  intros out. unfold _do_list_messages. cbv zeta. rewrite Hitems. cbn [map].
  rewrite !Happend.
  destruct (Args.print_all args);
    unfold mbind, IO_bind, lift, mret, IO_ret; cbn;
    rewrite app_nil_r; reflexivity.
Qed.

Lemma omap_id_map_Some {A : Type} (l : list A) : omap id (map Some l) = l.
Proof. induction l as [|x l IH]; [reflexivity |]. cbn. f_equal. exact IH. Qed.

Lemma omap_id_map {A B : Type} (f : A -> option B) (l : list A) :
  omap id (map f l) = omap f l.
Proof.
  induction l as [|x l IH]; [reflexivity |].
  cbn. destruct (f x); cbn; rewrite IH; reflexivity.
Qed.

(** X18: with [print_all] the requested names are not set aside: they are
    listed together with the names of the messages the two filters keep,
    all in one lexicographic order, so that a requested name that the
    filters keep as well is listed twice.  Over a database whose messages
    all list without an exception the listing returns and is made of one
    block per name, the details of the message or the notice that it is
    missing. *)
Theorem list_all_adds_to_requests can_db args vfs :
  Args.print_all args = true ->
  Forall (fun m => is_Some (Message.name m)) (Database.messages can_db) ->
  let pfs := negb (Args.skip_format_specifics args) in
  (forall m, m ∈ Database.messages can_db ->
             outcome (_print_message m "" pfs vfs) = Ok ()) ->
  exists names,
    names ≡ₚ Args.items args ++ omap Message.name (kept_messages can_db args)
    /\ Sorted str_le names
    /\ outcome (_do_list_messages can_db args vfs) = Ok ()
    /\ printed (_do_list_messages can_db args vfs)
       = concat (map (fun n => printed (list_message can_db pfs vfs (Some n))) names).
Proof.
  intros Hall Hnamed pfs Hprint.
  pose proof (kept_names_some can_db args Hnamed) as Hkept.
  set (given := map Some (Args.items args)
                ++ map Message.name (kept_messages can_db args)).
  assert (Forall is_Some given) as Hgiven.
  { apply Forall_app. split; [| exact Hkept].
    apply Forall_forall. intros x Hx.
    apply list_elem_of_In, in_map_iff in Hx as (n & <- & _). eexists. reflexivity. }
  assert (omap id given
          = Args.items args ++ omap Message.name (kept_messages can_db args))
    as Homap.
  { unfold given. rewrite omap_app, omap_id_map_Some, omap_id_map. reflexivity. }
  exists (sorted (omap id given)). split.
  { unfold sorted. rewrite merge_sort_Permutation, Homap. reflexivity. }
  split; [apply Sorted_merge_sort; apply _ |].
  assert (forall n, outcome (list_message can_db pfs vfs n) = Ok ()) as Hok.
  { intros n. unfold list_message.
    pose proof (get_message_by_name_spec can_db n) as Hspec.
    destruct (get_message_by_name can_db n) as [m|e].
    - apply Hprint, Hspec.
    - destruct Hspec as [-> _]. reflexivity. }
  assert (prints (_do_list_messages can_db args vfs)
            (concat (map (fun n => printed (list_message can_db pfs vfs (Some n)))
                       (sorted (omap id given))))) as Hprints.
  { intros out. unfold _do_list_messages. cbv zeta. rewrite Hall.
    unfold mbind at 1, IO_bind at 1, lift at 1.
    rewrite (append_message_names_filter can_db args (map Some (Args.items args))).
    fold (kept_messages can_db args). fold given.
    rewrite (sort_names_some _ Hgiven).
    destruct (sorted (omap id given)) as [|n names] eqn:Hsorted.
    - cbn [map truthy_list negb concat].
      assert (given = []) as Hnil.
      { rewrite <- (map_Some_omap_id given Hgiven).
        assert (omap id given ≡ₚ []) as Hp
          by (rewrite <- Hsorted; unfold sorted; rewrite merge_sort_Permutation;
              reflexivity).
        apply Permutation_nil_r in Hp. rewrite Hp. reflexivity. }
      unfold given in Hnil. apply app_eq_nil in Hnil as [_ Hnil].
      unfold mbind, IO_bind, lift.
      rewrite (append_message_names_filter can_db args []).
      fold (kept_messages can_db args). rewrite Hnil.
      apply prints_ret.
    - assert (prints (for_each (list_message can_db pfs vfs) (map Some (n :: names)))
                (concat (map (fun n => printed (list_message can_db pfs vfs (Some n)))
                           (n :: names)))) as Hloop.
      { rewrite for_each_map. apply prints_for_each. intros x _.
        apply appends_prints; [apply appends_list_message | apply Hok]. }
      exact (Hloop out). }
  rewrite (prints_outcome _ _ Hprints), (prints_printed _ _ Hprints).
  split; reflexivity.
Qed.

End ListMessagesFacts.

(** A loop stops at the first round that raises. *)
Lemma for_each_raises {A : Type} (body : A -> IO ()) l1 x l2 e :
  (forall y, y ∈ l1 ++ x :: l2 -> appends (body y)) ->
  (forall y, y ∈ l1 -> outcome (body y) = Ok ()) ->
  outcome (body x) = Raise e ->
  outcome (for_each body (l1 ++ x :: l2)) = Raise e
  /\ printed (for_each body (l1 ++ x :: l2))
     = concat (map (fun y => printed (body y)) l1) ++ printed (body x).
Proof.
  intros Happ Hok Hraise.
  induction l1 as [|y l1 IH]; cbn [app for_each map concat].
  - assert (appends (for_each body l2)) as Hrest.
    { apply appends_for_each. intros z Hz. apply Happ. right. exact Hz. }
    rewrite outcome_bind, printed_bind;
      [| apply Happ; left | intros _; exact Hrest
       | apply Happ; left | intros _; exact Hrest ].
    rewrite Hraise, app_nil_r. split; reflexivity.
  - assert (appends (for_each body (l1 ++ x :: l2))) as Hrest.
    { apply appends_for_each. intros z Hz. apply Happ. right. exact Hz. }
    destruct IH as [IH1 IH2].
    { intros z Hz. apply Happ. right. exact Hz. }
    { intros z Hz. apply Hok. right. exact Hz. }
    rewrite outcome_bind, printed_bind;
      [| apply Happ; left | intros _; exact Hrest
       | apply Happ; left | intros _; exact Hrest ].
    rewrite (Hok y) by left. rewrite IH1, IH2, app_assoc. split; reflexivity.
Qed.

Section ListingFailures.
Context `{!Externals} `{!Loader}.

(** X14: only the lookup of a requested message is guarded.  When the
    details of a requested message raise, be it the [KeyError] of a
    selector that is missing, the listing stops there with that
    exception: the names before it have been listed, the lines the
    message printed so far stay, no notice is printed for it, and the
    names after it are not looked at. *)
Theorem listing_stops_at_failure can_db args vfs before name after message e :
  Args.print_all args = false ->
  Args.items args = before ++ name :: after ->
  let pfs := negb (Args.skip_format_specifics args) in
  (forall n, n ∈ before -> outcome (list_message can_db pfs vfs (Some n)) = Ok ()) ->
  get_message_by_name can_db (Some name) = Ok message ->
  outcome (_print_message message "" pfs vfs) = Raise e ->
  outcome (_do_list_messages can_db args vfs) = Raise e
  /\ printed (_do_list_messages can_db args vfs)
     = concat (map (fun n => printed (list_message can_db pfs vfs (Some n))) before)
       ++ printed (_print_message message "" pfs vfs).
Proof.
  intros Hall Hitems pfs Hbefore Hget Hraise.
  assert (forall out, _do_list_messages can_db args vfs out
                      = for_each (list_message can_db pfs vfs)
                          (map Some before ++ Some name :: map Some after) out)
    as Hrun.
  { intros out. unfold _do_list_messages. cbv zeta. rewrite Hall, Hitems.
    unfold mbind at 1, IO_bind at 1, mret, IO_ret.
    rewrite map_app. cbn [map].
    destruct (map Some before); reflexivity. }
  unfold outcome, printed. rewrite Hrun.
  destruct (for_each_raises (list_message can_db pfs vfs)
              (map Some before) (Some name) (map Some after) e) as [H1 H2].
  - intros. apply appends_list_message.
  - intros y Hy. apply list_elem_of_In, in_map_iff in Hy as (n & <- & Hn).
    apply Hbefore, list_elem_of_In, Hn.
  - unfold list_message. rewrite Hget. exact Hraise.
  - unfold outcome, printed in H1, H2. rewrite H1, H2. split; [reflexivity |].
    rewrite map_map. unfold list_message at 2. rewrite Hget. reflexivity.
Qed.

(** X15: when the buses are asked for, [_do_list] runs their listing and
    no other, whether or not the nodes are asked for too.  What it then
    does depends on the database and on the requested names only: two
    command lines that load the same database and request the same names
    behave the same, whatever [print_nodes], [print_all], the two filters,
    [skip_format_specifics] and the format specifier are. *)
Theorem buses_listing_reads_names_only args args' vfs vfs' can_db :
  load_file (Command.input_file_name args) (Command.prune args)
            (negb (Command.no_strict args)) = Ok (CanDatabase can_db) ->
  load_file (Command.input_file_name args') (Command.prune args')
            (negb (Command.no_strict args')) = Ok (CanDatabase can_db) ->
  Command.print_buses args = true ->
  Command.print_buses args' = true ->
  Args.items (Command.args args') = Args.items (Command.args args) ->
  forall out,
    _do_list args vfs out = _do_list_buses can_db (Command.args args) out
    /\ _do_list args' vfs' out = _do_list args vfs out.
Proof.
  intros Hload Hload' Hbuses Hbuses' Hitems out.
  unfold _do_list. cbv zeta. rewrite Hload, Hload', Hbuses, Hbuses'.
  unfold mbind, IO_bind, lift. split; [reflexivity |].
  unfold _do_list_buses. rewrite Hitems. reflexivity.
Qed.

End ListingFailures.

(** ** The indent of the lines *)

Lemma emits_ret {A : Type} Q (a : A) : emits Q (mret a : IO A).
Proof. split; [apply appends_ret | constructor]. Qed.

Lemma emits_lift {A : Type} Q (r : result A) : emits Q (lift r).
Proof. split; [apply appends_lift | constructor]. Qed.

Lemma emits_print (Q : string -> Prop) s : Q s -> emits Q (print s).
Proof. intros Hs. split; [apply appends_print | repeat constructor; exact Hs]. Qed.

Lemma emits_bind {A B : Type} Q (m : IO A) (k : A -> IO B) :
  emits Q m -> (forall a, emits Q (k a)) -> emits Q (m ≫= k).
Proof.
  intros [Hm Hq] Hk. split.
  - apply appends_bind; [exact Hm | intros a; apply Hk].
  - rewrite printed_bind; [| exact Hm | intros a; apply Hk].
    apply Forall_app. split; [exact Hq |].
    destruct (outcome m) as [a|e]; [apply Hk | constructor].
Qed.

Lemma emits_when Q b (m : IO ()) : emits Q m -> emits Q (when b m).
Proof. intros Hm. destruct b; [exact Hm | apply emits_ret]. Qed.

Lemma emits_for_each {A : Type} Q (body : A -> IO ()) l :
  (forall x, x ∈ l -> emits Q (body x)) -> emits Q (for_each body l).
Proof.
  induction l as [|x l IH]; intros Hbody.
  - apply emits_ret.
  - simpl. apply emits_bind.
    + apply Hbody. left.
    + intros _. apply IH. intros y Hy. apply Hbody. right. exact Hy.
Qed.

Lemma prefix_app (p a : string) : String.prefix p (p +:+ a) = true.
Proof.
  induction p as [|c p IH]; simpl; [destruct a; reflexivity |].
  destruct (ascii_dec c c); [exact IH | contradiction].
Qed.

Lemma prefix_app_app (p a b : string) : String.prefix p ((p +:+ a) +:+ b) = true.
Proof.
  induction p as [|c p IH]; [destruct (("" +:+ a) +:+ b); reflexivity |].
  simpl. destruct (ascii_dec c c); [exact IH | contradiction].
Qed.

Lemma indented_app indent a : indented indent (indent +:+ a).
Proof. right. left. apply prefix_app. Qed.

Lemma indented_app_app indent a b : indented indent ((indent +:+ a) +:+ b).
Proof. right. left. apply prefix_app_app. Qed.

Lemma indented_empty indent : indented indent "".
Proof. left. reflexivity. Qed.

Section IndentFacts.
Context `{!Externals}.

(** The lines of a message, the details of contained messages apart, are
    empty or built from the indent. *)
Lemma emits__print_message_step (Q : string -> Prop) message indent pfs vfs :
  (forall a, Q (indent +:+ a)) -> (forall a b, Q ((indent +:+ a) +:+ b)) -> Q "" ->
  (forall cms, Message.contained_messages message = Some cms ->
               forall cm, cm ∈ cms -> emits Q (_print_message cm "    " pfs "")) ->
  emits Q (_print_message message indent pfs vfs).
Proof.
  intros Q1 Q2 Q0 Hcms. rewrite _print_message_unfold.
  unfold print_message_heading, print_message_id, print_message_cycle_time,
    print_message_autosar, print_message_signal_tree, print_comments.
  repeat first
    [ apply emits_print; first [apply Q1 | apply Q2 | exact Q0]
    | apply emits_lift
    | lazymatch goal with
      | |- emits _ (for_each (fun cm => _print_message cm _ _ _) _) =>
          apply emits_for_each; intros cm Hcm; exact (Hcms _ eq_refl cm Hcm)
      | |- emits _ (for_each (print_contained_name _) _) =>
          apply emits_for_each; intros ? _; unfold print_contained_name
      | |- emits _ (for_each (print_signal _ _ _) _) =>
          apply emits_for_each; intros ? _;
          unfold print_signal, print_signal_heading, print_signal_selector,
            print_signal_layout, print_signal_scaling, print_signal_choices,
            print_value, print_comments
      end
    | through (@emits_bind) (@emits_ret) emits_when (@emits_for_each) ].
Qed.

Lemma emits__print_message message :
  forall indent pfs vfs,
    emits (indented indent) (_print_message message indent pfs vfs).
Proof.
  induction message as [message IH] using Message_nested_ind.
  intros indent pfs vfs. apply emits__print_message_step.
  - apply indented_app.
  - apply indented_app_app.
  - apply indented_empty.
  - intros cms Hc cm Hin. specialize (IH cms Hc). rewrite Forall_forall in IH.
    destruct (IH cm Hin "    " pfs "") as [Happ Hall].
    split; [exact Happ |].
    eapply Forall_impl; [exact Hall |].
    intros line [Hl|[Hl|Hl]]; [left | right; right | right; right]; exact Hl.
Qed.


End IndentFacts.

(** ** The sort of the signals by name *)

Lemma string_ltb_leb (a b : string) : String.ltb a b = true -> String.leb a b = true.
Proof. unfold String.ltb, String.leb. destruct (String.compare a b); congruence. Qed.

Lemma string_ltb_false_leb (a b : string) :
  String.ltb a b = false -> String.leb b a = true.
Proof.
  unfold String.ltb, String.leb. rewrite (String.compare_antisym b a).
  destruct (String.compare a b); simpl; congruence.
Qed.

Lemma string_leb_ltb_false (a b : string) :
  String.leb a b = true -> String.ltb b a = false.
Proof.
  unfold String.ltb, String.leb. rewrite (String.compare_antisym b a).
  destruct (String.compare a b); simpl; congruence.
Qed.

Lemma string_ltb_irrefl (a : string) : String.ltb a a = false.
Proof.
  unfold String.ltb. pose proof (String.compare_antisym a a) as H.
  destruct (String.compare a a); try reflexivity; discriminate.
Qed.

Section SortedBy.
Context {A : Type} (key : A -> string).

Lemma insert_by_Permutation x l : insert_by key x l ≡ₚ x :: l.
Proof.
  induction l as [|y l IH]; simpl; [reflexivity |].
  destruct (String.ltb (key y) (key x)); [| reflexivity].
  rewrite IH. apply perm_swap.
Qed.

Lemma insert_by_HdRel a x l :
  str_le (key a) (key x) ->
  HdRel (fun u v => str_le (key u) (key v)) a l ->
  HdRel (fun u v => str_le (key u) (key v)) a (insert_by key x l).
Proof.
  intros Hax Hal. destruct l as [|y l]; simpl; [constructor; exact Hax |].
  destruct (String.ltb (key y) (key x)).
  - constructor. inversion Hal. assumption.
  - constructor. exact Hax.
Qed.

Lemma insert_by_Sorted x l :
  Sorted (fun u v => str_le (key u) (key v)) l ->
  Sorted (fun u v => str_le (key u) (key v)) (insert_by key x l).
Proof.
  induction 1 as [|y l Hl IH Hy]; simpl; [repeat constructor |].
  destruct (String.ltb (key y) (key x)) eqn:Hlt.
  - constructor; [exact IH |].
    apply insert_by_HdRel; [apply string_ltb_leb, Hlt | exact Hy].
  - constructor; [constructor; assumption |].
    constructor. apply string_ltb_false_leb, Hlt.
Qed.

Lemma insert_by_sorted_head x l :
  HdRel (fun u v => str_le (key u) (key v)) x l -> insert_by key x l = x :: l.
Proof.
  intros Hx. destruct l as [|y l]; [reflexivity |]. simpl.
  inversion Hx as [|? ? Hxy]. rewrite (string_leb_ltb_false _ _ Hxy). reflexivity.
Qed.

Lemma insert_by_filter (k : string) x l :
  List.filter (fun u => String.eqb (key u) k) (insert_by key x l)
  = List.filter (fun u => String.eqb (key u) k) (x :: l).
Proof.
  induction l as [|y l IH]; [reflexivity |].
  cbn [insert_by]. destruct (String.ltb (key y) (key x)) eqn:Hlt; [| reflexivity].
  cbn [List.filter] in IH |- *. rewrite IH.
  destruct (String.eqb (key y) k) eqn:Hy, (String.eqb (key x) k) eqn:Hx;
    try reflexivity.
  apply String.eqb_eq in Hy, Hx. rewrite Hy, Hx, string_ltb_irrefl in Hlt.
  discriminate.
Qed.

Lemma sorted_by_Permutation l : sorted_by key l ≡ₚ l.
Proof.
  induction l as [|x l IH]; [reflexivity |].
  cbn. rewrite insert_by_Permutation. constructor. exact IH.
Qed.

Lemma sorted_by_Sorted l :
  Sorted (fun u v => str_le (key u) (key v)) (sorted_by key l).
Proof.
  induction l as [|x l IH]; [constructor |].
  cbn. apply insert_by_Sorted, IH.
Qed.

Lemma sorted_by_filter (k : string) l :
  List.filter (fun u => String.eqb (key u) k) (sorted_by key l)
  = List.filter (fun u => String.eqb (key u) k) l.
Proof.
  induction l as [|x l IH]; [reflexivity |].
  cbn [sorted_by foldr]. rewrite insert_by_filter.
  cbn [List.filter]. fold (sorted_by key l). rewrite IH. reflexivity.
Qed.

Lemma sorted_by_fixed l :
  Sorted (fun u v => str_le (key u) (key v)) l -> sorted_by key l = l.
Proof.
  induction 1 as [|x l Hl IH Hx]; [reflexivity |].
  cbn [sorted_by foldr]. fold (sorted_by key l). rewrite IH.
  apply insert_by_sorted_head, Hx.
Qed.

End SortedBy.

(** X17: the sort of the signals by name used by the conversion tests
    returns the same signals, none lost and none added, in the
    lexicographic order of their names; signals of the same name keep
    their order; and sorting a second time changes nothing. *)
Theorem sort_signals_by_name signals :
  sort_signals signals ≡ₚ signals
  /\ Sorted str_le (map Signal.name (sort_signals signals))
  /\ (forall name,
         List.filter (fun s => String.eqb (Signal.name s) name) (sort_signals signals)
         = List.filter (fun s => String.eqb (Signal.name s) name) signals)
  /\ sort_signals (sort_signals signals) = sort_signals signals.
Proof.
  unfold sort_signals. split; [apply sorted_by_Permutation |].
  pose proof (sorted_by_Sorted Signal.name signals) as Hsorted.
  split; [| split].
  - induction Hsorted as [|x l Hl IH Hx]; [constructor |].
    cbn [map]. constructor; [exact IH |].
    destruct Hx; constructor; assumption.
  - intros name. apply sorted_by_filter.
  - apply sorted_by_fixed, Hsorted.
Qed.

(** * The further properties at the sample database *)

(** The listings of the buses and of the nodes of the sample database. *)
Example buses_and_nodes_listing :
  printed (_do_list_buses sample_can_db (sample_args []))
  = [ "Body:";
      "  Comment[None]: Doors and lights";
      "  Baudrate: 500000";
      "  CAN-FD enabled: True";
      "  FD Baudrate: 2000000";
      "Chassis:";
      "  Baudrate: 250000";
      "  CAN-FD enabled: False" ]
  /\ printed (_do_list_nodes sample_can_db (sample_args ["Abs"; "Nobody"]))
     = [ "Abs:" ]
  /\ printed (@_do_list sample_externals sample_loader
                (sample_command "sample.cdd" true false []) "")
     = [ "The " +:+ dquote +:+ "list" +:+ dquote
         +:+ " subcommand only works with non-diagnostic database files!" ].
Proof. repeat split; vm_compute; reflexivity. Qed.

(** X3 (witness): the requests [Body, Chassis] and [Chassis, Body, Body]
    hold the same names. *)
Lemma bus_and_node_request_is_a_set_witness :
  (forall name,
      name ∈ Args.items (sample_args ["Body"; "Chassis"])
      <-> name ∈ Args.items (sample_args ["Chassis"; "Body"; "Body"]))
  /\ ltac:(match type of (bus_and_node_request_is_a_set sample_can_db
                            (sample_args ["Body"; "Chassis"])
                            (sample_args ["Chassis"; "Body"; "Body"])) with
           | _ -> ?C => exact C
           end).
Proof.
  assert (forall name,
             name ∈ Args.items (sample_args ["Body"; "Chassis"])
             <-> name ∈ Args.items (sample_args ["Chassis"; "Body"; "Body"]))
    as Hsame.
  { intros name. cbn [Args.items sample_args].
    rewrite !elem_of_cons, !elem_of_nil. tauto. }
  split; [exact Hsame |].
  apply (bus_and_node_request_is_a_set sample_can_db
           (sample_args ["Body"; "Chassis"])
           (sample_args ["Chassis"; "Body"; "Body"])).
  exact Hsame.
Defined.

(** A comment of two lines can put the line [CAN-FD enabled: True] on the
    output of a bus that is no CAN-FD one. *)
Example line_break_in_comment :
  Bus.fd_baudrate bus_two_lines = None
  /\ output_lines (printed (_print_bus bus_two_lines))
     = [ "Trick:";
         "  Comment[None]: first line";
         "  CAN-FD enabled: True";
         "  CAN-FD enabled: False" ].
Proof. split; vm_compute; reflexivity. Qed.

(** X4 (witness): the bus [Body] of the sample database. *)
Lemma print_bus_can_fd_line_witness :
  single_line (Bus.name bus_body) = true
  /\ (forall comments,
         Bus.comments bus_body = Some comments ->
         Forall (fun '(lang, text) =>
                   single_line (str_opt id lang) = true /\ single_line text = true)
                comments)
  /\ ltac:(match type of (print_bus_can_fd_line bus_body) with
           | _ -> _ -> ?C => let C' := eval cbv zeta in C in exact C'
           end).
Proof.
  assert (forall comments,
             Bus.comments bus_body = Some comments ->
             Forall (fun '(lang, text) =>
                       single_line (str_opt id lang) = true /\ single_line text = true)
                    comments) as Hcomments.
  { intros comments [= <-]. repeat constructor. }
  split; [reflexivity |]. split; [exact Hcomments |].
  apply (print_bus_can_fd_line bus_body); [reflexivity | exact Hcomments].
Defined.

(** X5 (witness): a file the sample loader does not know. *)
Lemma do_list_failure_witness :
  outcome (@_do_list sample_externals sample_loader
             (sample_command "none.dbc" false false []) "") = Raise ValueError
  /\ ltac:(match type of (@do_list_failure sample_externals sample_loader
                            (sample_command "none.dbc" false false []) ""
                            ValueError) with
           | _ -> ?C => exact C
           end).
Proof.
  split; [reflexivity |].
  apply (@do_list_failure sample_externals sample_loader
           (sample_command "none.dbc" false false []) "" ValueError).
  reflexivity.
Defined.

(** X6 (witness): the listing of the engine message returns. *)
Lemma listing_needs_listable_witness :
  outcome (@_print_message sample_externals message_engine "" true "") = Ok ()
  /\ listable message_engine = true.
Proof.
  split; [vm_compute; reflexivity |].
  apply (@listing_needs_listable sample_externals message_engine "" true "").
  vm_compute. reflexivity.
Defined.

(** X7 (witness): the container of the sample database, under externals
    that format every value. *)
Lemma listable_message_returns_witness :
  (forall v, exists s, @py_format plain_externals v "" = Ok s)
  /\ listable message_box = true
  /\ outcome (@_print_message plain_externals message_box "" true "") = Ok ().
Proof.
  assert (forall v, exists s, @py_format plain_externals v "" = Ok s) as Htotal
    by (intros v; eexists; reflexivity).
  split; [exact Htotal |]. split; [reflexivity |].
  apply (@listable_message_returns plain_externals message_box Htotal "" true ""
           Htotal).
  reflexivity.
Defined.

(** X8 (witness): the signal [Orphan], whose selector [Gone] is no signal
    of its message. *)
Lemma missing_selector_raises_witness :
  signal_orphan ∈ Message.signals message_orphan
  /\ Signal.multiplexer_signal signal_orphan = Some "Gone"
  /\ (forall s, s ∈ Message.signals message_orphan -> Signal.name s <> "Gone")
  /\ ltac:(match type of (@missing_selector_raises sample_externals message_orphan
                            "" true "" signal_orphan "Gone") with
           | _ -> _ -> _ -> ?C => exact C
           end).
Proof.
  assert (forall s, s ∈ Message.signals message_orphan -> Signal.name s <> "Gone")
    as Hnone.
  { intros s Hs. apply list_elem_of_singleton in Hs. subst s. discriminate. }
  split; [constructor |]. split; [reflexivity |]. split; [exact Hnone |].
  apply (@missing_selector_raises sample_externals message_orphan "" true ""
           signal_orphan "Gone");
    [constructor | reflexivity | exact Hnone].
Defined.

(** X9 (witness): the container of the sample database. *)
Lemma contained_details_fixed_witness :
  Message.contained_messages message_box = Some [message_part]
  /\ outcome (@_print_message sample_externals message_box "" true "") = Ok ()
  /\ ltac:(match type of (@contained_details_fixed sample_externals message_box
                            "" true "" [message_part]) with
           | _ -> _ -> ?C => exact C
           end).
Proof.
  split; [reflexivity |]. split; [vm_compute; reflexivity |].
  apply (@contained_details_fixed sample_externals message_box "" true ""
           [message_part]);
    [reflexivity | vm_compute; reflexivity].
Defined.

(** X19 (witness): the engine message and its two signals. *)
Lemma signal_details_in_order_witness :
  outcome (@_print_message sample_externals message_engine "" true "") = Ok ()
  /\ ltac:(match type of (@signal_details_in_order sample_externals message_engine
                            "" true "") with
           | _ -> ?C => exact C
           end).
Proof.
  split; [vm_compute; reflexivity |].
  apply (@signal_details_in_order sample_externals message_engine "" true "").
  vm_compute. reflexivity.
Defined.

(** X10 (witness): the container of the sample database has no AUTOSAR
    specifics. *)
Lemma format_specifics_only_autosar_witness :
  no_autosar message_box = true
  /\ forall out,
       @_print_message sample_externals message_box "" true "" out
       = @_print_message sample_externals message_box "" false "" out.
Proof.
  split; [reflexivity |]. intros out.
  apply (@format_specifics_only_autosar sample_externals message_box).
  reflexivity.
Defined.

(** X11 (witness): every message of the sample database, asked for with
    [print_all]. *)
Lemma list_all_sorted_witness :
  Args.print_all (sample_args_all []) = true
  /\ Args.items (sample_args_all []) = []
  /\ Forall (fun m => is_Some (Message.name m)) (Database.messages sample_db)
  /\ NoDup (map Message.name (Database.messages sample_db))
  /\ (forall m, m ∈ kept_messages sample_db (sample_args_all []) ->
                outcome (@_print_message sample_externals m "" true "") = Ok ())
  /\ ltac:(match type of (@list_all_sorted sample_externals sample_db
                            (sample_args_all []) "") with
           | _ -> _ -> _ -> _ -> ?C =>
               match eval cbv zeta in C with _ -> ?D => exact D end
           end).
Proof.
  assert (Forall (fun m => is_Some (Message.name m)) (Database.messages sample_db))
    as Hnamed by (repeat constructor; eexists; reflexivity).
  assert (NoDup (map Message.name (Database.messages sample_db))) as Hnodup
    by (apply (bool_decide_unpack _); vm_compute; exact I).
  assert (forall m, m ∈ kept_messages sample_db (sample_args_all []) ->
                    outcome (@_print_message sample_externals m "" true "") = Ok ())
    as Hprint.
  { intros m Hm. change (m ∈ [message_gear; message_engine]) in Hm.
    repeat (apply elem_of_cons in Hm as [-> | Hm]); [| | inversion Hm];
      vm_compute; reflexivity. }
  split; [reflexivity |]. split; [reflexivity |]. split; [exact Hnamed |].
  split; [exact Hnodup |]. split; [exact Hprint |].
  apply (@list_all_sorted sample_externals sample_db (sample_args_all []) "");
    [reflexivity | reflexivity | exact Hnamed | exact Hnodup | exact Hprint].
Defined.

(** X12 (witness): the extended message [Gear], requested with both
    filters set and with none. *)
Lemma requested_messages_are_not_filtered_witness :
  Args.items (sample_args ["Gear"]) <> []
  /\ forall out,
       @_do_list_messages sample_externals sample_db (sample_args_filtered ["Gear"])
         "" out
       = @_do_list_messages sample_externals sample_db (sample_args ["Gear"]) "" out.
Proof.
  split; [discriminate |].
  apply (@requested_messages_are_not_filtered sample_externals sample_db
           (sample_args ["Gear"]) (sample_args_filtered ["Gear"]) "");
    [discriminate | reflexivity | reflexivity | reflexivity | reflexivity].
Defined.

(** X13 (witness): the sample database with both filters set and no
    requested name. *)
Lemma nothing_listed_when_all_excluded_witness :
  Args.items (sample_args_filtered []) = []
  /\ Args.exclude_extended (sample_args_filtered []) = true
  /\ Args.exclude_normal (sample_args_filtered []) = true
  /\ prints (@_do_list_messages sample_externals sample_db (sample_args_filtered [])
               "")
            [].
Proof.
  repeat (split; [reflexivity |]).
  apply (@nothing_listed_when_all_excluded sample_externals sample_db
           (sample_args_filtered []) "");
    reflexivity.
Defined.

(** X14 (witness): [Engine], [Lost] and [Gear] are requested; the details
    of [Lost] raise the [KeyError] of its missing selector. *)
Lemma listing_stops_at_failure_witness :
  Args.items (sample_args ["Engine"; "Lost"; "Gear"]) = ["Engine"] ++ "Lost" :: ["Gear"]
  /\ get_message_by_name orphan_db (Some "Lost") = Ok message_orphan
  /\ outcome (@_print_message sample_externals message_orphan "" true "")
     = Raise (KeyError "Gone")
  /\ ltac:(match type of (@listing_stops_at_failure sample_externals orphan_db
                            (sample_args ["Engine"; "Lost"; "Gear"]) ""
                            ["Engine"] "Lost" ["Gear"] message_orphan
                            (KeyError "Gone")) with
           | _ -> _ -> ?C =>
               match eval cbv zeta in C with _ -> _ -> _ -> ?D => exact D end
           end).
Proof.
  split; [reflexivity |]. split; [reflexivity |]. split; [vm_compute; reflexivity |].
  apply (@listing_stops_at_failure sample_externals orphan_db
           (sample_args ["Engine"; "Lost"; "Gear"]) ""
           ["Engine"] "Lost" ["Gear"] message_orphan (KeyError "Gone"));
    [reflexivity | reflexivity | | reflexivity | vm_compute; reflexivity].
  intros n Hn. apply list_elem_of_singleton in Hn. subst n. vm_compute. reflexivity.
Defined.

(** X15 (witness): the sample file with the buses asked for, once with
    the nodes, every message and both filters asked for too. *)
Lemma buses_listing_reads_names_only_witness :
  let plain := sample_command "sample.dbc" true false ["Body"] in
  let busy :=
    {| Command.input_file_name := "sample.dbc";
       Command.prune := true;
       Command.no_strict := true;
       Command.print_buses := true;
       Command.print_nodes := true;
       Command.args :=
         {| Args.items := ["Body"];
            Args.print_all := true;
            Args.exclude_extended := true;
            Args.exclude_normal := true;
            Args.skip_format_specifics := true |} |} in
  @load_file sample_loader (Command.input_file_name plain) (Command.prune plain)
    (negb (Command.no_strict plain)) = Ok (CanDatabase sample_can_db)
  /\ @load_file sample_loader (Command.input_file_name busy) (Command.prune busy)
       (negb (Command.no_strict busy)) = Ok (CanDatabase sample_can_db)
  /\ Command.print_buses plain = true
  /\ Command.print_buses busy = true
  /\ Args.items (Command.args busy) = Args.items (Command.args plain)
  /\ forall out,
       @_do_list sample_externals sample_loader plain "" out
       = _do_list_buses sample_can_db (Command.args plain) out
       /\ @_do_list sample_externals sample_loader busy ".2f" out
          = @_do_list sample_externals sample_loader plain "" out.
Proof.
  intros plain busy. repeat (split; [reflexivity |]).
  apply (@buses_listing_reads_names_only sample_externals sample_loader
           plain busy "" ".2f" sample_can_db);
    reflexivity.
Defined.

(** X18 (witness): [Gear] is requested along with every message of the
    sample database. *)
Lemma list_all_adds_to_requests_witness :
  Args.print_all (sample_args_all ["Gear"]) = true
  /\ Forall (fun m => is_Some (Message.name m)) (Database.messages sample_db)
  /\ (forall m, m ∈ Database.messages sample_db ->
                outcome (@_print_message sample_externals m "" true "") = Ok ())
  /\ ltac:(match type of (@list_all_adds_to_requests sample_externals sample_db
                            (sample_args_all ["Gear"]) "") with
           | _ -> _ -> ?C =>
               match eval cbv zeta in C with _ -> ?D => exact D end
           end).
Proof.
  assert (Forall (fun m => is_Some (Message.name m)) (Database.messages sample_db))
    as Hnamed by (repeat constructor; eexists; reflexivity).
  assert (forall m, m ∈ Database.messages sample_db ->
                    outcome (@_print_message sample_externals m "" true "") = Ok ())
    as Hprint.
  { intros m Hm. change (m ∈ [message_gear; message_engine]) in Hm.
    repeat (apply elem_of_cons in Hm as [-> | Hm]); [| | inversion Hm];
      vm_compute; reflexivity. }
  split; [reflexivity |]. split; [exact Hnamed |]. split; [exact Hprint |].
  apply (@list_all_adds_to_requests sample_externals sample_db
           (sample_args_all ["Gear"]) "");
    [reflexivity | exact Hnamed | exact Hprint].
Defined.

(** With [print_all], the requested [Gear] is listed twice. *)
Example requested_message_listed_twice :
  List.filter (String.eqb "Gear:")
    (printed (@_do_list_messages sample_externals sample_db
                (sample_args_all ["Gear"]) ""))
  = ["Gear:"; "Gear:"].
Proof. vm_compute. reflexivity. Qed.

(** * Properties of the codec *)

Section CodecFacts.
Import Codec.
Context `{!IEEE}.

(** ** Bits *)

Lemma set_bit_length buf p v buf' :
  set_bit buf p v = Success buf' -> List.length buf' = List.length buf.
Proof.
  unfold set_bit. destruct (p <? 0); [discriminate |].
  destruct (buf !! Z.to_nat (p / 8)); [| discriminate].
  intros [= <-]. apply length_insert.
Qed.

Lemma set_bit_in_range buf p v :
  0 <= p < 8 * Z.of_nat (List.length buf) ->
  exists buf', set_bit buf p v = Success buf'.
Proof.
  intros Hp. unfold set_bit.
  destruct (p <? 0) eqn:Hneg; [apply Z.ltb_lt in Hneg; lia |].
  destruct (buf !! Z.to_nat (p / 8)) eqn:Hlook; [eexists; reflexivity |].
  apply lookup_ge_None in Hlook.
  assert (p / 8 < Z.of_nat (List.length buf)) by (apply Z.div_lt_upper_bound; lia).
  assert (0 <= p / 8) by (apply Z.div_pos; lia). lia.
Qed.

(** A bit just written reads back; every other bit is untouched. *)
Lemma get_set_bit buf p v buf' q :
  set_bit buf p v = Success buf' ->
  get_bit buf' q = if decide (q = p) then Success v else get_bit buf q.
Proof.
  unfold set_bit, get_bit.
  destruct (p <? 0) eqn:Hp; [discriminate |]. apply Z.ltb_ge in Hp.
  destruct (buf !! Z.to_nat (p / 8)) as [byte|] eqn:Hbyte; [| discriminate].
  intros [= <-].
  destruct (q <? 0) eqn:Hq.
  { apply Z.ltb_lt in Hq. rewrite decide_False by lia. reflexivity. }
  apply Z.ltb_ge in Hq.
  assert (0 <= p / 8) by (apply Z.div_pos; lia).
  assert (0 <= q / 8) by (apply Z.div_pos; lia).
  assert (0 <= q mod 8 < 8) by (apply Z.mod_pos_bound; lia).
  assert (0 <= p mod 8 < 8) by (apply Z.mod_pos_bound; lia).
  destruct (decide (q = p)) as [-> | Hne].
  - rewrite list_lookup_insert_eq by (apply lookup_lt_Some in Hbyte; exact Hbyte).
    f_equal. destruct v.
    + apply Z.setbit_eq. lia.
    + apply Z.clearbit_eq.
  - destruct (decide (Z.to_nat (q / 8) = Z.to_nat (p / 8))) as [Hsame | Hdiff].
    + rewrite Hsame, list_lookup_insert_eq
        by (apply lookup_lt_Some in Hbyte; exact Hbyte).
      rewrite Hbyte. f_equal.
      assert (q mod 8 <> p mod 8).
      { intros Hmod. apply Hne.
        rewrite (Z.div_mod q 8), (Z.div_mod p 8) by lia.
        apply Z2Nat.inj in Hsame; lia. }
      destruct v.
      * apply Z.setbit_neq; lia.
      * apply Z.clearbit_neq; lia.
    + rewrite list_lookup_insert_ne by congruence. reflexivity.
Qed.

Lemma write_bits_in_range addresses : forall buf value,
  Forall (fun p => 0 <= p < 8 * Z.of_nat (List.length buf)) addresses ->
  exists buf', write_bits buf addresses value = Success buf'
               /\ List.length buf' = List.length buf.
Proof.
  induction addresses as [|p ps IH]; intros buf value Hrange; cbn [write_bits].
  - eauto.
  - inversion Hrange as [|? ? Hp Hps]; subst.
    destruct (set_bit_in_range buf p (Z.testbit value 0) Hp) as [buf1 Hset].
    rewrite Hset. cbn.
    pose proof (set_bit_length _ _ _ _ Hset) as Hlen.
    destruct (IH buf1 (Z.shiftr value 1)) as (buf' & Hw & Hlen').
    { rewrite Hlen. exact Hps. }
    exists buf'. split; [exact Hw | congruence].
Qed.

(** Writing a field leaves the bits outside it as they were. *)
Lemma write_bits_frame addresses : forall buf value buf' q,
  write_bits buf addresses value = Success buf' ->
  q ∉ addresses -> get_bit buf' q = get_bit buf q.
Proof.
  induction addresses as [|p ps IH]; intros buf value buf' q; cbn [write_bits].
  - intros [= <-] _. reflexivity.
  - destruct (set_bit buf p (Z.testbit value 0)) as [buf1|] eqn:Hset; [| discriminate].
    cbn. intros Hw Hq. apply not_elem_of_cons in Hq as [Hne Hq].
    rewrite (IH _ _ _ _ Hw Hq), (get_set_bit _ _ _ _ q Hset).
    rewrite decide_False by exact Hne. reflexivity.
Qed.

Lemma read_bits_ext buf1 buf2 addresses :
  (forall q, q ∈ addresses -> get_bit buf1 q = get_bit buf2 q) ->
  read_bits buf1 addresses = read_bits buf2 addresses.
Proof.
  unfold read_bits. intros Hext. f_equal.
  induction addresses as [|p ps IH]; simpl; [reflexivity |].
  rewrite Hext by left. rewrite IH; [reflexivity |].
  intros q Hq. apply Hext. right. exact Hq.
Qed.

Lemma low_bit_split (value : Z) (n : Z) :
  0 <= n ->
  Z.b2z (Z.testbit value 0) + 2 * (Z.shiftr value 1 mod 2 ^ n)
  = value mod 2 ^ (n + 1).
Proof.
  intros Hn. rewrite Z.bit0_odd, Z.shiftr_div_pow2 by lia.
  change (2 ^ 1) with 2.
  rewrite Z.pow_add_r by lia. change (2 ^ 1) with 2.
  rewrite (Z.mul_comm (2 ^ n) 2).
  rewrite Z.rem_mul_r by lia.
  rewrite <- Z.bit0_mod, Z.bit0_odd. reflexivity.
Qed.

(** A field just written reads back, cut down to its width. *)
Lemma read_write_bits addresses : forall buf value buf',
  NoDup addresses ->
  write_bits buf addresses value = Success buf' ->
  read_bits buf' addresses
  = Success (value mod 2 ^ Z.of_nat (List.length addresses)).
Proof.
  induction addresses as [|p ps IH]; intros buf value buf' Hnodup; cbn [write_bits].
  - intros _. unfold read_bits. cbn. rewrite Z.mod_1_r. reflexivity.
  - destruct (set_bit buf p (Z.testbit value 0)) as [buf1|] eqn:Hset; [| discriminate].
    cbn. intros Hw. apply NoDup_cons in Hnodup as [Hp Hps].
    specialize (IH _ _ _ Hps Hw).
    unfold read_bits in *. cbn.
    rewrite (write_bits_frame _ _ _ _ _ Hw Hp), (get_set_bit _ _ _ _ p Hset).
    rewrite decide_True by reflexivity. cbn.
    destruct (forM (get_bit buf') ps) as [bits|]; [| discriminate].
    cbn in IH |- *. injection IH as IH. rewrite IH. f_equal.
    rewrite Nat2Z.inj_succ, <- Z.add_1_r. apply low_bit_split. lia.
Qed.

(** ** Bit addresses *)

Lemma walk_length next n p : List.length (walk next n p) = n.
Proof. revert p. induction n as [|n IH]; intros p; simpl; [| rewrite IH]; reflexivity. Qed.

Lemma bit_addresses_length start length byte_order :
  List.length (bit_addresses start length byte_order) = Z.to_nat length.
Proof.
  unfold bit_addresses. destruct byte_order;
    rewrite ?length_rev, walk_length; reflexivity.
Qed.

(** Along a walk a strictly increasing rank never repeats an address. *)
Lemma walk_NoDup (next : Z -> Z) (rank : Z -> Z) :
  (forall p, rank (next p) = rank p + 1) ->
  forall n p, NoDup (walk next n p)
              /\ forall q, q ∈ walk next n p -> rank p <= rank q.
Proof.
  intros Hrank. induction n as [|n IH]; intros p; simpl.
  - split; [constructor |]. intros q Hq. inversion Hq.
  - destruct (IH (next p)) as [Hnodup Hle]. split.
    + constructor; [| exact Hnodup].
      intros Hin. apply Hle in Hin. rewrite Hrank in Hin. lia.
    + intros q Hq. apply elem_of_cons in Hq as [-> | Hq]; [lia |].
      apply Hle in Hq. rewrite Hrank in Hq. lia.
Qed.

(** Big-endian numbering read in transmission order. *)
Lemma be_next_rank p :
  8 * (be_next p / 8) + 7 - be_next p mod 8 = (8 * (p / 8) + 7 - p mod 8) + 1.
Proof.
  unfold be_next. destruct (p mod 8 =? 0) eqn:Hmod.
  - apply Z.eqb_eq in Hmod. Z.div_mod_to_equations. lia.
  - apply Z.eqb_neq in Hmod. Z.div_mod_to_equations. lia.
Qed.

Lemma bit_addresses_NoDup start length byte_order :
  NoDup (bit_addresses start length byte_order).
Proof.
  unfold bit_addresses. destruct byte_order.
  - apply (walk_NoDup Z.succ (fun p => p)). intros p. lia.
  - apply NoDup_ListNoDup, NoDup_rev, NoDup_ListNoDup.
    apply (walk_NoDup be_next (fun p => 8 * (p / 8) + 7 - p mod 8)).
    apply be_next_rank.
Qed.

(** ** Values a signal can carry *)

Lemma round_Z2Qc (i : Z) : round (Z2Qc i) = i.
Proof.
  unfold round, Z2Qc. cbn [this Q2Qc].
  assert (Qred (inject_Z i) == inject_Z i)%Q as Heq by apply Qred_correct.
  rewrite (Qfloor_comp _ _ Heq), Qfloor_Z.
  assert ((2 * (Qred (inject_Z i) - inject_Z i) ?= 1)%Q = Lt) as ->; [| reflexivity].
  apply Qlt_alt. setoid_rewrite Heq.
  assert (2 * (inject_Z i - inject_Z i) == 0)%Q as Hzero by ring.
  setoid_rewrite Hzero. reflexivity.
Qed.

Lemma unscale_scaled (signal : Signal) (y : Qc) :
  scale signal <> 0%Qc ->
  ((scaled signal y - offset signal) / scale signal)%Qc = y.
Proof.
  intros Hscale. unfold scaled.
  destruct (decide _) as [[Hs Ho] | _].
  - rewrite Hs, Ho. field. discriminate.
  - field. exact Hscale.
Qed.

Lemma check_bounds_within (signal : Signal) (q : Qc) strict :
  within_bounds signal q -> check_bounds signal q strict = Success q.
Proof.
  intros [Hlo Hhi]. unfold check_bounds.
  assert (forall a b : Qc, (a <= b)%Qc -> Qc_ltb b a = false) as Hcmp.
  { intros a b Hle. unfold Qc_ltb. destruct (Qccompare b a) eqn:Hc; try reflexivity.
    apply Qclt_alt in Hc. apply Qcle_not_lt in Hle. contradiction. }
  destruct (minimum signal) as [lo|], (maximum signal) as [hi|];
    rewrite ?Hcmp by auto; reflexivity.
Qed.

Lemma reinterpret_mod (signal : Signal) (i : Z) :
  is_float signal = false -> 1 <= length signal -> in_range signal i ->
  reinterpret signal (i mod 2 ^ length signal) = i.
Proof.
  intros Hfloat Hlen. unfold in_range, reinterpret. rewrite Hfloat.
  assert (2 ^ length signal = 2 * 2 ^ (length signal - 1)) as Hpow.
  { rewrite <- Z.pow_succ_r by lia. f_equal. lia. }
  assert (0 < 2 ^ (length signal - 1)) by (apply Z.pow_pos_nonneg; lia).
  destruct (is_signed signal); cbn [andb negb]; intros Hrange.
  - destruct (Z.le_gt_cases 0 i) as [Hpos | Hneg].
    + rewrite Z.mod_small by lia.
      destruct (2 ^ (length signal - 1) <=? i) eqn:Hcmp; [| reflexivity].
      apply Z.leb_le in Hcmp. lia.
    + replace (i mod 2 ^ length signal) with (i + 2 ^ length signal).
      * destruct (2 ^ (length signal - 1) <=? i + 2 ^ length signal) eqn:Hcmp;
          [lia |]. apply Z.leb_gt in Hcmp. lia.
      * apply Z.mod_unique with (q := -1); lia.
  - apply Z.mod_small. exact Hrange.
Qed.

(** The signal codec gives back what the signal returns of a
    representable value. *)
Lemma signal_round_trip (signal : Signal) (v : Value) :
  representable signal v ->
  exists raw,
    encode_physical signal v true = Success raw
    /\ 0 <= raw < 2 ^ length signal
    /\ decode_raw signal raw true true = returned signal v.
Proof.
  intros (Hlen & Hv).
  assert (0 < 2 ^ length signal) as Hpow by (apply Z.pow_pos_nonneg; lia).
  unfold returned.
  destruct (is_float signal) eqn:Hfloat.
  - destruct Hv as (x & Hinvalid & Hscale & -> & Hbounds).
    exists (bits_of_float (length signal) x mod 2 ^ length signal).
    split; [| split; [apply Z.mod_pos_bound; exact Hpow |]].
    + unfold encode_physical.
      rewrite (check_bounds_within _ _ true Hbounds). cbn.
      rewrite Hfloat, unscale_scaled by exact Hscale. reflexivity.
    + unfold decode_raw. rewrite Hfloat. cbv zeta.
      rewrite unscale_scaled by exact Hscale.
      change (float_of_bits (length signal)
                (bits_of_float (length signal) x mod 2 ^ length signal))
        with (kept signal x).
      rewrite bool_decide_eq_false_2 by exact Hinvalid. reflexivity.
  - destruct Hv as (i & Hrange & Hinvalid & Hv).
    exists (i mod 2 ^ length signal).
    split; [| split; [apply Z.mod_pos_bound; exact Hpow |]].
    + unfold encode_physical. destruct v as [q | raw label |]; [| | contradiction].
      * destruct Hv as (_ & Hscale & -> & Hbounds).
        rewrite (check_bounds_within _ _ true Hbounds). cbn.
        rewrite Hfloat, unscale_scaled, round_Z2Qc by exact Hscale. reflexivity.
      * destruct Hv as (_ & _ & ->). reflexivity.
    + unfold decode_raw. rewrite Hfloat.
      rewrite reinterpret_mod by assumption.
      rewrite bool_decide_eq_false_2 by exact Hinvalid.
      destruct v as [q | raw label |]; [| | contradiction].
      * destruct Hv as (-> & _ & -> & _). reflexivity.
      * destruct Hv as (-> & -> & _). reflexivity.
Qed.

(** A representable value comes back as it is from an integer signal, and
    from a float signal whose format holds its pre-scale number. *)
Lemma returned_exact (signal : Signal) (v : Value) :
  representable signal v ->
  (forall q, is_float signal = true -> v = Numeric q ->
             exact_float signal ((q - offset signal) / scale signal)%Qc) ->
  returned signal v = v.
Proof.
  intros (_ & Hv) Hexact. unfold returned.
  destruct (is_float signal); [| reflexivity].
  destruct Hv as (x & _ & Hscale & -> & _).
  specialize (Hexact _ eq_refl eq_refl). unfold exact_float in Hexact.
  rewrite Hexact. rewrite unscale_scaled by exact Hscale. reflexivity.
Qed.

(** ** Messages *)

Lemma forM_Forall2 {A B : Type} (f : A -> res B) (P : A -> B -> Prop) l :
  (forall x, x ∈ l -> exists y, f x = Success y /\ P x y) ->
  exists l', forM f l = Success l' /\ Forall2 P l l'.
Proof.
  induction l as [|x l IH]; intros Hf; cbn [forM].
  - exists []. split; [reflexivity | constructor].
  - destruct (Hf x) as (y & Hy & HP); [left |].
    destruct IH as (l' & Hl' & HF); [intros z Hz; apply Hf; right; exact Hz |].
    exists (y :: l'). rewrite Hy, Hl'. split; [reflexivity | constructor; assumption].
Qed.

Lemma Forall2_elem_l {A B : Type} (P : A -> B -> Prop) l k x :
  Forall2 P l k -> x ∈ l -> exists y, y ∈ k /\ P x y.
Proof.
  induction 1 as [|a b l k Hab _ IH]; intros Hx; [inversion Hx |].
  apply elem_of_cons in Hx as [-> | Hx].
  - exists b. split; [left | exact Hab].
  - destruct (IH Hx) as (y & Hy & HP). exists y. split; [right; exact Hy | exact HP].
Qed.

Lemma Forall2_elem_r {A B : Type} (P : A -> B -> Prop) l k y :
  Forall2 P l k -> y ∈ k -> exists x, x ∈ l /\ P x y.
Proof.
  induction 1 as [|a b l k Hab _ IH]; intros Hy; [inversion Hy |].
  apply elem_of_cons in Hy as [-> | Hy].
  - exists a. split; [left | exact Hab].
  - destruct (IH Hy) as (x & Hx & HP). exists x. split; [right; exact Hx | exact HP].
Qed.

Lemma filter_elem {A : Type} (p : A -> bool) l x :
  x ∈ List.filter p l <-> x ∈ l /\ p x = true.
Proof. rewrite !list_elem_of_In. apply filter_In. Qed.

Lemma NoDup_map_filter {A B : Type} (f : A -> B) (p : A -> bool) l :
  NoDup (map f l) -> NoDup (map f (List.filter p l)).
Proof.
  induction l as [|x l IH]; cbn [map List.filter]; intros Hnodup; [constructor |].
  apply NoDup_cons in Hnodup as [Hx Hl]. destruct (p x); cbn [map]; [| auto].
  constructor; [| auto].
  intros Hin. apply Hx. apply list_elem_of_In, in_map_iff in Hin.
  destruct Hin as (y & Hy & Hin). apply filter_In in Hin as [Hin _].
  apply list_elem_of_In, in_map_iff. exists y. auto.
Qed.

(** Inserting fields that fit the buffer and do not overlap succeeds,
    keeps the length, and every field reads back. *)
Lemma insert_all (raws : list (Signal * Z)) : forall buf,
  Forall (fun y => Forall (fun p => 0 <= p < 8 * Z.of_nat (List.length buf))
                          (addresses (fst y))
                   /\ 0 <= length (fst y)
                   /\ 0 <= snd y < 2 ^ length (fst y)) raws ->
  ForallOrdPairs (fun s t => addresses s ## addresses t) (map fst raws) ->
  exists payload,
    foldM (fun buf '(signal, raw) =>
             insert buf (start signal) (length signal) (byte_order signal) raw)
          raws buf = Success payload
    /\ List.length payload = List.length buf
    /\ (forall y, y ∈ raws ->
          extract payload (start (fst y)) (length (fst y)) (byte_order (fst y))
          = Success (snd y))
    /\ (forall q, (forall y, y ∈ raws -> q ∉ addresses (fst y)) ->
          get_bit payload q = get_bit buf q).
Proof.
  induction raws as [|[s r] raws IH]; intros buf Hfit Hsep; cbn [foldM].
  - exists buf. split; [reflexivity |]. split; [reflexivity |].
    split; [intros y Hy; inversion Hy | reflexivity].
  - apply Forall_cons in Hfit as [(Hs & Hlen & Hr) Hfit]. cbn [fst snd] in *.
    cbn [map fst] in Hsep. inversion Hsep as [|? ? Hhead Htail]; subst.
    change (insert buf (start s) (length s) (byte_order s) r)
      with (write_bits buf (addresses s) r).
    destruct (write_bits_in_range (addresses s) buf r Hs) as (buf1 & Hw & Hlen1).
    rewrite Hw. cbn.
    destruct (IH buf1) as (payload & Hfold & Hlen2 & Hread & Hframe).
    { rewrite Hlen1. exact Hfit. }
    { exact Htail. }
    exists payload. split; [exact Hfold |]. split; [congruence |]. split.
    + intros y Hy. apply elem_of_cons in Hy as [-> | Hy]; [| apply Hread, Hy].
      cbn [fst snd]. unfold extract. fold (addresses s).
      rewrite (read_bits_ext payload buf1).
      * rewrite (read_write_bits (addresses s) _ _ _ (bit_addresses_NoDup _ _ _) Hw).
        unfold addresses. rewrite bit_addresses_length, Z2Nat.id by exact Hlen.
        rewrite Z.mod_small by exact Hr. reflexivity.
      * intros q Hq. apply Hframe. intros y Hy Hqy.
        rewrite Forall_forall in Hhead.
        assert (fst y ∈ map fst raws) as Hin
          by (apply list_elem_of_In, in_map; apply list_elem_of_In; exact Hy).
        exact (Hhead (fst y) Hin q Hq Hqy).
    + intros q Hq. rewrite Hframe.
      * apply (write_bits_frame _ _ _ _ _ Hw). apply (Hq (s, r)). left.
      * intros y Hy. apply Hq. right. exact Hy.
Qed.

Lemma selector_is_selected message observed s :
  is_multiplexer s = true -> selected message observed s = true.
Proof.
  intros Hmux. unfold selected. rewrite Hmux.
  destruct (multiplexer_signal s); reflexivity.
Qed.

(** A payload from which every selector reads back what was encoded for
    it shows the selection that was supplied. *)
Lemma selection_agrees (values : gmap string Value) (payload : buffer) :
  forall l (acc observed : gmap string Z),
  (forall s, s ∈ l -> is_multiplexer s = true ->
             forall v raw,
               supplied values true s = Success v ->
               encode_physical s v true = Success raw ->
               extract payload (start s) (length s) (byte_order s) = Success raw) ->
  foldM (fun (observed : gmap string Z) signal =>
           if is_multiplexer signal
           then
             v ← supplied values true signal;
             raw ← encode_physical signal v true;
             Success (<[name signal := reinterpret signal raw]> observed)
           else Success observed) l acc = Success observed ->
  foldM (fun (observed : gmap string Z) signal =>
           if is_multiplexer signal
           then
             raw ← extract payload (start signal) (length signal) (byte_order signal);
             Success (<[name signal := reinterpret signal raw]> observed)
           else Success observed) l acc = Success observed.
Proof.
  induction l as [|s l IH]; intros acc observed Hread; cbn [foldM].
  - auto.
  - destruct (is_multiplexer s) eqn:Hmux.
    + destruct (supplied values true s) as [v|] eqn:Hv; [| discriminate].
      cbn. destruct (encode_physical s v true) as [raw|] eqn:Hraw; [| discriminate].
      cbn. rewrite (Hread s (list_elem_of_here _ _) Hmux v raw Hv Hraw). cbn.
      apply IH. intros t Ht. apply Hread. right. exact Ht.
    + cbn. apply IH. intros t Ht. apply Hread. right. exact Ht.
Qed.


End CodecFacts.

(** * The codec at the sample messages *)

Section CodecAtSamples.
Import Codec CodecSamples.

(** The properties of section 8 of the specification, on the model. *)
Example bit_order_big_endian : extract [1; 2] 7 16 big_endian = Success 258.
Proof. reflexivity. Qed.

Example bit_order_little_endian : extract [1; 2] 0 16 little_endian = Success 513.
Proof. reflexivity. Qed.

Example sign_extension :
  @decode_raw no_floats (plain_signal "s" 0 8 little_endian true) 255 true true
  = Numeric (Z2Qc (-1))
  /\ @decode_raw no_floats (plain_signal "s" 0 8 little_endian true) 127 true true
     = Numeric (Z2Qc 127).
Proof. split; reflexivity. Qed.

Example scaling :
  @decode_raw no_floats signal_temperature 100 true true = Numeric (Z2Qc 50)
  /\ @encode_physical no_floats signal_temperature (Numeric (Z2Qc 50)) true
     = Success 100.
Proof. split; reflexivity. Qed.

Example choice_precedence :
  @decode_raw no_floats signal_state 2 true true = Named 2 "Error".
Proof. reflexivity. Qed.

Example multiplexing :
  (m ← @decode no_floats mux_message [1; 100; 0; 2] false true true;
   Success (m !! "Temperature", m !! "Pressure"))
  = Success (Some (Numeric (Z2Qc 50)), None).
Proof. vm_compute. reflexivity. Qed.


(** What else the round trip loses: a value between two steps of the
    scale is rounded, a number whose raw value has a choice comes back as
    that choice, and of two signals that overlap the later one wins. *)
Example round_trip_other_losses :
  (r ← @encode_physical no_floats signal_temperature
         (Numeric (Q2Qc (801 # 20))) true;
   Success (@decode_raw no_floats signal_temperature r true true))
  = Success (Numeric (Z2Qc 40))
  /\ (r ← @encode_physical no_floats signal_state (Numeric (Z2Qc 10)) true;
      Success (@decode_raw no_floats signal_state r true true))
     = Success (Named 2 "Error")
  /\ (p ← @encode no_floats overlap_message
             {[ "a" := Numeric (Z2Qc 255); "b" := Numeric (Z2Qc 0) ]} true;
      m ← @decode no_floats overlap_message p false true true;
      Success (m !! "a"))
     = Success (Some (Numeric (Z2Qc 15))).
Proof. repeat split; vm_compute; reflexivity. Qed.

(** The binary32 signal holds 3/2 exactly, as the pattern [0x3FC00000]. *)
Example ratio_exact :
  @bits_of_float ieee754 32 (Q2Qc (3 # 2)) = 1069547520
  /\ @exact_float ieee754 signal_ratio (Q2Qc (3 # 2))
  /\ @returned ieee754 signal_ratio (Numeric (Q2Qc (3 # 2)))
     = Numeric (Q2Qc (3 # 2)).
Proof.
  split; [vm_compute; reflexivity |].
  assert (@kept ieee754 signal_ratio (Q2Qc (3 # 2)) = Q2Qc (3 # 2)) as Hkept
    by (apply Qc_is_canon; vm_compute; reflexivity).
  split; [exact Hkept |].
  unfold returned. cbn [is_float signal_ratio scale offset].
  assert (((Q2Qc (3 # 2) - 0) / 1)%Qc = Q2Qc (3 # 2)) as ->
    by (apply Qc_is_canon; vm_compute; reflexivity).
  rewrite Hkept. reflexivity.
Qed.

(** A float signal rounds a number its format lacks: a tenth comes back
    as the nearest binary32 number, [13421773 / 2^27], less than [1e-8]
    away.  The round trip of such a number is not exact. *)
Example float_round_trip_rounds :
  let back :=
    r ← @encode_physical ieee754 signal_ratio (Numeric (Q2Qc (1 # 10))) true;
    Success (@decode_raw ieee754 signal_ratio r true true) in
  back = Success (Numeric (Q2Qc (13421773 # 134217728)))
  /\ back <> Success (Numeric (Q2Qc (1 # 10)))
  /\ (0 < (13421773 # 134217728) - (1 # 10) < 1 # 100000000)%Q
  /\ ~ @exact_float ieee754 signal_ratio (Q2Qc (1 # 10)).
Proof.
  intros back.
  assert (back = Success (Numeric (Q2Qc (13421773 # 134217728)))) as Hback.
  { assert (@encode_physical ieee754 signal_ratio (Numeric (Q2Qc (1 # 10))) true
            = Success 1036831949) as Henc by (vm_compute; reflexivity).
    unfold back. rewrite Henc. reflexivity. }
  split; [exact Hback |]. split; [| split].
  - rewrite Hback. intros [=].
  - split; reflexivity.
  - unfold exact_float, kept. intros Heq.
    apply (f_equal this) in Heq. vm_compute in Heq. discriminate.
Qed.

(** The values supplied for the multiplexed message with a float are
    representable. *)
Lemma mux_float_values_representable (s : Signal) :
  s ∈ [signal_selector; signal_temperature; signal_state; signal_ratio] ->
  exists v, mux_float_values !! name s = Some v /\ @representable ieee754 s v.
Proof.
  intros Hs. repeat (apply elem_of_cons in Hs as [-> | Hs]); [| | | | inversion Hs].
  - exists (Numeric (Z2Qc 1)). split; [vm_compute; reflexivity |].
    split; [cbn; lia |]. cbn [is_float signal_selector]. exists 1.
    split; [cbn; lia |]. split; [discriminate |].
    split; [reflexivity |]. split; [discriminate |]. split; [reflexivity |].
    split; intros ?; discriminate.
  - exists (Numeric (Z2Qc 50)). split; [vm_compute; reflexivity |].
    split; [cbn; lia |]. cbn [is_float signal_temperature]. exists 100.
    split; [cbn; lia |]. split; [discriminate |].
    split; [reflexivity |]. split; [discriminate |]. split; [reflexivity |].
    split; intros ? [= <-]; discriminate.
  - exists (Named 2 "Error"). split; [vm_compute; reflexivity |].
    split; [cbn; lia |]. cbn [is_float signal_state]. exists 2.
    split; [cbn; lia |]. split; [discriminate |].
    split; [reflexivity |]. split; reflexivity.
  - exists (Numeric (Q2Qc (1 # 10))). split; [vm_compute; reflexivity |].
    split; [cbn; lia |]. cbn [is_float signal_ratio]. exists (Q2Qc (1 # 10)).
    split; [discriminate |].
    split; [discriminate |]. split; [reflexivity |].
    split; intros ?; discriminate.
Defined.

(** The frame of these values, and what it decodes to: the integer and
    enumerated signals give their values back, the float signal gives the
    binary32 number nearest to a tenth. *)
Example float_message_round_trip :
  @encode ieee754 mux_float_message mux_float_values true
  = Success [1; 100; 0; 2; 205; 204; 204; 61]
  /\ (m ← @decode ieee754 mux_float_message [1; 100; 0; 2; 205; 204; 204; 61]
                  false true true;
      Success (m !! "Mux", m !! "Temperature", m !! "Pressure", m !! "State",
               m !! "Ratio"))
     = Success (Some (Numeric (Z2Qc 1)), Some (Numeric (Z2Qc 50)), None,
                Some (Named 2 "Error"),
                Some (Numeric (Q2Qc (13421773 # 134217728)))).
Proof. split; vm_compute; reflexivity. Qed.


End CodecAtSamples.
